(** * The textual compositor ([src/textual/_compositor.py])

    A shallow embedding of the [Compositor] class: arrangement of a widget
    tree into a region map, the reflow diff, the cut lists, the
    front-to-back occlusion fill of [render], partial updates and hit
    testing, together with the properties of its specification.

    Python integers are [Z]; a [dict] whose iteration order matters (the
    region map, a row of chops) is an association list in insertion order;
    a [set] of widgets is a [gset] of widget identities; an operation that
    can raise returns a [result]. *)

From Stdlib Require Import ZArith List Bool Ascii String Lia Sorted.
From stdpp Require Import base tactics gmap.
Import ListNotations.
Local Open Scope Z_scope.

(* ===================================================================== *)
(** ** Exceptions *)
(* ===================================================================== *)

Inductive exn : Type :=
| NoWidget         (* errors.NoWidget *)
| IndexError       (* list index out of range *)
| KeyError         (* missing dict key *)
| ValueError       (* not enough values to unpack *)
| RecursionError   (* maximum recursion depth exceeded *)
| LayoutError.     (* anything a layout's arrange raises *)

Inductive result (A : Type) : Type :=
| Ok (a : A)
| Raise (e : exn).
Arguments Ok {A} a.
Arguments Raise {A} e.

Global Instance result_bind : MBind result :=
  fun A B (k : A -> result B) (r : result A) =>
    match r with
    | Ok a => k a
    | Raise e => Raise e
    end.
Global Instance result_ret : MRet result := fun A a => Ok a.
Global Instance result_fmap : FMap result :=
  fun A B (f : A -> B) (r : result A) =>
    match r with
    | Ok a => Ok (f a)
    | Raise e => Raise e
    end.

Definition is_ok {A : Type} (r : result A) : bool :=
  match r with Ok _ => true | Raise _ => false end.

(* ===================================================================== *)
(** ** Python sequence primitives *)
(* ===================================================================== *)

Module Py.

(** [l[i]]: a negative index counts from the end; out of range raises. *)
Definition index {A : Type} (l : list A) (i : Z) : result A :=
  let n := Z.of_nat (length l) in
  let j := if i <? 0 then i + n else i in
  if (j <? 0) || (n <=? j) then Raise IndexError
  else match nth_error l (Z.to_nat j) with
       | Some a => Ok a
       | None => Raise IndexError
       end.

(** Normalisation of one bound of a slice [l[a:b]]. *)
Definition clamp_bound (n i : Z) : Z :=
  if i <? 0 then Z.max (i + n) 0 else Z.min i n.

(** [l[a:b]]: never raises, bounds are clamped. *)
Definition slice {A : Type} (l : list A) (a b : Z) : list A :=
  let n := Z.of_nat (length l) in
  let a' := clamp_bound n a in
  let b' := clamp_bound n b in
  firstn (Z.to_nat (b' - a')) (skipn (Z.to_nat a') l).

(** [range(a, b)]. *)
Definition range (a b : Z) : list Z :=
  List.map (fun k => a + Z.of_nat k) (seq 0 (Z.to_nat (b - a))).

(** [zip(xs, ys)]. *)
Definition zip {A B : Type} (xs : list A) (ys : list B) : list (A * B) :=
  List.combine xs ys.

(** Insertion of one element in a strictly increasing list. *)
Fixpoint insert_uniq (x : Z) (l : list Z) : list Z :=
  match l with
  | [] => [x]
  | y :: l' =>
      if x <? y then x :: l
      else if x =? y then l
      else y :: insert_uniq x l'
  end.

(** [sorted(set(l))] on integers. *)
Definition sorted_set (l : list Z) : list Z :=
  fold_right insert_uniq [] l.

(** Lexicographic order on tuples of integers ([a < b]). *)
Fixpoint tuple_ltb (a b : list Z) : bool :=
  match a, b with
  | [], [] => false
  | [], _ :: _ => true
  | _ :: _, [] => false
  | x :: a', y :: b' =>
      if x <? y then true
      else if y <? x then false
      else tuple_ltb a' b'
  end.

Section Sorted.
Context {A K : Type} (key : A -> K) (ltb : K -> K -> bool).

(** One step of a stable ascending sort: [x] came before all of [l]. *)
Fixpoint insert_asc (x : A) (l : list A) : list A :=
  match l with
  | [] => [x]
  | y :: l' =>
      if ltb (key y) (key x) then y :: insert_asc x l' else x :: l
  end.

(** [sorted(l, key=key)]: stable. *)
Definition sorted (l : list A) : list A := fold_right insert_asc [] l.

(** One step of a stable descending sort. *)
Fixpoint insert_desc (x : A) (l : list A) : list A :=
  match l with
  | [] => [x]
  | y :: l' =>
      if ltb (key x) (key y) then y :: insert_desc x l' else x :: l
  end.

(** [sorted(l, key=key, reverse=True)]: stable, equal keys keep
    their original relative order. *)
Definition sorted_reverse (l : list A) : list A :=
  fold_right insert_desc [] l.
End Sorted.

End Py.

(* ===================================================================== *)
(** ** Geometry ([textual.geometry]) *)
(* ===================================================================== *)

Record Offset : Type := mkOffset { off_x : Z; off_y : Z }.
Record Size : Type := mkSize { width : Z; height : Z }.
Record Region : Type :=
  mkRegion { reg_x : Z; reg_y : Z; reg_width : Z; reg_height : Z }.

Module Geometry.

Definition ORIGIN : Offset := mkOffset 0 0.

Definition size_eqb (a b : Size) : bool :=
  (width a =? width b) && (height a =? height b).

(** Modelled from the spec: [Size.region], the region [(0, 0, w, h)];
    [geometry.py] is not among the sources. *)
Definition size_region (s : Size) : Region :=
  mkRegion 0 0 (width s) (height s).

(** Modelled from the spec: [Region.size] and [Region.origin]. *)
Definition region_size (r : Region) : Size :=
  mkSize (reg_width r) (reg_height r).
Definition region_origin (r : Region) : Offset :=
  mkOffset (reg_x r) (reg_y r).

(** Modelled from the spec: a region is true when it has an area. *)
Definition region_bool (r : Region) : bool :=
  (0 <? reg_width r) && (0 <? reg_height r).

(** Modelled from the spec: [Region.corners], [(x, y, x + w, y + h)]. *)
Definition corners (r : Region) : Z * Z * Z * Z :=
  (reg_x r, reg_y r, reg_x r + reg_width r, reg_y r + reg_height r).

(** Modelled from the spec: the half-open extents [[x, x+w)]. *)
Definition x_extents (r : Region) : Z * Z :=
  (reg_x r, reg_x r + reg_width r).

(** Modelled from the spec: the half-open row range [[y, y+h)]. *)
Definition y_range (r : Region) : list Z :=
  Py.range (reg_y r) (reg_y r + reg_height r).

(** Modelled from the spec: translation of a region by an offset. *)
Definition region_add (r : Region) (o : Offset) : Region :=
  mkRegion (reg_x r + off_x o) (reg_y r + off_y o) (reg_width r) (reg_height r).
Definition region_sub (r : Region) (o : Offset) : Region :=
  mkRegion (reg_x r - off_x o) (reg_y r - off_y o) (reg_width r) (reg_height r).

Definition clamp (v lo hi : Z) : Z :=
  if hi <? v then hi else if v <? lo then lo else v.

(** Modelled from the spec: intersection (possibly empty); both corners
    of the first region are clamped to the second. *)
Definition intersection (r c : Region) : Region :=
  let '(x1, y1, x2, y2) := corners r in
  let '(cx1, cy1, cx2, cy2) := corners c in
  let rx1 := clamp x1 cx1 cx2 in
  let ry1 := clamp y1 cy1 cy2 in
  let rx2 := clamp x2 cx1 cx2 in
  let ry2 := clamp y2 cy1 cy2 in
  mkRegion rx1 ry1 (rx2 - rx1) (ry2 - ry1).

(** Modelled from the spec: the bounding union of two regions. *)
Definition union (r o : Region) : Region :=
  let '(x1, y1, x2, y2) := corners r in
  let '(ox1, oy1, ox2, oy2) := corners o in
  let x := Z.min x1 ox1 in
  let y := Z.min y1 oy1 in
  mkRegion x y (Z.max x2 ox2 - x) (Z.max y2 oy2 - y).

(** Modelled from the spec: containment of a point. *)
Definition contains (r : Region) (x y : Z) : bool :=
  (reg_x r <=? x) && (x <? reg_x r + reg_width r) &&
  (reg_y r <=? y) && (y <? reg_y r + reg_height r).

(** Modelled from the spec: containment of another region
    ([other in self]): both corners of [other] lie in [self]. *)
Definition contains_region (self other : Region) : bool :=
  let '(x1, y1, x2, y2) := corners self in
  let '(ox, oy, ox2, oy2) := corners other in
  (x1 <=? ox) && (ox <=? x2) && (y1 <=? oy) && (oy <=? y2) &&
  (x1 <=? ox2) && (ox2 <=? x2) && (y1 <=? oy2) && (oy2 <=? y2).

(** Modelled from the spec: two regions overlap when their intersection
    is not empty. *)
Definition overlaps (self other : Region) : bool :=
  region_bool (intersection other self).

End Geometry.
Import Geometry.

(* ===================================================================== *)
(** ** Segments ([rich.segment], [rich.style]) *)
(* ===================================================================== *)

Inductive Style : Type :=
| Style_null
| Style_of (name : string).

(** A segment is a run of text with an optional style.  Every character
    occupies one cell, so the cell length is the length of the text. *)
Record Segment : Type :=
  mkSegment { seg_text : list ascii; seg_style : option Style }.

Definition Line : Type := list Segment.
Definition Lines : Type := list Line.

(** One terminal cell: a character and the style it is drawn with. *)
Definition Cell : Type := (ascii * option Style)%type.

Module Seg.

(** Modelled from the spec: [Segment.cell_length], the number of cells
    the segment occupies. *)
Definition cell_length (s : Segment) : Z := Z.of_nat (length (seg_text s)).

Definition cells (s : Segment) : list Cell :=
  List.map (fun ch => (ch, seg_style s)) (seg_text s).

(** The cells of a line, left to right. *)
Definition line_cells (l : Line) : list Cell := flat_map cells l.

(** Total cell length of a line. *)
Definition line_length (l : Line) : Z := Z.of_nat (length (line_cells l)).

(** Modelled from the spec: [Segment.split_cells(cut)], the segment cut
    in two at a cell boundary, both halves keeping the style. *)
Definition split_cells (s : Segment) (cut : Z) : Segment * Segment :=
  (mkSegment (firstn (Z.to_nat cut) (seg_text s)) (seg_style s),
   mkSegment (skipn (Z.to_nat cut) (seg_text s)) (seg_style s)).

Definition text_empty (s : Segment) : bool :=
  match seg_text s with [] => true | _ :: _ => false end.

(** Modelled from the spec: the main loop of [Segment.divide], as rich
    runs it, once the first non-zero cut has been read: [cut] is the cut being looked for, [cuts] the ones not
    yet read, [pos] the cell position reached and [split] the segments
    gathered for the portion being built. *)
Fixpoint divide_loop (segments : list Segment) (cut : Z) (cuts : list Z)
    (pos : Z) (split : list Segment) {struct segments} : list (list Segment) :=
  match segments with
  | [] => [split]
  | segment :: rest =>
      (fix while_text (segment : Segment) (cut : Z) (cuts : list Z)
           (pos : Z) (split : list Segment) {struct cuts}
           : list (list Segment) :=
         if text_empty segment then divide_loop rest cut cuts pos split
         else
           let end_pos := pos + cell_length segment in
           if end_pos <? cut then
             divide_loop rest cut cuts end_pos (split ++ [segment])
           else if end_pos =? cut then
             (split ++ [segment]) ::
             match cuts with
             | [] => []
             | cut' :: cuts' => divide_loop rest cut' cuts' end_pos []
             end
           else
             let '(before, after) := split_cells segment (cut - pos) in
             (split ++ [before]) ::
             match cuts with
             | [] => []
             | cut' :: cuts' => while_text after cut' cuts' cut []
             end) segment cut cuts pos split
  end.

(** Modelled from the spec: [Segment.divide(segments, cuts)] as a list,
    one portion ending at each cut and, when segments remain after the
    last cut, one more: an empty portion for every leading cut at 0,
    then the portions of the main loop. *)
Fixpoint divide (segments : list Segment) (cuts : list Z)
    : list (list Segment) :=
  match cuts with
  | [] => []
  | cut :: cuts' =>
      if cut =? 0 then [] :: divide segments cuts'
      else divide_loop segments cut cuts' 0 []
  end.

End Seg.

(* ===================================================================== *)
(** ** Widgets and layouts (external collaborators) *)
(* ===================================================================== *)

(** A placement returned by a layout: a region in the parent's local
    coordinates, the widget placed there (if any) and its order. *)
Record WidgetPlacement (W : Type) : Type :=
  mkPlacement { wp_region : Region; wp_widget : option W; wp_order : Z }.
Arguments mkPlacement {W} _ _ _.
Arguments wp_region {W} _.
Arguments wp_widget {W} _.
Arguments wp_order {W} _.

(** The capabilities of a widget that the compositor reads.  [w_id] is
    the identity of the object (widgets hash and compare by identity);
    [w_lines] is what [_get_lines()] returns. *)
Record WidgetAttrs : Type :=
  mkAttrs {
    a_id : nat;
    a_size : Size;
    a_z : list Z;
    a_visible : bool;
    a_is_transparent : bool;
    a_scroll : Offset;
    a_styles_offset : option (Size -> Size -> Offset);
    a_lines : Lines }.

(** A widget with its optional layout; [arrange(widget, size, scroll)]
    returns the placements and the set of widgets it considered, or raises. *)
#[warnings="-register-all"]
Inductive Widget : Type :=
| MkWidget
    (attrs : WidgetAttrs)
    (layout : option (Size -> Offset ->
                      result (list (WidgetPlacement Widget) * gset nat))).

Definition w_attrs (w : Widget) : WidgetAttrs :=
  match w with MkWidget a _ => a end.
Definition w_layout (w : Widget) :=
  match w with MkWidget _ l => l end.
Definition w_id (w : Widget) : nat := a_id (w_attrs w).
Definition w_size (w : Widget) : Size := a_size (w_attrs w).
Definition w_z (w : Widget) : list Z := a_z (w_attrs w).
Definition w_visible (w : Widget) : bool := a_visible (w_attrs w).
Definition w_is_transparent (w : Widget) : bool := a_is_transparent (w_attrs w).
Definition w_scroll (w : Widget) : Offset := a_scroll (w_attrs w).
Definition w_styles_offset (w : Widget) := a_styles_offset (w_attrs w).
Definition w_get_lines (w : Widget) : Lines := a_lines (w_attrs w).

(* ===================================================================== *)
(** ** Dictionaries keyed by widgets, in insertion order *)
(* ===================================================================== *)

Module Dict.
Section Dict.
Context {V : Type}.

Fixpoint get (m : list (Widget * V)) (w : Widget) : option V :=
  match m with
  | [] => None
  | (k, v) :: m' => if Nat.eqb (w_id k) (w_id w) then Some v else get m' w
  end.

(** [m[w] = v]: an existing key keeps its place, a new one goes last
    (equal keys are the same object). *)
Fixpoint set (m : list (Widget * V)) (w : Widget) (v : V)
    : list (Widget * V) :=
  match m with
  | [] => [(w, v)]
  | (k, v') :: m' =>
      if Nat.eqb (w_id k) (w_id w) then (w, v) :: m'
      else (k, v') :: set m' w v
  end.

Definition mem (m : list (Widget * V)) (w : Widget) : bool :=
  match get m w with Some _ => true | None => false end.

(** [set(m.keys())]. *)
Definition keys (m : list (Widget * V)) : gset nat :=
  list_to_set (List.map (fun kv => w_id (fst kv)) m).
End Dict.
End Dict.

(* ===================================================================== *)
(** ** The compositor *)
(* ===================================================================== *)

Record ReflowResult : Type :=
  mkReflowResult { hidden : gset nat; shown : gset nat; resized : gset nat }.

Record RenderRegion : Type :=
  mkRenderRegion {
    rr_region : Region;
    rr_order : list Z;
    rr_clip : Region;
    rr_virtual_size : Size }.

Definition RenderRegionMap : Type := list (Widget * RenderRegion).

Record LayoutUpdate : Type :=
  mkLayoutUpdate { lu_lines : Lines; lu_region : Region }.

Record Compositor : Type :=
  mkCompositor {
    c_map : RenderRegionMap;
    c_widgets : gset nat;
    c_root : option Widget;
    c_size : Size;
    c_regions : list (Widget * (Region * Region));
    c_cuts : option (list (list Z));
    c_require_update : bool }.

(** [Compositor.__init__]. *)
Definition init : Compositor :=
  mkCompositor [] ∅ None (mkSize 0 0) [] None true.

Definition check_update (c : Compositor) : bool := c_require_update c.

Definition reset (c : Compositor) : Compositor :=
  mkCompositor (c_map c) (c_widgets c) (c_root c) (c_size c) (c_regions c)
    None (c_require_update c).

Definition require_update (c : Compositor) : Compositor :=
  let c := mkCompositor (c_map c) (c_widgets c) (c_root c) (c_size c)
             (c_regions c) (c_cuts c) true in
  let c := reset c in
  mkCompositor [] ∅ (c_root c) (c_size c) (c_regions c) (c_cuts c)
    (c_require_update c).

Definition reset_update (c : Compositor) : Compositor :=
  mkCompositor (c_map c) (c_widgets c) (c_root c) (c_size c) (c_regions c)
    (c_cuts c) false.

(** *** Arrangement *)

(** The state shared by the calls of [add_widget]: the local [map] and
    [widgets] of [_arrange_root]. *)
Definition ArrangeState : Type := (RenderRegionMap * gset nat)%type.

Section Arrange.
(** The depth of the Python stack left to [add_widget]. *)
Variable recursion_limit : nat.

(** [add_widget] of [_arrange_root]. *)
Fixpoint add_widget (depth : nat) (widget : Widget) (region : Region)
    (order : list Z) (clip : Region) (st : ArrangeState)
    : result ArrangeState :=
  match depth with
  | O => Raise RecursionError
  | S depth' =>
      let '(map, widgets) := st in
      let widgets := widgets ∪ {[ w_id widget ]} in
      let total_region := region in
      let layout_offset :=
        match w_styles_offset widget with
        | Some resolve => resolve (region_size region) (region_size clip)
        | None => ORIGIN
        end in
      match w_layout widget with
      | Some arrange =>
          let scroll := w_scroll widget in
          let total_region := size_region (region_size region) in
          let sub_clip := intersection clip region in
          '(placements, arranged_widgets) ← arrange (region_size region) scroll;
          let widgets := widgets ∪ arranged_widgets in
          let placements := Py.sorted wp_order Z.ltb placements in
          '(total_region, st) ←
            (fix for_placements (ps : list (WidgetPlacement Widget))
                 (total_region : Region) (st : ArrangeState)
                 : result (Region * ArrangeState) :=
               match ps with
               | [] => Ok (total_region, st)
               | p :: ps' =>
                   let total_region := union total_region (wp_region p) in
                   match wp_widget p with
                   | Some sub_widget =>
                       st ← add_widget depth' sub_widget
                              (region_sub
                                 (region_add (wp_region p) (region_origin region))
                                 scroll)
                              (w_z sub_widget ++ [wp_order p])
                              sub_clip st;
                       for_placements ps' total_region st
                   | None => for_placements ps' total_region st
                   end
               end) placements total_region (map, widgets);
          let '(map, widgets) := st in
          Ok (Dict.set map widget
                (mkRenderRegion (region_add region layout_offset) order clip
                   (region_size total_region)),
              widgets)
      | None =>
          Ok (Dict.set map widget
                (mkRenderRegion (region_add region layout_offset) order clip
                   (region_size total_region)),
              widgets)
      end
  end.

(** [Compositor._arrange_root]. *)
Definition _arrange_root (root : Widget) : result ArrangeState :=
  let size := w_size root in
  add_widget recursion_limit root (size_region size) [] (size_region size)
    ([], ∅).

(** [Compositor.reflow]: the state it leaves and what it returns. *)
Definition reflow (c : Compositor) (parent : Widget) (size : Size)
    : Compositor * result ReflowResult :=
  let c := reset c in
  let c := mkCompositor (c_map c) (c_widgets c) (Some parent) size
             (c_regions c) (c_cuts c) (c_require_update c) in
  match _arrange_root parent with
  | Raise e => (c, Raise e)
  | Ok (map, widgets) =>
      let old_widgets := Dict.keys (c_map c) in
      let new_widgets := Dict.keys map in
      let shown_widgets := new_widgets ∖ old_widgets in
      let hidden_widgets := old_widgets ∖ new_widgets in
      let new_renders :=
        List.map (fun '(widget, rr) => (widget, (rr_region rr, rr_clip rr)))
          map in
      let resized_widgets : gset nat :=
        list_to_set
          (List.map (fun kv => w_id (fst kv))
             (List.filter
                (fun '(widget, rr) =>
                   bool_decide (w_id widget ∈ old_widgets) &&
                   negb (size_eqb (w_size widget)
                           (region_size (rr_region rr))))
                map)) in
      (mkCompositor map widgets (c_root c) (c_size c) new_renders
         (c_cuts c) false,
       Ok (mkReflowResult hidden_widgets shown_widgets resized_widgets))
  end.
End Arrange.

(** *** Iteration and hit testing *)

(** [Compositor.__iter__]: widget, cropped region, region, virtual size,
    front first. *)
Definition iter (c : Compositor) : list (Widget * Region * Region * Size) :=
  let layers :=
    Py.sorted_reverse (fun item : Widget * RenderRegion => rr_order (snd item))
      Py.tuple_ltb (c_map c) in
  List.map
    (fun '(widget, rr) =>
       (widget, intersection (rr_region rr) (rr_clip rr), rr_region rr,
        rr_virtual_size rr))
    layers.

Definition get_offset (c : Compositor) (widget : Widget) : result Offset :=
  match Dict.get (c_map c) widget with
  | Some rr => Ok (region_origin (rr_region rr))
  | None => Raise NoWidget
  end.

Fixpoint first_containing (layers : list (Widget * Region * Region * Size))
    (x y : Z) : result (Widget * Region) :=
  match layers with
  | [] => Raise NoWidget
  | (widget, cropped_region, region, _) :: layers' =>
      if contains cropped_region x y then Ok (widget, region)
      else first_containing layers' x y
  end.

Definition get_widget_at (c : Compositor) (x y : Z) : result (Widget * Region) :=
  first_containing (iter c) x y.

(** The loop over the segments of a line in [get_style_at]. *)
Fixpoint style_in_line (line : Line) (x end_ : Z) : Style :=
  match line with
  | [] => Style_null
  | segment :: line' =>
      let end_ := end_ + Seg.cell_length segment in
      if x <? end_ then
        match seg_style segment with
        | Some (Style_of n) => Style_of n
        | _ => Style_null
        end
      else style_in_line line' x end_
  end.

Definition get_style_at (c : Compositor) (x y : Z) : result Style :=
  match get_widget_at c x y with
  | Raise NoWidget => Ok Style_null
  | Raise e => Raise e
  | Ok (widget, region) =>
      if negb (Dict.mem (c_regions c) widget) then Ok Style_null
      else
        let lines := w_get_lines widget in
        let x := x - reg_x region in
        let y := y - reg_y region in
        if Z.of_nat (length lines) <? y then Ok Style_null
        else
          line ← Py.index lines y;
          Ok (style_in_line line x 0)
  end.

Definition get_widget_region (c : Compositor) (widget : Widget) : result Region :=
  match Dict.get (c_map c) widget with
  | Some rr => Ok (rr_region rr)
  | None => Raise NoWidget
  end.

(** *** Cuts *)

(** [for cut in cuts[a:b]: cut.extend(region_cuts)], the rows of the
    slice being extended in place; [i] is the index of the first row. *)
Fixpoint extend_from (i : Z) (rows : list (list Z)) (a b : Z)
    (region_cuts : list Z) : list (list Z) :=
  match rows with
  | [] => []
  | row :: rows' =>
      (if (a <=? i) && (i <? b) then row ++ region_cuts else row)
      :: extend_from (i + 1) rows' a b region_cuts
  end.

Definition extend_rows (rows : list (list Z)) (a b : Z) (region_cuts : list Z)
    : list (list Z) :=
  let n := Z.of_nat (length rows) in
  extend_from 0 rows (Py.clamp_bound n a) (Py.clamp_bound n b) region_cuts.

(** The body of the loop over [self.map.values()] in [cuts]. *)
Definition add_region_cuts (screen_region : Region) (cuts : list (list Z))
    (rr : RenderRegion) : list (list Z) :=
  let region := intersection (rr_region rr) (rr_clip rr) in
  if region_bool region && contains_region screen_region region then
    let x := reg_x region in
    let y := reg_y region in
    let region_cuts := [x; x + reg_width region] in
    extend_rows cuts y (y + reg_height region) region_cuts
  else cuts.

(** The cuts computed when the cache is empty. *)
Definition compute_cuts (c : Compositor) : list (list Z) :=
  let width := width (c_size c) in
  let height := height (c_size c) in
  let screen_region := size_region (c_size c) in
  let cuts := List.map (fun _ => [0; width]) (Py.range 0 height) in
  let cuts :=
    fold_left (fun cuts kv => add_region_cuts screen_region cuts (snd kv))
      (c_map c) cuts in
  List.map Py.sorted_set cuts.

(** The [cuts] property: cached in [_cuts]. *)
Definition cuts (c : Compositor) : Compositor * list (list Z) :=
  match c_cuts c with
  | Some cs => (c, cs)
  | None =>
      let cs := compute_cuts c in
      (mkCompositor (c_map c) (c_widgets c) (c_root c) (c_size c)
         (c_regions c) (Some cs) (c_require_update c), cs)
  end.

(** *** Rendering *)

(** [mapM] for [result]: the first exception stops the comprehension. *)
Fixpoint map_result {A B : Type} (f : A -> result B) (l : list A)
    : result (list B) :=
  match l with
  | [] => Ok []
  | a :: l' => b ← f a; bs ← map_result f l'; Ok (b :: bs)
  end.

Fixpoint fold_result {A S : Type} (f : S -> A -> result S) (l : list A) (s : S)
    : result S :=
  match l with
  | [] => Ok s
  | a :: l' => s' ← f s a; fold_result f l' s'
  end.

(** The sorted list [widget_regions] of [_get_renders]. *)
Definition widget_regions (c : Compositor)
    : list (Widget * Region * list Z * Region) :=
  match c_map c with
  | [] => []
  | _ :: _ =>
      Py.sorted_reverse (fun t : Widget * Region * list Z * Region => snd (fst t))
        Py.tuple_ltb
        (List.map
           (fun '(widget, rr) => (widget, rr_region rr, rr_order rr, rr_clip rr))
           (List.filter (fun kv => w_visible (fst kv)) (c_map c)))
  end.

(** What the body of the loop of [_get_renders] yields for one widget:
    nothing, a render, or an exception raised while cropping. *)
Definition render_of (t : Widget * Region * list Z * Region)
    : option (result (Region * Region * Lines)) :=
  let '(widget, region, _order, clip) := t in
  if w_is_transparent widget then None
  else if contains_region clip region then
    Some (Ok (region, clip, w_get_lines widget))
  else if overlaps clip region then
    let lines := w_get_lines widget in
    let new_region := intersection region clip in
    let delta_x := reg_x new_region - reg_x region in
    let delta_y := reg_y new_region - reg_y region in
    let splits := [delta_x; delta_x + reg_width new_region] in
    let lines := Py.slice lines delta_y (delta_y + reg_height new_region) in
    Some (lines ← map_result
                    (fun line => Py.index (Seg.divide line splits) 1) lines;
          Ok (region, clip, lines))
  else None.

(** [_get_renders]: the generator, one element per [yield]; an exception
    is raised when the element is reached. *)
Definition _get_renders (c : Compositor)
    : list (result (Region * Region * Lines)) :=
  omap render_of (widget_regions c).

(** A row of chops: cut column to segments (or [None]), in key order. *)
Definition Chops : Type := list (Z * option Line).

Fixpoint chop_get (d : Chops) (cut : Z) : option (option Line) :=
  match d with
  | [] => None
  | (k, v) :: d' => if k =? cut then Some v else chop_get d' cut
  end.

Fixpoint chop_set (d : Chops) (cut : Z) (v : option Line) : Chops :=
  match d with
  | [] => [(cut, v)]
  | (k, v') :: d' =>
      if k =? cut then (k, v) :: d' else (k, v') :: chop_set d' cut v
  end.

(** [dict.fromkeys(cut_set)]. *)
Definition fromkeys (cut_set : list Z) : Chops :=
  fold_left (fun d cut => chop_set d cut None) cut_set [].

(** [_assemble_chops]. *)
Definition _assemble_chops (chops : list Chops) : Lines :=
  List.map
    (fun bucket =>
       List.concat
         (omap (fun kv : Z * option Line => snd kv) bucket))
    chops.

(** The first writer of a cut wins:
    [if chops_line[cut] is None: chops_line[cut] = segments]. *)
Definition fill_cut (chops_line : Chops) (p : Z * Line) : result Chops :=
  let '(cut, segments) := p in
  match chop_get chops_line cut with
  | None => Raise KeyError
  | Some None => Ok (chop_set chops_line cut (Some segments))
  | Some (Some _) => Ok chops_line
  end.

(** [l[i] = v] at an index that [Py.index] accepts. *)
Definition list_assign {A : Type} (l : list A) (i : Z) (v : A) : list A :=
  let n := Z.of_nat (length l) in
  let j := if i <? 0 then i + n else i in
  <[ Z.to_nat j := v ]> l.

(** The body of the loop over the rows of one render in [render]. *)
Definition paint_line (cuts : list (list Z)) (render_region : Region)
    (chops : list Chops) (yl : Z * Line) : result (list Chops) :=
  let '(y, line) := yl in
  let '(first_cut, last_cut) := x_extents render_region in
  cuts_y ← Py.index cuts y;
  let final_cuts :=
    List.filter (fun cut => (cut <=? last_cut) && (first_cut <=? cut)) cuts_y in
  cut_segments ←
    (if (length final_cuts =? 2)%nat then Ok [line]
     else
       let render_x := reg_x render_region in
       let relative_cuts := List.map (fun cut => cut - render_x) final_cuts in
       match Seg.divide line relative_cuts with
       | [] => Raise ValueError
       | _ :: cut_segments => Ok cut_segments
       end);
  chops_line ← Py.index chops y;
  chops_line ← fold_result fill_cut (Py.zip final_cuts cut_segments) chops_line;
  Ok (list_assign chops y chops_line).

(** The body of the loop over the renders in [render]. *)
Definition paint_render (cuts : list (list Z)) (chops : list Chops)
    (r : result (Region * Region * Lines)) : result (list Chops) :=
  '(region, clip, lines) ← r;
  let render_region := intersection region clip in
  fold_result (paint_line cuts render_region)
    (Py.zip (y_range render_region) lines) chops.

(** [width_view] of [render]. *)
Definition width_view (crop_x crop_x2 : Z) (line : Line) : result Line :=
  match line with
  | [] => Ok line
  | _ :: _ =>
      let div_lines := Seg.divide line [crop_x; crop_x2] in
      if (1 <? length div_lines)%nat then Py.index div_lines 1
      else Py.index div_lines 0
  end.

(** [Compositor.render]: the state it leaves (the cuts are cached) and
    the lines it returns. *)
Definition render (c : Compositor) (crop : option Region)
    : Compositor * result Lines :=
  let width := width (c_size c) in
  let height := height (c_size c) in
  let screen_region := mkRegion 0 0 width height in
  let crop_region :=
    match crop with
    | Some cr => if region_bool cr then intersection cr screen_region
                 else screen_region
    | None => screen_region
    end in
  let '(c, cuts) := cuts c in
  let chops := List.map fromkeys cuts in
  (c,
   chops ← fold_result (paint_render cuts) (_get_renders c) chops;
   let '(crop_x, crop_y, crop_x2, crop_y2) := corners crop_region in
   let render_lines := _assemble_chops (Py.slice chops crop_y crop_y2) in
   match crop with
   | Some _ =>
       if negb ((crop_x =? 0) && (crop_x2 =? width)) then
         map_result (width_view crop_x crop_x2) render_lines
       else Ok render_lines
   | None => Ok render_lines
   end).

(** *** Partial update *)

(** What a call does to the widgets it is given. *)
Inductive WidgetEffect : Type :=
| ClearRenderCache (widget : nat).

(** [Compositor.update_widget]: the state it leaves, the effects on the
    widget and the patch (or [None]) it returns. *)
Definition update_widget (c : Compositor) (widget : Widget)
    : Compositor * list WidgetEffect * result (option LayoutUpdate) :=
  match Dict.get (c_regions c) widget with
  | None => (c, [], Ok None)
  | Some (region, clip) =>
      if negb (region_bool region) then (c, [], Ok None)
      else
        let update_region := intersection region clip in
        if negb (region_bool update_region) then (c, [], Ok None)
        else
          let '(c, r) := render c (Some update_region) in
          (c, [ClearRenderCache (w_id widget)],
           update_lines ← r;
           Ok (Some (mkLayoutUpdate update_lines update_region)))
  end.

(** *** Auxiliary notions of the properties *)


(** The widgets replaced by their images under [f], everything else
    kept. *)
Definition rekey (f : Widget -> Widget) (c : Compositor) : Compositor :=
  mkCompositor (List.map (fun kv => (f (fst kv), snd kv)) (c_map c))
    (c_widgets c) (c_root c) (c_size c) (c_regions c) (c_cuts c)
    (c_require_update c).

(** The calls of [add_widget] that an arrangement of [root] makes: the
    widget and the order it is given. *)
Inductive arranged (root : Widget) : Widget -> list Z -> Prop :=
| arranged_root : arranged root root []
| arranged_child parent order arrange size placements widgets p sub_widget :
    arranged root parent order ->
    w_layout parent = Some arrange ->
    arrange size (w_scroll parent) = Ok (placements, widgets) ->
    In p placements ->
    wp_widget p = Some sub_widget ->
    arranged root sub_widget (w_z sub_widget ++ [wp_order p]).

(** The cuts that the entry [rr] adds to row [y]: the extents of its
    clipped region when it is not empty, lies within the screen and
    holds the row. *)
Definition region_row_cuts (screen_region : Region) (rr : RenderRegion) (y : Z)
    : list Z :=
  let region := intersection (rr_region rr) (rr_clip rr) in
  if region_bool region && contains_region screen_region region
     && (reg_y region <=? y) && (y <? reg_y region + reg_height region)
  then [reg_x region; reg_x region + reg_width region]
  else [].

(** Row [y] of the cuts, in closed form. *)
Definition cuts_row (c : Compositor) (y : Z) : list Z :=
  Py.sorted_set
    ([0; width (c_size c)]
     ++ flat_map (fun kv : Widget * RenderRegion =>
                    region_row_cuts (size_region (c_size c)) (snd kv) y)
          (c_map c)).

(** The elements of [l] from position [a] up to position [b]. *)
Definition cell_slice {A : Type} (l : list A) (a b : Z) : list A :=
  firstn (Z.to_nat (b - a)) (skipn (Z.to_nat a) l).

(** The runs between consecutive cuts. *)
Definition runs (l : list Z) : list (Z * Z) := List.combine l (List.tl l).

(** The run that starts at cut [k], if [k] is a cut other than the last. *)
Definition run_of (cs : list Z) (k : Z) : option (Z * Z) :=
  List.find (fun r : Z * Z => fst r =? k) (runs cs).

(** The cells held by the bucket of cut [k]. *)
Definition bucket_cells (d : Chops) (k : Z) : option (option (list Cell)) :=
  option_map (option_map Seg.line_cells) (chop_get d k).

(** The first pair of an association list with key [k]. *)
Fixpoint assoc {V : Type} (l : list (Z * V)) (k : Z) : option V :=
  match l with
  | [] => None
  | (k', v) :: l' => if k' =? k then Some v else assoc l' k
  end.

(** What painting the run [[rx, rx + w)] with the cells [cl] of a line
    does to the cells [v] of the bucket of cut [k]: a filled bucket is
    kept, an empty one within the run receives its part of the line. *)
Definition paint_bucket (cs : list Z) (rx w : Z) (cl : list Cell) (k : Z)
    (v : option (list Cell)) : option (list Cell) :=
  match v with
  | Some _ => v
  | None =>
      if (rx <=? k) && (k <? rx + w) then
        match run_of cs k with
        | Some r => Some (cell_slice cl (fst r - rx) (snd r - rx))
        | None => None
        end
      else None
  end.

(** The rows of chops agree with [g]: row [y] has the cuts of row [y]
    as keys, and the bucket of cut [k] holds the cells [g y k]. *)
Definition chops_inv (cuts : list (list Z)) (chops : list Chops)
    (g : Z -> Z -> option (list Cell)) : Prop :=
  length chops = length cuts /\
  forall y cs (d : Chops),
    0 <= y ->
    nth_error cuts (Z.to_nat y) = Some cs ->
    nth_error chops (Z.to_nat y) = Some d ->
    List.map fst d = cs /\
    forall k, In k cs -> bucket_cells d k = Some (g y k).

(** What painting the lines [lines] over the region [rr] does to the
    cells of the buckets. *)
Definition paint_cells (cuts : list (list Z)) (rr : Region) (lines : Lines)
    (g : Z -> Z -> option (list Cell)) (y k : Z) : option (list Cell) :=
  if (reg_y rr <=? y) && (y <? reg_y rr + reg_height rr) then
    paint_bucket (nth (Z.to_nat y) cuts []) (reg_x rr) (reg_width rr)
      (Seg.line_cells (nth (Z.to_nat (y - reg_y rr)) lines [])) k (g y k)
  else g y k.

(** The lines of a widget fit a region: one line per row, each as long
    as the region is wide. *)
Definition lines_fit (lines : Lines) (region : Region) : bool :=
  (Z.of_nat (length lines) =? reg_height region) &&
  forallb (fun line => Seg.line_length line =? reg_width region) lines.

(** An entry that the renderer paints (visible, not transparent) has a
    region with an area, a clip within the screen and lines that fit its
    region. *)
Definition entry_ok (screen_region : Region) (kv : Widget * RenderRegion)
    : bool :=
  negb (w_visible (fst kv)) || w_is_transparent (fst kv) ||
  (region_bool (rr_region (snd kv)) &&
   (0 <=? reg_width (rr_clip (snd kv))) &&
   (0 <=? reg_height (rr_clip (snd kv))) &&
   contains_region screen_region (rr_clip (snd kv)) &&
   lines_fit (w_get_lines (fst kv)) (rr_region (snd kv))).

(** A compositor whose painted entries are all in order and whose cached
    cuts, if any, are the cuts of its map. *)
Definition renderable (c : Compositor) : bool :=
  (0 <=? width (c_size c)) && (0 <=? height (c_size c)) &&
  forallb (entry_ok (size_region (c_size c))) (c_map c) &&
  match c_cuts c with
  | None => true
  | Some cs => bool_decide (cs = compute_cuts c)
  end.

(** What the render of the widget [t] does to the cells of the buckets:
    the empty buckets within its clipped region receive the cells of
    its line between the cut and the next one. *)
Definition painted (cuts : list (list Z)) (t : Widget * Region * list Z * Region)
    (g : Z -> Z -> option (list Cell)) (y k : Z) : option (list Cell) :=
  let '(widget, region, _, clip) := t in
  if negb (w_is_transparent widget)
     && contains (intersection region clip) k y then
    match g y k with
    | Some cl => Some cl
    | None =>
        match run_of (nth (Z.to_nat y) cuts []) k with
        | Some r =>
            Some (cell_slice
                    (Seg.line_cells
                       (nth (Z.to_nat (y - reg_y region)) (w_get_lines widget) []))
                    (fst r - reg_x region) (snd r - reg_x region))
        | None => None
        end
    end
  else g y k.

(** The widget that the renderer paints at [(x, y)]: the first one,
    front to back, that is visible and not transparent and whose clipped
    region holds the point. *)
Definition front (c : Compositor) (x y : Z)
    : option (Widget * Region * list Z * Region) :=
  List.find
    (fun t : Widget * Region * list Z * Region =>
       negb (w_is_transparent (fst (fst (fst t))))
       && contains (intersection (snd (fst (fst t))) (snd t)) x y)
    (widget_regions c).

(** The cell of a widget's own lines that lies at the screen cell
    [(x, y)], for a widget arranged at [region]. *)
Definition widget_cell (widget : Widget) (region : Region) (x y : Z)
    : option Cell :=
  nth_error
    (Seg.line_cells (nth (Z.to_nat (y - reg_y region)) (w_get_lines widget) []))
    (Z.to_nat (x - reg_x region)).

(** The cells that the fill leaves in the bucket of cut [k] of row [y]. *)
Definition filled_cells (c : Compositor) (y k : Z) : option (list Cell) :=
  match run_of (cuts_row c y) k with
  | Some r =>
      match front c k y with
      | Some t =>
          Some (cell_slice
                  (Seg.line_cells
                     (nth (Z.to_nat (y - reg_y (snd (fst (fst t)))))
                        (w_get_lines (fst (fst (fst t)))) []))
                  (fst r - reg_x (snd (fst (fst t))))
                  (snd r - reg_x (snd (fst (fst t)))))
      | None => None
      end
  | None => None
  end.

(** The cells of row [y] of the full render. *)
Definition row_cells (c : Compositor) (y : Z) : list Cell :=
  flat_map (fun k => default [] (filled_cells c y k)) (cuts_row c y).

(** The rows of the full render before they are cropped. *)
Definition crop_view (c : Compositor) (cr : Region) (lines : Lines)
    : result Lines :=
  let screen_region := mkRegion 0 0 (width (c_size c)) (height (c_size c)) in
  let crop_region :=
    if region_bool cr then intersection cr screen_region else screen_region in
  let '(crop_x, crop_y, crop_x2, crop_y2) := corners crop_region in
  let render_lines := Py.slice lines crop_y crop_y2 in
  if negb ((crop_x =? 0) && (crop_x2 =? width (c_size c))) then
    map_result (width_view crop_x crop_x2) render_lines
  else Ok render_lines.

(** The chops once every render has been painted. *)
Definition fill (c : Compositor) : result (list Chops) :=
  fold_result (paint_render (compute_cuts c)) (_get_renders c)
    (List.map fromkeys (compute_cuts c)).

(** The cached cuts, if any, are the cuts of the map. *)
Definition cuts_cache_valid (c : Compositor) : Prop :=
  match c_cuts c with
  | None => True
  | Some cs => cs = compute_cuts c
  end.

(** Some visible widget that is not transparent covers the cell. *)
Definition covered (c : Compositor) (x y : Z) : bool :=
  match front c x y with Some _ => true | None => false end.

(* ===================================================================== *)
(** ** The callers of the compositor and further notions *)
(* ===================================================================== *)

(** The displacement that [add_widget] gives to the region of a widget. *)
Definition layout_offset (widget : Widget) (region clip : Region) : Offset :=
  match w_styles_offset widget with
  | Some resolve => resolve (region_size region) (region_size clip)
  | None => ORIGIN
  end.

(** The calls of [add_widget] that an arrangement of [root] makes, with
    the region, the order and the clip each one is given. *)
Inductive placed (root : Widget) : Widget -> Region -> list Z -> Region -> Prop :=
| placed_root :
    placed root root (size_region (w_size root)) [] (size_region (w_size root))
| placed_child parent region order clip arrange placements widgets p sub_widget :
    placed root parent region order clip ->
    w_layout parent = Some arrange ->
    arrange (region_size region) (w_scroll parent) = Ok (placements, widgets) ->
    In p placements ->
    wp_widget p = Some sub_widget ->
    placed root sub_widget
      (region_sub (region_add (wp_region p) (region_origin region))
         (w_scroll parent))
      (w_z sub_widget ++ [wp_order p])
      (intersection clip region).

(** The entry is what some call of [add_widget] records. *)
Definition entry_placed (root : Widget) (kv : Widget * RenderRegion) : Prop :=
  exists region,
    placed root (fst kv) region (rr_order (snd kv)) (rr_clip (snd kv)) /\
    rr_region (snd kv)
    = region_add region (layout_offset (fst kv) region (rr_clip (snd kv))).


(** The identities of the keys of a dictionary, in insertion order. *)
Definition ids {V : Type} (m : list (Widget * V)) : list nat :=
  List.map (fun kv => w_id (fst kv)) m.

(** What an arrangement keeps true of the map and the set it builds:
    every entry is recorded by a call of [add_widget], every key is in
    the set, and no key is repeated. *)
Definition arrange_inv (root : Widget) (st : ArrangeState) : Prop :=
  Forall (entry_placed root) (fst st) /\
  (forall i, In i (ids (fst st)) -> i ∈ snd st) /\
  List.NoDup (ids (fst st)).


(** Every region that the arrangement hands to [add_widget] has a width
    and a height that are not negative. *)
Definition regions_valid (root : Widget) : Prop :=
  forall w region order clip,
    placed root w region order clip ->
    0 <= reg_width region /\ 0 <= reg_height region.

(** The clipped region of an entry: what [__iter__] yields as the
    cropped region. *)
Definition visible_region (rr : RenderRegion) : Region :=
  intersection (rr_region rr) (rr_clip rr).

(** The layers of [__iter__] before they are projected: the entries of
    the map, front first. *)
Definition layers_of (c : Compositor) : list (Widget * RenderRegion) :=
  Py.sorted_reverse (fun item : Widget * RenderRegion => rr_order (snd item))
    Py.tuple_ltb (c_map c).

(* ===================================================================== *)
(** ** The patch as a renderable ([LayoutUpdate.__rich_console__]) *)
(* ===================================================================== *)

(** What a renderable yields to the console: a control code of
    [rich.control] or a segment. *)
Inductive ConsoleItem : Type :=
| Control_home
| Control_move_to (x y : Z)
| Item_segment (segment : Segment).

(** [Segment.line()]: the segment of one new line character. *)
Definition Segment_line : Segment := mkSegment ["010"%char] None.

(** Modelled from the spec: [loop_last] of [textual._loop], every value
    with whether it is the last one. *)
Fixpoint loop_last {A : Type} (values : list A) : list (bool * A) :=
  match values with
  | [] => []
  | v :: rest =>
      match rest with
      | [] => [(true, v)]
      | _ :: _ => (false, v) :: loop_last rest
      end
  end.

(** [enumerate(values, start)]. *)
Fixpoint enumerate {A : Type} (values : list A) (start : Z) : list (Z * A) :=
  match values with
  | [] => []
  | v :: rest => (start, v) :: enumerate rest (start + 1)
  end.

(** [LayoutUpdate.__rich_console__]: the renderables it yields. *)
Definition layout_update_console (u : LayoutUpdate) : list ConsoleItem :=
  let x := reg_x (lu_region u) in
  let new_line := Segment_line in
  Control_home
  :: flat_map
       (fun '(last, (y, line)) =>
          Control_move_to x y
          :: List.map Item_segment line
          ++ (if negb last then [Item_segment new_line] else []))
       (loop_last (enumerate (lu_lines u) (reg_y (lu_region u)))).

(** A terminal that obeys the controls: the cursor goes to the origin
    on [home] and to [(x, y)] on [move_to]; a character is written at
    the cursor, which moves one cell to the right; a new line takes the
    cursor to the start of the next row. *)
Fixpoint write_text (text : list ascii) (style : option Style) (cursor : Z * Z)
    : list (Z * Z * Cell) * (Z * Z) :=
  match text with
  | [] => ([], cursor)
  | ch :: text' =>
      if Ascii.eqb ch "010"%char then
        write_text text' style (0, snd cursor + 1)
      else
        let '(cells, cursor') :=
          write_text text' style (fst cursor + 1, snd cursor) in
        ((fst cursor, snd cursor, (ch, style)) :: cells, cursor')
  end.

(** What the terminal has written, cell by cell, once it has read the
    items. *)
Fixpoint terminal (items : list ConsoleItem) (cursor : Z * Z)
    : list (Z * Z * Cell) :=
  match items with
  | [] => []
  | Control_home :: items' => terminal items' (0, 0)
  | Control_move_to x y :: items' => terminal items' (x, y)
  | Item_segment segment :: items' =>
      let '(cells, cursor') :=
        write_text (seg_text segment) (seg_style segment) cursor in
      cells ++ terminal items' cursor'
  end.

(** The cells of [line] laid from [(x, y)] to the right. *)
Definition cells_at (x y : Z) (cells : list Cell) : list (Z * Z * Cell) :=
  List.map (fun '(j, cell) => (x + j, y, cell)) (enumerate cells 0).

(** No character of the lines is a new line. *)
Definition no_new_line (lines : Lines) : Prop :=
  Forall (Forall (fun segment : Segment =>
                    Forall (fun ch => Ascii.eqb ch "010"%char = false)
                      (seg_text segment))) lines.

(* ===================================================================== *)
(** ** The screen ([src/textual/screen.py]) *)
(* ===================================================================== *)

(** What the screen asks of the application, of the message it handles
    and of the widgets, in the order it asks. *)
Inductive ScreenEffect : Type :=
| PostHide (widget : nat)
| PostShow (widget : nat)
| UpdateSize (widget : nat) (size : Size)
| PostResize (widget : nat) (size virtual_size : Size)
| WidgetCall (effect : WidgetEffect)
| MessageStop
| AppPanic
| AppRefresh
| AppDisplay (update : LayoutUpdate).

(** A screen: the widget it is (its size, its layout) and its
    compositor. *)
Record Screen : Type :=
  mkScreen { scr_self : Widget; scr_compositor : Compositor }.

(** Modelled from the spec: [Widget._update_size] on the screen itself,
    the widget takes the size it is told ([widget.py] is not among the
    sources). *)
Definition update_self_size (s : Screen) (size : Size) : Screen :=
  let a := w_attrs (scr_self s) in
  mkScreen
    (MkWidget
       (mkAttrs (a_id a) size (a_z a) (a_visible a) (a_is_transparent a)
          (a_scroll a) (a_styles_offset a) (a_lines a))
       (w_layout (scr_self s)))
    (scr_compositor s).

Section Screen.
(** The depth of the Python stack left to the arrangement. *)
Variable recursion_limit : nat.
(** [Size.__bool__] of [textual.geometry]. *)
Variable size_bool : Size -> bool.

(** The loop of [refresh_layout] over the compositor: every widget is
    told its size, and those shown or resized are sent a [Resize]. *)
Definition notify_sizes (send_resize : gset nat)
    (layers : list (Widget * Region * Region * Size)) : list ScreenEffect :=
  flat_map
    (fun '(widget, _, unclipped_region, virtual_size) =>
       UpdateSize (w_id widget) (region_size unclipped_region)
       :: (if bool_decide (w_id widget ∈ send_resize)
           then [PostResize (w_id widget) (region_size unclipped_region)
                   virtual_size]
           else []))
    layers.

(** [Screen.refresh_layout].  The order in which Python goes through a
    set is not specified; it is taken to be that of [elements]. *)
Definition refresh_layout (s : Screen) : Screen * list ScreenEffect :=
  if negb (size_bool (w_size (scr_self s))) then (s, [])
  else
    let '(c, r) :=
      reflow recursion_limit (scr_compositor s) (scr_self s)
        (w_size (scr_self s)) in
    let effects :=
      match r with
      | Ok result =>
          List.map PostHide (elements (hidden result))
          ++ List.map PostShow (elements (shown result))
          ++ notify_sizes (shown result ∪ resized result) (iter c)
      | Raise _ => [AppPanic]
      end in
    (mkScreen (scr_self s) c, effects ++ [AppRefresh]).

(** [Screen.handle_update] for a message about [widget]. *)
Definition handle_update (s : Screen) (widget : Widget)
    : Screen * list ScreenEffect * result unit :=
  let '(c, effects, r) := update_widget (scr_compositor s) widget in
  let s' := mkScreen (scr_self s) c in
  let effects := MessageStop :: List.map WidgetCall effects in
  match r with
  | Raise e => (s', effects, Raise e)
  | Ok None => (s', effects, Ok tt)
  | Ok (Some display_update) => (s', effects ++ [AppDisplay display_update], Ok tt)
  end.

(** [Screen.on_resize] for an event of the given size. *)
Definition on_resize (s : Screen) (size : Size) : Screen * list ScreenEffect :=
  let s := update_self_size s size in
  let '(s', effects) := refresh_layout s in
  (s', effects ++ [MessageStop]).

(** [Screen.on_idle]. *)
Definition on_idle (s : Screen) : Screen * list ScreenEffect :=
  if check_update (scr_compositor s) then
    refresh_layout (mkScreen (scr_self s) (reset_update (scr_compositor s)))
  else (s, []).

End Screen.

(** *** Mouse events *)

(** The classes of events that [forward_event] tells apart, in the
    order of its [isinstance] tests. *)
Inductive EventClass : Type :=
| EnterLeave      (* events.Enter, events.Leave *)
| MouseMove       (* events.MouseMove *)
| MouseDown       (* events.MouseDown, a MouseEvent *)
| MouseEvent      (* any other events.MouseEvent *)
| MouseScroll     (* events.MouseScrollDown, events.MouseScrollUp *)
| OtherEvent.

(** An event with the attributes that the screen reads, writes or
    copies. *)
Record Event : Type :=
  mkEvent {
    ev_class : EventClass;
    ev_x : Z;
    ev_y : Z;
    ev_delta_x : Z;
    ev_delta_y : Z;
    ev_button : Z;
    ev_shift : bool;
    ev_meta : bool;
    ev_ctrl : bool;
    ev_screen_x : Z;
    ev_screen_y : Z;
    ev_style : Style;
    ev_forwarded : bool }.

(** [event.set_forwarded()]: it sets the flag that [event.is_forwarded]
    reads ([events.py] is not among the sources). *)
Definition set_forwarded (e : Event) : Event :=
  mkEvent (ev_class e) (ev_x e) (ev_y e) (ev_delta_x e) (ev_delta_y e)
    (ev_button e) (ev_shift e) (ev_meta e) (ev_ctrl e) (ev_screen_x e)
    (ev_screen_y e) (ev_style e) true.

(** [event.style = style]. *)
Definition set_style (e : Event) (style : Style) : Event :=
  mkEvent (ev_class e) (ev_x e) (ev_y e) (ev_delta_x e) (ev_delta_y e)
    (ev_button e) (ev_shift e) (ev_meta e) (ev_ctrl e) (ev_screen_x e)
    (ev_screen_y e) style (ev_forwarded e).

(** What the screen asks of the application and of the widgets while it
    routes an event, in the order it asks. *)
Inductive RoutingEffect : Type :=
| SetMouseOver (widget : option nat)
| SetFocus (widget : option nat)
| ForwardEvent (widget : nat) (event : Event)
| PostMessage (event : Event)
| Log (event : Event).

Section Routing.
(** [widget.can_focus]. *)
Variable can_focus : Widget -> bool.
(** [MouseEvent.offset] of [textual.events]. *)
Variable event_offset : Event -> Z -> Z -> Event.

(** The widget that a mouse event is for and its region: the widget
    that captured the mouse, if any, else the widget under the point. *)
Definition locate (s : Screen) (mouse_captured : option Widget) (x y : Z)
    : result (Widget * Region) :=
  match mouse_captured with
  | Some widget =>
      region ← get_widget_region (scr_compositor s) widget;
      Ok (widget, region)
  | None => get_widget_at (scr_compositor s) x y
  end.

(** [Screen._on_mouse_move]; the compositor is not touched by other
    tasks while the handler waits for the application. *)
Definition _on_mouse_move (s : Screen) (mouse_captured : option Widget)
    (event : Event) : list RoutingEffect * result unit :=
  match locate s mouse_captured (ev_x event) (ev_y event) with
  | Raise NoWidget => ([SetMouseOver None], Ok tt)
  | Raise e => ([], Raise e)
  | Ok (widget, region) =>
      let mouse_event :=
        mkEvent MouseMove (ev_x event - reg_x region) (ev_y event - reg_y region)
          (ev_delta_x event) (ev_delta_y event) (ev_button event)
          (ev_shift event) (ev_meta event) (ev_ctrl event)
          (ev_screen_x event) (ev_screen_y event) (ev_style event) false in
      let mouse_event := set_forwarded mouse_event in
      ([SetMouseOver (Some (w_id widget)); ForwardEvent (w_id widget) mouse_event],
       Ok tt)
  end.

(** [Screen.forward_event]: the event as the call leaves it, what the
    screen asks for, and whether the call returns or raises. *)
Definition forward_event (s : Screen) (mouse_captured : option Widget)
    (event : Event) : Event * list RoutingEffect * result unit :=
  if ev_forwarded event then (event, [], Ok tt)
  else
    let event := set_forwarded event in
    match ev_class event with
    | EnterLeave => (event, [PostMessage event], Ok tt)
    | MouseMove =>
        match get_style_at (scr_compositor s) (ev_screen_x event)
                (ev_screen_y event) with
        | Raise e => (event, [], Raise e)
        | Ok style =>
            let event := set_style event style in
            let '(effects, r) := _on_mouse_move s mouse_captured event in
            (event, effects, r)
        end
    | MouseDown | MouseEvent =>
        match locate s mouse_captured (ev_x event) (ev_y event) with
        | Raise NoWidget => (event, [SetFocus None], Ok tt)
        | Raise e => (event, [], Raise e)
        | Ok (widget, region) =>
            let focus :=
              match ev_class event with
              | MouseDown =>
                  if can_focus widget then [SetFocus (Some (w_id widget))]
                  else []
              | _ => []
              end in
            match get_style_at (scr_compositor s) (ev_screen_x event)
                    (ev_screen_y event) with
            | Raise e => (event, focus, Raise e)
            | Ok style =>
                let event := set_style event style in
                (event,
                 focus
                 ++ [ForwardEvent (w_id widget)
                       (event_offset event (- reg_x region) (- reg_y region))],
                 Ok tt)
            end
        end
    | MouseScroll =>
        match get_widget_at (scr_compositor s) (ev_x event) (ev_y event) with
        | Raise NoWidget => (event, [], Ok tt)
        | Raise e => (event, [], Raise e)
        | Ok (widget, _region) => (event, [ForwardEvent (w_id widget) event], Ok tt)
        end
    | OtherEvent => (event, [Log event; PostMessage event], Ok tt)
    end.

End Routing.

(* ===================================================================== *)
(** ** The view ([src/textual/viewX.py]) *)
(* ===================================================================== *)

(** Equality of offsets ([==] on the named tuple). *)
Definition offset_eqb (a b : Offset) : bool :=
  (off_x a =? off_x b) && (off_y a =? off_y b).

Section View.
(** [Size()] and [Offset()] of [textual.geometry]. *)
Variable default_size : Size.
Variable default_offset : Offset.
(** [WidgetPlacement.apply_margin] of [textual.layout]. *)
Variable apply_margin : WidgetPlacement Widget -> WidgetPlacement Widget.

(** [View._cached_arrangement]. *)
Definition CachedArrangement : Type :=
  (Size * Offset * list (WidgetPlacement Widget))%type.

(** The cache that [View.__init__] sets and [View.refresh_layout]
    restores first of all. *)
Definition empty_arrangement : CachedArrangement :=
  (default_size, default_offset, []).

(** [View.get_arrangement]: the cache it leaves and what it returns;
    [arrange] is [self.layout.arrange(self, size, scroll)]. *)
Definition get_arrangement
    (arrange : Size -> Offset -> result (list (WidgetPlacement Widget)))
    (cache : CachedArrangement) (size : Size) (scroll : Offset)
    : CachedArrangement * result (list (WidgetPlacement Widget)) :=
  let '(cached_size, cached_scroll, arrangement) := cache in
  if size_eqb cached_size size && offset_eqb cached_scroll scroll then
    (cache, Ok arrangement)
  else
    match arrange size scroll with
    | Raise e => (cache, Raise e)
    | Ok arranged =>
        let placements := List.map apply_margin arranged in
        ((size, scroll, placements), Ok placements)
    end.

End View.

(** No line of a widget of the map holds a new line character. *)
Definition map_no_new_line (c : Compositor) : Prop :=
  forall w rr, In (w, rr) (c_map c) -> no_new_line (w_get_lines w).

(** The effect is a size told to a widget. *)
Definition is_update_size (effect : ScreenEffect) : bool :=
  match effect with UpdateSize _ _ => true | _ => false end.

(** A [Size.__bool__] for the examples: a size of no area is false. *)
Definition has_area (size : Size) : bool :=
  negb (width size * height size =? 0).


(** The style reported for a cell: its own style when it has one that
    is not null ([segment.style or Style.null()]), the null style
    otherwise and where there is no cell. *)
Definition cell_style (o : option Cell) : Style :=
  match o with
  | Some (_, Some (Style_of n)) => Style_of n
  | _ => Style_null
  end.

(** Every cut of a row is a key of the row of chops beside it. *)
Definition keys_ok (cuts : list (list Z)) (chops : list Chops) : Prop :=
  Forall2 (fun cs (d : Chops) => forall k, In k cs -> chop_get d k <> None)
    cuts chops.

(** The exceptions that the indexing and the unpacking of [render] can
    raise. *)
Definition render_error (e : exn) : Prop := e = IndexError \/ e = ValueError.

(** The operations on a compositor that its callers invoke. *)
Inductive Operation : Type :=
| OpReflow (recursion_limit : nat) (parent : Widget) (size : Size)
| OpRequireUpdate
| OpResetUpdate
| OpCuts
| OpRender (crop : option Region)
| OpUpdateWidget (widget : Widget).

(** The compositor that an operation leaves. *)
Definition run (c : Compositor) (op : Operation) : Compositor :=
  match op with
  | OpReflow recursion_limit parent size => fst (reflow recursion_limit c parent size)
  | OpRequireUpdate => require_update c
  | OpResetUpdate => reset_update c
  | OpCuts => fst (cuts c)
  | OpRender crop => fst (render c crop)
  | OpUpdateWidget widget => fst (fst (update_widget c widget))
  end.

(** The compositor after a sequence of operations on a new one. *)
Definition run_all (ops : list Operation) : Compositor :=
  fold_left run ops init.

(* ===================================================================== *)
(** ** Concrete arrangements *)
(* ===================================================================== *)

Module Examples.

Definition seg (text style : string) : Segment :=
  mkSegment (list_ascii_of_string text) (Some (Style_of style)).

(** A widget without layout. *)
Definition leaf (id : nat) (size : Size) (z : list Z)
    (visible is_transparent : bool) (lines : Lines) : Widget :=
  MkWidget
    (mkAttrs id size z visible is_transparent (mkOffset 0 0) None lines)
    None.

(** A transparent container of the given size with fixed placements. *)
Definition container (id : nat) (size : Size) (z : list Z)
    (placements : list (WidgetPlacement Widget)) : Widget :=
  MkWidget
    (mkAttrs id size z true true (mkOffset 0 0) None [])
    (Some (fun _ _ => Ok (placements, ∅))).

(** A container whose layout raises. *)
Definition broken (id : nat) (size : Size) : Widget :=
  MkWidget
    (mkAttrs id size [] true true (mkOffset 0 0) None [])
    (Some (fun _ _ => Raise LayoutError)).

Definition place (x y w h : Z) (widget : Widget) (order : Z)
    : WidgetPlacement Widget :=
  mkPlacement (mkRegion x y w h) (Some widget) order.

(** Scenario (c) of the specification: [B] in front of [A]. *)
Definition wA : Widget :=
  leaf 1 (mkSize 4 1) [0] true false [[seg "AAAA" "a"]].
Definition wB : Widget :=
  leaf 2 (mkSize 2 1) [1] true false [[seg "BB" "b"]].
Definition occlusion_root : Widget :=
  container 0 (mkSize 4 1) [] [place 0 0 4 1 wA 0; place 1 0 2 1 wB 0].
Definition occlusion : Compositor :=
  fst (reflow 8 init occlusion_root (mkSize 4 1)).

(** A widget that still holds one line while its region is two rows
    high. *)
Definition short : Widget :=
  leaf 1 (mkSize 1 1) [0] true false [[seg "X" "x"]].
Definition short_root : Widget :=
  container 0 (mkSize 1 2) [] [place 0 0 1 2 short 0].
Definition short_lines : Compositor :=
  fst (reflow 8 init short_root (mkSize 1 2)).

(** Scenario (c) with [B] transparent, and with [B] not visible. *)
Definition wB_transparent : Widget :=
  leaf 2 (mkSize 2 1) [1] true true [[seg "BB" "b"]].
Definition wB_hidden : Widget :=
  leaf 2 (mkSize 2 1) [1] false false [[seg "BB" "b"]].
Definition transparent_front : Compositor :=
  fst (reflow 8 init
         (container 0 (mkSize 4 1) []
            [place 0 0 4 1 wA 0; place 1 0 2 1 wB_transparent 0])
         (mkSize 4 1)).
Definition hidden_front : Compositor :=
  fst (reflow 8 init
         (container 0 (mkSize 4 1) []
            [place 0 0 4 1 wA 0; place 1 0 2 1 wB_hidden 0])
         (mkSize 4 1)).

(** A tree of three levels whose widgets carry their own [z]. *)
Definition grandchild : Widget :=
  leaf 2 (mkSize 1 1) [7] true false [[seg "G" "g"]].
Definition child : Widget :=
  container 1 (mkSize 2 1) [1] [place 0 0 1 1 grandchild 2].
Definition nested_root : Widget :=
  container 0 (mkSize 2 1) [] [place 0 0 2 1 child 0].

(** A root ten cells wide, to be reflowed on a screen four cells wide. *)
Definition wide_root : Widget :=
  leaf 0 (mkSize 10 1) [] true false [[seg "0123456789" "r"]].

(** Three stacked widgets: [wBack] under [wMid] under [wTop]. *)
Definition wBack : Widget :=
  leaf 1 (mkSize 4 1) [0] true false [[seg "BBBB" "b"]].
Definition wMid : Widget :=
  leaf 2 (mkSize 2 1) [1] true false [[seg "AA" "a"]].
Definition wTop : Widget :=
  leaf 3 (mkSize 2 1) [2] true false [[seg "CC" "c"]].
Definition stacked : Compositor :=
  fst (reflow 8 init
         (container 0 (mkSize 4 1) []
            [place 0 0 4 1 wBack 0; place 1 0 2 1 wMid 0; place 1 0 2 1 wTop 0])
         (mkSize 4 1)).

(** Two widgets on the right half of a screen whose left half nothing
    covers. *)
Definition wRightFront : Widget :=
  leaf 1 (mkSize 2 1) [1] true false [[seg "AA" "a"]].
Definition wRightBack : Widget :=
  leaf 2 (mkSize 2 1) [0] true false [[seg "BB" "b"]].
Definition gap_left : Compositor :=
  fst (reflow 8 init
         (container 0 (mkSize 4 1) []
            [place 2 0 2 1 wRightFront 0; place 2 0 2 1 wRightBack 0])
         (mkSize 4 1)).

(** A screen with a transparent root and nothing else. *)
Definition empty_screen : Compositor :=
  fst (reflow 8 init (container 0 (mkSize 3 1) [] []) (mkSize 3 1)).

(** A container that paints its own lines behind its placements. *)
Definition panel (id : nat) (size : Size) (z : list Z)
    (placements : list (WidgetPlacement Widget)) (lines : Lines) : Widget :=
  MkWidget
    (mkAttrs id size z true false (mkOffset 0 0) None lines)
    (Some (fun _ _ => Ok (placements, ∅))).

(** A root that is not transparent, like a screen, under two widgets. *)
Definition solid_root : Widget :=
  panel 0 (mkSize 4 1) [] [place 0 0 4 1 wBack 0; place 1 0 2 1 wTop 0]
    [[seg "SSSS" "s"]].
Definition solid : Compositor :=
  fst (reflow 8 init solid_root (mkSize 4 1)).

(** A root two rows high, reflowed on a screen of one row. *)
Definition below_screen : Compositor :=
  fst (reflow 8 init
         (leaf 0 (mkSize 1 2) [] true false [[seg "X" "x"]; [seg "Y" "y"]])
         (mkSize 1 1)).

(** A root ten cells wide with a widget at columns 6 and 7, reflowed on
    a screen four cells wide. *)
Definition beside_screen : Compositor :=
  fst (reflow 8 init
         (container 0 (mkSize 10 1) []
            [place 6 0 2 1 (leaf 1 (mkSize 2 1) [0] true false [[seg "ZZ" "z"]]) 0])
         (mkSize 4 1)).

(** A widget four cells wide. *)
Definition wWide : Widget :=
  leaf 5 (mkSize 4 1) [0] true false [[seg "WXYZ" "w"]].

End Examples.

(* ===================================================================== *)
(** ** Properties *)
(* ===================================================================== *)

Import Examples.

(** *** Dictionaries *)

Lemma keys_elem {V : Type} (m : list (Widget * V)) (i : nat) :
  i ∈ Dict.keys m <-> exists w v, In (w, v) m /\ w_id w = i.
Proof.
  unfold Dict.keys. rewrite elem_of_list_to_set, list_elem_of_In, in_map_iff.
  split.
  - intros [[w v] [Hid Hin]]. exists w, v. auto.
  - intros (w & v & Hin & Hid). exists (w, v). auto.
Qed.

(** *** Reflow and its diff *)

Section ReflowFacts.
Variable recursion_limit : nat.

Lemma reflow_ok_inv c parent size c' r :
  reflow recursion_limit c parent size = (c', Ok r) ->
  exists map widgets,
    _arrange_root recursion_limit parent = Ok (map, widgets) /\
    c_map c' = map /\ c_widgets c' = widgets /\
    c_regions c' =
      List.map (fun '(widget, rr) => (widget, (rr_region rr, rr_clip rr))) map /\
    c_cuts c' = None /\ c_size c' = size /\ c_require_update c' = false /\
    shown r = Dict.keys map ∖ Dict.keys (c_map c) /\
    hidden r = Dict.keys (c_map c) ∖ Dict.keys map /\
    resized r =
      list_to_set
        (List.map (fun kv => w_id (fst kv))
           (List.filter
              (fun '(widget, rr) =>
                 bool_decide (w_id widget ∈ Dict.keys (c_map c)) &&
                 negb (size_eqb (w_size widget) (region_size (rr_region rr))))
              map)).
Proof.
  unfold reflow. destruct (_arrange_root recursion_limit parent) as [[map widgets]|e];
    simpl; intros H; inversion H; subst; clear H.
  exists map, widgets. simpl. repeat split; reflexivity.
Qed.

Lemma size_eqb_eq a b : size_eqb a b = true <-> a = b.
Proof.
  destruct a, b. unfold size_eqb. simpl.
  rewrite andb_true_iff, !Z.eqb_eq. split.
  - intros [-> ->]. reflexivity.
  - intros H. inversion H. auto.
Qed.

(** C4: [reflow] reports the widgets shown, hidden and resized as the
    differences of the old and new map keys and the widgets of both whose
    reported size is not the size of their new region; the shown and
    hidden sets are disjoint and lie within the new and the old keys. *)
Theorem reflow_diff c parent size c' r :
  reflow recursion_limit c parent size = (c', Ok r) ->
  shown r = Dict.keys (c_map c') ∖ Dict.keys (c_map c) /\
  hidden r = Dict.keys (c_map c) ∖ Dict.keys (c_map c') /\
  (forall i : nat,
      i ∈ resized r <->
      i ∈ Dict.keys (c_map c) /\
      exists w rr, In (w, rr) (c_map c') /\ w_id w = i /\
                   w_size w <> region_size (rr_region rr)) /\
  shown r ∩ hidden r = ∅ /\
  shown r ⊆ Dict.keys (c_map c') /\
  hidden r ⊆ Dict.keys (c_map c).
Proof.
  intros H. apply reflow_ok_inv in H.
  destruct H as (map & widgets & _ & Hmap & _ & _ & _ & _ & _ & Hs & Hh & Hr).
  subst map. rewrite Hs, Hh.
  split; [reflexivity|]. split; [reflexivity|].
  split; [|repeat split; [apply leibniz_equiv; intros i; rewrite elem_of_intersection, !elem_of_difference; split; [tauto|intros []%not_elem_of_empty] | intros i; rewrite elem_of_difference; tauto | intros i; rewrite elem_of_difference; tauto]].
  intros i. rewrite Hr, elem_of_list_to_set, list_elem_of_In, in_map_iff.
  split.
  - intros [[w rr] [Hid Hin]]. simpl in Hid. subst i.
    apply filter_In in Hin. destruct Hin as [Hin Hb].
    apply andb_true_iff in Hb. destruct Hb as [Hold Hsz].
    apply bool_decide_eq_true in Hold. split; [exact Hold|].
    exists w, rr. repeat split; auto.
    intros Heq. apply size_eqb_eq in Heq. rewrite Heq in Hsz. discriminate.
  - intros [Hold (w & rr & Hin & Hid & Hne)]. subst i.
    exists (w, rr). split; [reflexivity|].
    apply filter_In. split; [exact Hin|].
    apply andb_true_iff. split.
    + apply bool_decide_eq_true. exact Hold.
    + destruct (size_eqb (w_size w) (region_size (rr_region rr))) eqn:E; auto.
      apply size_eqb_eq in E. contradiction.
Qed.

(** C8: when the arrangement raises, [reflow] raises the same exception
    and leaves [map], [regions] and [widgets] as they were. *)
Theorem reflow_raise_keeps_arrangement c parent size e :
  _arrange_root recursion_limit parent = Raise e ->
  snd (reflow recursion_limit c parent size) = Raise e /\
  c_map (fst (reflow recursion_limit c parent size)) = c_map c /\
  c_regions (fst (reflow recursion_limit c parent size)) = c_regions c /\
  c_widgets (fst (reflow recursion_limit c parent size)) = c_widgets c.
Proof.
  intros H. unfold reflow. rewrite H. simpl. auto.
Qed.

End ReflowFacts.

Lemma reflow_diff_witness :
  exists c' r,
    reflow 8 init Examples.occlusion_root (mkSize 4 1) = (c', Ok r) /\
    shown r = Dict.keys (c_map c') ∖ Dict.keys (c_map init).
Proof.
  eexists _, _. split; [vm_compute; reflexivity|].
  eapply (reflow_diff 8 init Examples.occlusion_root (mkSize 4 1)).
  vm_compute. reflexivity.
Defined.

Lemma reflow_raise_keeps_arrangement_witness :
  _arrange_root 8 (Examples.broken 0 (mkSize 4 1)) = Raise LayoutError /\
  c_map (fst (reflow 8 Examples.occlusion (Examples.broken 0 (mkSize 4 1))
                (mkSize 4 1)))
  = c_map Examples.occlusion.
Proof.
  split; [reflexivity|].
  apply (reflow_raise_keeps_arrangement 8 Examples.occlusion
           (Examples.broken 0 (mkSize 4 1)) (mkSize 4 1) LayoutError).
  reflexivity.
Defined.

(** *** Invalidation *)

Lemma render_keeps_map c crop : c_map (fst (render c crop)) = c_map c.
Proof.
  unfold render, cuts. destruct (c_cuts c); reflexivity.
Qed.

(** C9: [require_update] sets the flag, drops the cached cuts and empties
    [map] and [widgets]; from then on no coordinate hits a widget, and the
    next reflow hides nothing and shows every widget it arranges. *)
Theorem require_update_empties_map c :
  c_require_update (require_update c) = true /\
  c_cuts (require_update c) = None /\
  c_map (require_update c) = [] /\
  c_widgets (require_update c) = ∅ /\
  (forall x y, get_widget_at (require_update c) x y = Raise NoWidget) /\
  (forall crop, c_map (fst (render (require_update c) crop)) = []) /\
  (forall recursion_limit parent size c' r,
      reflow recursion_limit (require_update c) parent size = (c', Ok r) ->
      hidden r = ∅ /\ shown r = Dict.keys (c_map c')).
Proof.
  split; [reflexivity|]. split; [reflexivity|]. split; [reflexivity|].
  split; [reflexivity|]. split; [reflexivity|]. split.
  - intros crop. rewrite render_keeps_map. reflexivity.
  - intros recursion_limit parent size c' r H.
    apply reflow_ok_inv in H.
    destruct H as (map & widgets & _ & Hmap & _ & _ & _ & _ & _ & Hs & Hh & _).
    rewrite Hs, Hh, Hmap.
    change (Dict.keys (c_map (require_update c))) with (∅ : gset nat). split.
    + apply leibniz_equiv, empty_difference.
    + apply leibniz_equiv. rewrite difference_empty. done.
Qed.

(** *** Arrangement *)

Lemma sorted_In {A K : Type} (key : A -> K) (ltb : K -> K -> bool) (l : list A) x :
  In x (Py.sorted key ltb l) <-> In x l.
Proof.
  assert (Hins : forall a l', In x (Py.insert_asc key ltb a l') <-> x = a \/ In x l').
  { intros a l'. induction l' as [|b l' IH]; simpl.
    - intuition.
    - destruct (ltb (key b) (key a)); simpl; rewrite ?IH; intuition. }
  induction l as [|a l IH]; simpl; [tauto|].
  unfold Py.sorted in *. rewrite Hins, IH. intuition.
Qed.

Lemma dict_set_Forall {V : Type} (Q : Widget * V -> Prop) m w v :
  Forall Q m -> Q (w, v) -> Forall Q (Dict.set m w v).
Proof.
  intros Hm Hq. induction Hm as [|[k v'] m Hk Hm IH]; simpl.
  - constructor; auto.
  - destruct (Nat.eqb (w_id k) (w_id w)); constructor; auto.
Qed.

Definition entry_arranged (root : Widget) (kv : Widget * RenderRegion) : Prop :=
  arranged root (fst kv) (rr_order (snd kv)).

Lemma add_widget_arranged root depth :
  forall widget region order clip st st',
    arranged root widget order ->
    Forall (entry_arranged root) (fst st) ->
    add_widget depth widget region order clip st = Ok st' ->
    Forall (entry_arranged root) (fst st').
Proof.
  induction depth as [|depth IH]; intros widget region order clip [map widgets] st' Harr Hst H.
  - discriminate.
  - simpl in H.
    destruct (w_layout widget) as [arrange|] eqn:Hlay.
    + destruct (arrange (region_size region) (w_scroll widget))
        as [[placements arranged_widgets]|e] eqn:Harrange; [|discriminate].
      cbn in H.
      match type of H with
      | context [?loop (Py.sorted wp_order Z.ltb placements) ?x1 ?x2] =>
          set (F := loop) in H;
          assert (Hloop : forall ps tr s out,
                     (forall p, In p ps -> In p placements) ->
                     Forall (entry_arranged root) (fst s) ->
                     F ps tr s = Ok out ->
                     Forall (entry_arranged root) (fst (snd out)))
      end.
      { induction ps as [|p ps IHps]; intros tr s out Hin Hs Hout.
        - simpl in Hout. inversion Hout. subst. exact Hs.
        - simpl in Hout.
          destruct (wp_widget p) as [sub_widget|] eqn:Hw.
          + match type of Hout with
            | context [add_widget depth ?a ?b ?c ?d ?e] =>
                destruct (add_widget depth a b c d e) as [s'|e'] eqn:Hcall
            end; [|discriminate].
            cbn in Hout.
            eapply IHps; [| |exact Hout].
            * intros q Hq. apply Hin. right. exact Hq.
            * eapply IH; [|exact Hs|exact Hcall].
              eapply arranged_child; eauto. apply Hin. left. reflexivity.
          + eapply IHps; [| |exact Hout]; auto.
            intros q Hq. apply Hin. right. exact Hq. }
      match type of H with
      | context [F ?x0 ?x1 ?x2] => destruct (F x0 x1 x2) as [[tr' [map' widgets']]|e] eqn:HF
      end; [|discriminate].
      cbn in H. inversion H. subst st'. simpl.
      apply dict_set_Forall.
      * apply Hloop in HF; auto.
        intros p Hp. apply sorted_In in Hp. exact Hp.
      * exact Harr.
    + inversion H. subst st'. simpl.
      apply dict_set_Forall; auto.
Qed.

(** C2 (as amended): every entry of the map that an arrangement returns
    is recorded with the order its call of [add_widget] was given: the
    empty tuple for the root, and for a widget placed by a layout the
    widget's own [z] followed by the order of the placement. *)
Theorem arrange_order_from_widget_z recursion_limit root map widgets :
  _arrange_root recursion_limit root = Ok (map, widgets) ->
  forall w rr,
    In (w, rr) map ->
    arranged root w (rr_order rr) /\
    (rr_order rr = [] \/ exists z, rr_order rr = w_z w ++ [z]).
Proof.
  intros H w rr Hin.
  assert (Harr : arranged root w (rr_order rr)).
  { unfold _arrange_root in H.
    eapply add_widget_arranged in H; [| constructor | constructor].
    simpl in H. rewrite List.Forall_forall in H. apply (H (w, rr)). exact Hin. }
  split; [exact Harr|].
  inversion Harr; subst.
  - left. congruence.
  - right. eexists. eauto.
Qed.

Lemma arrange_order_from_widget_z_witness :
  arranged nested_root grandchild [7; 2].
Proof.
  apply (arrange_order_from_widget_z 8 nested_root
           (fst (match _arrange_root 8 nested_root with Ok st => st | Raise _ => ([], ∅) end))
           (snd (match _arrange_root 8 nested_root with Ok st => st | Raise _ => ([], ∅) end))
           eq_refl grandchild
           (mkRenderRegion (mkRegion 0 0 1 1) [7; 2] (mkRegion 0 0 2 1) (mkSize 1 1))).
  simpl. left. reflexivity.
Defined.

(** C2 (as stated) fails: the child is recorded with its own [z] followed
    by the placement's order, not with the parent's order extended; here
    the grandchild's order [(7, 2)] does not extend its parent's [(1, 0)]. *)
Lemma child_order_not_parent_extended :
  exists map widgets parent_rr child_rr,
    _arrange_root 8 nested_root = Ok (map, widgets) /\
    Dict.get map child = Some parent_rr /\
    Dict.get map grandchild = Some child_rr /\
    rr_order parent_rr = [1; 0] /\
    rr_order child_rr = [7; 2] /\
    rr_order child_rr <> rr_order parent_rr ++ [2].
Proof.
  eexists _, _, _, _.
  split; [reflexivity|]. split; [reflexivity|]. split; [reflexivity|].
  split; [reflexivity|]. split; [reflexivity|]. discriminate.
Qed.

(** *** Hit testing *)

Lemma sorted_reverse_map {A B K : Type} (key : A -> K) (key' : B -> K)
    (ltb : K -> K -> bool) (g : A -> B) (l : list A) :
  (forall a, key' (g a) = key a) ->
  Py.sorted_reverse key' ltb (List.map g l)
  = List.map g (Py.sorted_reverse key ltb l).
Proof.
  intros Hkey.
  assert (Hins : forall a l',
             Py.insert_desc key' ltb (g a) (List.map g l')
             = List.map g (Py.insert_desc key ltb a l')).
  { intros a l'. induction l' as [|b l' IH]; simpl; [reflexivity|].
    rewrite !Hkey. destruct (ltb (key a) (key b)); simpl; [rewrite IH|]; reflexivity. }
  induction l as [|a l IH]; simpl; [reflexivity|].
  unfold Py.sorted_reverse in *. rewrite IH. apply Hins.
Qed.

Lemma iter_rekey f c :
  iter (rekey f c)
  = List.map (fun '(w, cropped, region, vs) => (f w, cropped, region, vs)) (iter c).
Proof.
  unfold iter, rekey. simpl.
  rewrite (sorted_reverse_map
             (fun item : Widget * RenderRegion => rr_order (snd item))
             (fun item : Widget * RenderRegion => rr_order (snd item))
             Py.tuple_ltb (fun kv => (f (fst kv), snd kv))) by reflexivity.
  rewrite !List.map_map. apply map_ext. intros [w rr]. reflexivity.
Qed.

Lemma first_containing_inv layers x y w region :
  first_containing layers x y = Ok (w, region) ->
  exists before cropped vs after,
    layers = before ++ (w, cropped, region, vs) :: after /\
    contains cropped x y = true /\
    Forall (fun t => contains (snd (fst (fst t))) x y = false) before.
Proof.
  induction layers as [|[[[w' cropped'] region'] vs'] layers IH]; simpl; [discriminate|].
  destruct (contains cropped' x y) eqn:Hc.
  - intros H. inversion H. subst.
    exists [], cropped', vs', layers. repeat split; auto.
  - intros H. destruct (IH H) as (before & cropped & vs & after & -> & Hin & Hb).
    exists ((w', cropped', region', vs') :: before), cropped, vs, after.
    repeat split; auto.
Qed.

(** C10: hit testing reads no attribute of the widgets: replacing every
    widget of the map by another one (with other flags, say) gives the
    hit at the same place of the map; the widget hit is the first, front
    to back, whose cropped region holds the point; and there are
    arrangements where it is a transparent or an invisible widget while
    the renderer shows the widget behind it. *)
Theorem hit_test_ignores_flags :
  (forall f c x y,
      get_widget_at (rekey f c) x y
      = fmap (M := result) (fun hit : Widget * Region => (f (fst hit), snd hit))
          (get_widget_at c x y)) /\
  (forall c x y w region,
      get_widget_at c x y = Ok (w, region) ->
      exists before cropped vs after,
        iter c = before ++ (w, cropped, region, vs) :: after /\
        contains cropped x y = true /\
        Forall (fun t => contains (snd (fst (fst t))) x y = false) before) /\
  (get_widget_at transparent_front 1 0 = Ok (wB_transparent, mkRegion 1 0 2 1) /\
   w_is_transparent wB_transparent = true /\
   fmap (M := result) (List.map Seg.line_cells) (snd (render transparent_front None))
   = Ok [Seg.line_cells [Examples.seg "AAAA" "a"]]) /\
  (get_widget_at hidden_front 1 0 = Ok (wB_hidden, mkRegion 1 0 2 1) /\
   w_visible wB_hidden = false /\
   fmap (M := result) (List.map Seg.line_cells) (snd (render hidden_front None))
   = Ok [Seg.line_cells [Examples.seg "AAAA" "a"]]).
Proof.
  split; [|split; [|split]].
  - intros f c x y. unfold get_widget_at. rewrite iter_rekey.
    induction (iter c) as [|[[[w cropped] region] vs] layers IH]; simpl; [reflexivity|].
    destruct (contains cropped x y); [reflexivity|exact IH].
  - intros c x y w region H. apply first_containing_inv. exact H.
  - repeat split; reflexivity.
  - repeat split; reflexivity.
Qed.

(** The only exception [get_style_at] raises is the [IndexError] of
    [lines[y]], for a row that is not below the guard [y > len(lines)]. *)
Lemma get_style_at_raises c x y e :
  get_style_at c x y = Raise e ->
  exists w region,
    get_widget_at c x y = Ok (w, region) /\
    e = IndexError /\
    (y - reg_y region = Z.of_nat (length (w_get_lines w)) \/
     y - reg_y region < - Z.of_nat (length (w_get_lines w))).
Proof.
  unfold get_style_at, get_widget_at.
  assert (Hnw : forall layers e', first_containing layers x y = Raise e' -> e' = NoWidget).
  { induction layers as [|[[[w' cr] r] vs] layers IH]; simpl; intros e' H.
    - congruence.
    - destruct (contains cr x y); [discriminate|]. eauto. }
  destruct (first_containing (iter c) x y) as [[w region]|e'] eqn:Hhit.
  - destruct (negb (Dict.mem (c_regions c) w)); [discriminate|].
    destruct (Z.of_nat (length (w_get_lines w)) <? y - reg_y region) eqn:Hguard;
      [discriminate|].
    apply Z.ltb_ge in Hguard.
    unfold Py.index.
    set (n := Z.of_nat (length (w_get_lines w))) in *.
    set (yl := y - reg_y region) in *.
    destruct (yl <? 0) eqn:Hneg.
    + apply Z.ltb_lt in Hneg.
      destruct ((yl + n <? 0) || (n <=? yl + n)) eqn:Hb.
      * cbn. intros H. inversion H. subst.
        exists w, region. repeat split; auto.
        apply orb_true_iff in Hb. destruct Hb as [Hb|Hb].
        -- apply Z.ltb_lt in Hb. right. lia.
        -- apply Z.leb_le in Hb. lia.
      * apply orb_false_iff in Hb. destruct Hb as [Hb1 Hb2].
        apply Z.ltb_ge in Hb1. apply Z.leb_gt in Hb2.
        destruct (nth_error (w_get_lines w) (Z.to_nat (yl + n))) eqn:Hn.
        -- cbn. discriminate.
        -- apply nth_error_None in Hn. unfold n in *. lia.
    + apply Z.ltb_ge in Hneg.
      destruct ((yl <? 0) || (n <=? yl)) eqn:Hb.
      * cbn. intros H. inversion H. subst.
        exists w, region. repeat split; auto.
        apply orb_true_iff in Hb. destruct Hb as [Hb|Hb].
        -- apply Z.ltb_lt in Hb. lia.
        -- apply Z.leb_le in Hb. left. lia.
      * apply orb_false_iff in Hb. destruct Hb as [Hb1 Hb2].
        apply Z.leb_gt in Hb2.
        destruct (nth_error (w_get_lines w) (Z.to_nat yl)) eqn:Hn.
        -- cbn. discriminate.
        -- apply nth_error_None in Hn. unfold n in *. lia.
  - apply Hnw in Hhit. subst e'. discriminate.
Qed.

(** C7: on a widget that holds one line while its region is two rows
    high, the style of the second row is not the null style: the guard
    [y > len(lines)] lets [y = len(lines)] through and [lines[y]] raises
    [IndexError]. *)
Theorem get_style_at_index_error :
  get_widget_at short_lines 0 1 = Ok (short, mkRegion 0 0 1 2) /\
  length (w_get_lines short) = 1%nat /\
  get_style_at short_lines 0 1 = Raise IndexError.
Proof. repeat split; reflexivity. Qed.

(** *** Cuts *)

Lemma insert_uniq_In x l v : In v (Py.insert_uniq x l) <-> v = x \/ In v l.
Proof.
  induction l as [|y l IH]; simpl.
  - intuition.
  - destruct (Z.ltb_spec x y); [simpl; intuition|].
    destruct (Z.eqb_spec x y); simpl; [subst; intuition|].
    rewrite IH. intuition.
Qed.

Lemma insert_uniq_sorted x l :
  StronglySorted Z.lt l -> StronglySorted Z.lt (Py.insert_uniq x l).
Proof.
  induction 1 as [|y l Hs IH Hy]; simpl.
  - repeat constructor.
  - destruct (Z.ltb_spec x y).
    + constructor; [constructor; auto|].
      constructor; [assumption|].
      eapply List.Forall_impl; [|exact Hy]. simpl. intros. lia.
    + destruct (Z.eqb_spec x y); [constructor; auto|].
      constructor; [exact IH|].
      rewrite List.Forall_forall in *. intros v Hv.
      apply insert_uniq_In in Hv. destruct Hv as [->|Hv]; [lia|auto].
Qed.

Lemma sorted_set_In l v : In v (Py.sorted_set l) <-> In v l.
Proof.
  induction l as [|x l IH]; simpl; [tauto|].
  unfold Py.sorted_set in *. simpl. rewrite insert_uniq_In, IH. intuition.
Qed.

Lemma sorted_set_sorted l : StronglySorted Z.lt (Py.sorted_set l).
Proof.
  induction l as [|x l IH]; simpl; [constructor|].
  apply insert_uniq_sorted. exact IH.
Qed.

Lemma sorted_hd l m :
  StronglySorted Z.lt l -> In m l -> (forall v, In v l -> m <= v) ->
  hd_error l = Some m.
Proof.
  intros Hs Hin Hmin. destruct l as [|a l]; [contradiction|].
  simpl. f_equal. inversion Hs as [|? ? _ Ha]; subst.
  destruct Hin as [->|Hin]; [reflexivity|].
  rewrite List.Forall_forall in Ha. specialize (Ha m Hin).
  specialize (Hmin a (or_introl eq_refl)). lia.
Qed.

Lemma sorted_last l m d :
  StronglySorted Z.lt l -> In m l -> (forall v, In v l -> v <= m) ->
  List.last l d = m.
Proof.
  induction 1 as [|a l Hs IH Ha]; intros Hin Hmax; [contradiction|].
  destruct l as [|b l].
  - simpl. destruct Hin as [->|[]]. reflexivity.
  - change (List.last (a :: b :: l) d) with (List.last (b :: l) d).
    apply IH.
    + destruct Hin as [<-|Hin]; [|exact Hin].
      inversion Ha as [|? ? Hab _]; subst.
      specialize (Hmax b (or_intror (or_introl eq_refl))). lia.
    + intros v Hv. apply Hmax. right. exact Hv.
Qed.

Lemma range_length a b : length (Py.range a b) = Z.to_nat (b - a).
Proof. unfold Py.range. rewrite length_map, length_seq. reflexivity. Qed.

Lemma range_cons a b : a < b -> Py.range a b = a :: Py.range (a + 1) b.
Proof.
  intros H. unfold Py.range.
  replace (Z.to_nat (b - a)) with (S (Z.to_nat (b - (a + 1)))) by lia.
  simpl. f_equal; [lia|].
  rewrite <- seq_shift, List.map_map. apply map_ext. intros k. lia.
Qed.

Lemma range_nil a b : b <= a -> Py.range a b = [].
Proof.
  intros H. unfold Py.range. replace (Z.to_nat (b - a)) with O by lia. reflexivity.
Qed.

Lemma range_In a b y : In y (Py.range a b) <-> a <= y < b.
Proof.
  unfold Py.range. rewrite in_map_iff. split.
  - intros [k [<- Hk]]. apply in_seq in Hk. lia.
  - intros H. exists (Z.to_nat (y - a)). split; [lia|]. apply in_seq. lia.
Qed.

Lemma range_nth a b y :
  a <= y < b -> nth_error (Py.range a b) (Z.to_nat (y - a)) = Some y.
Proof.
  intros H. unfold Py.range.
  rewrite nth_error_map, nth_error_seq.
  destruct (Nat.ltb_spec (Z.to_nat (y - a)) (Z.to_nat (b - a))); [|lia].
  simpl. f_equal. lia.
Qed.

Lemma extend_from_range (base : Z -> list Z) a b rc : forall n i,
  extend_from i (List.map base (Py.range i (i + Z.of_nat n))) a b rc
  = List.map (fun y => if (a <=? y) && (y <? b) then base y ++ rc else base y)
      (Py.range i (i + Z.of_nat n)).
Proof.
  induction n as [|n IH]; intros i.
  - rewrite range_nil by lia. reflexivity.
  - rewrite range_cons by lia. simpl.
    replace (i + Z.of_nat (S n)) with ((i + 1) + Z.of_nat n) by lia.
    rewrite IH. reflexivity.
Qed.

Lemma contains_region_bounds screen region :
  contains_region screen region = true ->
  reg_x screen <= reg_x region /\
  reg_x region + reg_width region <= reg_x screen + reg_width screen /\
  reg_y screen <= reg_y region /\
  reg_y region + reg_height region <= reg_y screen + reg_height screen /\
  reg_x region <= reg_x screen + reg_width screen /\
  reg_x screen <= reg_x region + reg_width region /\
  reg_y region <= reg_y screen + reg_height screen /\
  reg_y screen <= reg_y region + reg_height region.
Proof.
  unfold contains_region, corners. rewrite !andb_true_iff, !Z.leb_le. lia.
Qed.

Lemma add_region_cuts_closed (size : Size) (base : Z -> list Z) rr :
  add_region_cuts (size_region size)
    (List.map base (Py.range 0 (height size))) rr
  = List.map (fun y => base y ++ region_row_cuts (size_region size) rr y)
      (Py.range 0 (height size)).
Proof.
  unfold add_region_cuts, region_row_cuts.
  generalize (intersection (rr_region rr) (rr_clip rr)). intros region.
  destruct (region_bool region && contains_region (size_region size) region) eqn:Hq.
  - apply andb_true_iff in Hq. destruct Hq as [Hne Hin].
    apply contains_region_bounds in Hin. simpl in Hin.
    unfold region_bool in Hne. apply andb_true_iff in Hne.
    rewrite !Z.ltb_lt in Hne.
    unfold extend_rows. rewrite length_map, range_length.
    assert (Hh : 0 <= height size) by lia.
    replace (Z.of_nat (Z.to_nat (height size - 0))) with (height size) by lia.
    unfold Py.clamp_bound.
    destruct (Z.ltb_spec (reg_y region) 0); [lia|].
    destruct (Z.ltb_spec (reg_y region + reg_height region) 0); [lia|].
    rewrite !Z.min_l by lia.
    pose proof (extend_from_range base (reg_y region)
                  (reg_y region + reg_height region)
                  [reg_x region; reg_x region + reg_width region]
                  (Z.to_nat (height size)) 0) as E.
    replace (0 + Z.of_nat (Z.to_nat (height size))) with (height size) in E by lia.
    rewrite E. apply map_ext. intros y. simpl.
    destruct ((reg_y region <=? y) && (y <? reg_y region + reg_height region));
      [reflexivity | rewrite app_nil_r; reflexivity].
  - simpl. rewrite <- (List.map_id (List.map base _)) at 1.
    rewrite List.map_map. apply map_ext. intros y.
    rewrite app_nil_r. reflexivity.
Qed.

Lemma compute_cuts_closed c :
  compute_cuts c = List.map (cuts_row c) (Py.range 0 (height (c_size c))).
Proof.
  unfold compute_cuts, cuts_row.
  assert (Hfold : forall entries (base : Z -> list Z),
             fold_left (fun cuts (kv : Widget * RenderRegion) =>
                          add_region_cuts (size_region (c_size c)) cuts (snd kv))
               entries (List.map base (Py.range 0 (height (c_size c))))
             = List.map
                 (fun y => base y ++
                           flat_map (fun kv : Widget * RenderRegion =>
                                       region_row_cuts (size_region (c_size c)) (snd kv) y) entries)
                 (Py.range 0 (height (c_size c)))).
  { induction entries as [|kv entries IH]; intros base; simpl.
    - rewrite <- (List.map_id (List.map base _)) at 1.
      rewrite List.map_map. apply map_ext. intros y. rewrite app_nil_r. reflexivity.
    - rewrite add_region_cuts_closed.
      rewrite IH. apply map_ext. intros y. rewrite <- app_assoc. reflexivity. }
  rewrite (Hfold (c_map c) (fun _ => [0; width (c_size c)])).
  rewrite List.map_map. reflexivity.
Qed.

Lemma cuts_row_In c y v :
  In v (cuts_row c y) <->
  v = 0 \/ v = width (c_size c) \/
  exists w rr, In (w, rr) (c_map c) /\
               In v (region_row_cuts (size_region (c_size c)) rr y).
Proof.
  unfold cuts_row. rewrite sorted_set_In. simpl. rewrite in_flat_map.
  split.
  - intros [H|[H|H]]; auto.
    destruct H as [[w rr] [Hin Hv]]. right. right. exists w, rr. auto.
  - intros [H|[H|H]]; auto.
    destruct H as (w & rr & Hin & Hv). right. right. exists (w, rr). auto.
Qed.

Lemma region_row_cuts_bounds size rr y v :
  In v (region_row_cuts (size_region size) rr y) -> 0 <= v <= width size.
Proof.
  unfold region_row_cuts.
  generalize (intersection (rr_region rr) (rr_clip rr)). intros region.
  destruct (region_bool region) eqn:Hne; simpl; [|tauto].
  destruct (contains_region (size_region size) region) eqn:Hin; simpl; [|tauto].
  apply contains_region_bounds in Hin. simpl in Hin.
  destruct ((reg_y region <=? y) && (y <? reg_y region + reg_height region));
    simpl; [|tauto].
  intros [<-|[<-|[]]]; lia.
Qed.

Lemma cuts_row_bounds c y v :
  0 <= width (c_size c) -> In v (cuts_row c y) -> 0 <= v <= width (c_size c).
Proof.
  intros Hw Hv. apply cuts_row_In in Hv.
  destruct Hv as [->|[->|(w & rr & _ & Hv)]]; [lia|lia|].
  eapply region_row_cuts_bounds. exact Hv.
Qed.

Lemma cuts_row_sorted c y : StronglySorted Z.lt (cuts_row c y).
Proof. apply sorted_set_sorted. Qed.

Lemma cuts_uncached c :
  c_cuts c = None -> snd (cuts c) = compute_cuts c.
Proof. unfold cuts. intros ->. reflexivity. Qed.

(** C3 (as amended): after a reflow the cuts have one row per screen row;
    each row is strictly increasing, begins with 0, ends with the screen
    width, and holds [x] and [x + w] of every clipped region that is not
    empty, lies within the screen and covers the row. *)
Theorem cuts_invariant recursion_limit c parent size c' r :
  reflow recursion_limit c parent size = (c', Ok r) ->
  0 <= width size ->
  length (snd (cuts c')) = Z.to_nat (height size) /\
  forall y, 0 <= y < height size ->
    exists row,
      nth_error (snd (cuts c')) (Z.to_nat y) = Some row /\
      StronglySorted Z.lt row /\
      hd_error row = Some 0 /\
      List.last row 0 = width size /\
      forall w rr,
        In (w, rr) (c_map c') ->
        let region := intersection (rr_region rr) (rr_clip rr) in
        region_bool region = true ->
        contains_region (size_region size) region = true ->
        reg_y region <= y < reg_y region + reg_height region ->
        In (reg_x region) row /\ In (reg_x region + reg_width region) row.
Proof.
  intros H Hw. apply reflow_ok_inv in H.
  destruct H as (map & widgets & _ & Hmap & _ & _ & Hcuts & Hsize & _).
  rewrite (cuts_uncached c' Hcuts), compute_cuts_closed, Hsize.
  split; [rewrite length_map, range_length; f_equal; lia|].
  intros y Hy. exists (cuts_row c' y). split.
  { rewrite nth_error_map.
    replace (Z.to_nat y) with (Z.to_nat (y - 0)) by lia.
    rewrite range_nth by lia. reflexivity. }
  split; [apply cuts_row_sorted|].
  split.
  { apply sorted_hd; [apply cuts_row_sorted| |].
    - apply cuts_row_In. auto.
    - intros v Hv. apply cuts_row_bounds in Hv; rewrite Hsize in *; lia. }
  split.
  { apply sorted_last; [apply cuts_row_sorted| |].
    - apply cuts_row_In. rewrite Hsize. auto.
    - intros v Hv. apply cuts_row_bounds in Hv; rewrite Hsize in *; lia. }
  intros w rr Hin region Hne Hscreen Hrow.
  assert (Hcuts_rr : region_row_cuts (size_region (c_size c')) rr y
                     = [reg_x region; reg_x region + reg_width region]).
  { unfold region_row_cuts. fold region. clearbody region.
    rewrite Hsize, Hne, Hscreen.
    destruct (Z.leb_spec (reg_y region) y); [|lia].
    destruct (Z.ltb_spec y (reg_y region + reg_height region)); [|lia].
    reflexivity. }
  split; apply cuts_row_In; right; right; exists w, rr;
    (split; [exact Hin|]); rewrite Hcuts_rr; simpl; auto.
Qed.

Lemma cuts_invariant_witness :
  0 <= width (mkSize 4 1) /\
  length (snd (cuts occlusion)) = Z.to_nat (height (mkSize 4 1)).
Proof.
  split; [simpl; lia|].
  apply (cuts_invariant 8 init occlusion_root (mkSize 4 1) occlusion
           (mkReflowResult ∅ (Dict.keys (c_map occlusion)) ∅)).
  - vm_compute. reflexivity.
  - simpl. lia.
Defined.

(** C3 (as stated) fails: a root wider than the screen is arranged with
    the clipped region [(0, 0, 10, 1)], which covers row 0, but the cuts
    of row 0 are [[0, 4]] and do not hold [x + w = 10]. *)
Lemma cuts_miss_region_outside_screen :
  exists c' r rr,
    reflow 8 init wide_root (mkSize 4 1) = (c', Ok r) /\
    In (wide_root, rr) (c_map c') /\
    intersection (rr_region rr) (rr_clip rr) = mkRegion 0 0 10 1 /\
    nth_error (snd (cuts c')) 0 = Some [0; 4] /\
    ~ In (0 + 10) [0; 4].
Proof.
  eexists _, _, _. split; [vm_compute; reflexivity|].
  split; [left; reflexivity|].
  split; [reflexivity|].
  split; [reflexivity|].
  simpl. intros [H|[H|[]]]; discriminate.
Qed.

(** *** Division of a line at cut columns *)

Lemma divide_loop_cons segment rest cut cuts pos split :
  Seg.divide_loop (segment :: rest) cut cuts pos split
  = if Seg.text_empty segment then Seg.divide_loop rest cut cuts pos split
    else
      let end_pos := pos + Seg.cell_length segment in
      if end_pos <? cut then
        Seg.divide_loop rest cut cuts end_pos (split ++ [segment])
      else if end_pos =? cut then
        (split ++ [segment]) ::
        match cuts with
        | [] => []
        | cut' :: cuts' => Seg.divide_loop rest cut' cuts' end_pos []
        end
      else
        (split ++ [fst (Seg.split_cells segment (cut - pos))]) ::
        match cuts with
        | [] => []
        | cut' :: cuts' =>
            Seg.divide_loop (snd (Seg.split_cells segment (cut - pos)) :: rest)
              cut' cuts' cut []
        end.
Proof. destruct cuts; reflexivity. Qed.

Lemma line_cells_cons segment rest :
  Seg.line_cells (segment :: rest) = Seg.cells segment ++ Seg.line_cells rest.
Proof. reflexivity. Qed.

Lemma line_cells_app l1 l2 :
  Seg.line_cells (l1 ++ l2) = Seg.line_cells l1 ++ Seg.line_cells l2.
Proof. unfold Seg.line_cells. apply flat_map_app. Qed.

Lemma cells_length segment :
  Z.of_nat (length (Seg.cells segment)) = Seg.cell_length segment.
Proof. unfold Seg.cells, Seg.cell_length. rewrite length_map. reflexivity. Qed.

Lemma line_length_cons segment rest :
  Seg.line_length (segment :: rest)
  = Seg.cell_length segment + Seg.line_length rest.
Proof.
  unfold Seg.line_length. rewrite line_cells_cons, length_app, <- cells_length. lia.
Qed.

Lemma text_empty_cells segment :
  Seg.text_empty segment = true -> Seg.cells segment = [].
Proof.
  unfold Seg.text_empty, Seg.cells. destruct (seg_text segment); [reflexivity|discriminate].
Qed.

Lemma split_cells_fst segment n :
  Seg.cells (fst (Seg.split_cells segment n))
  = firstn (Z.to_nat n) (Seg.cells segment).
Proof. unfold Seg.cells. simpl. rewrite firstn_map. reflexivity. Qed.

Lemma split_cells_snd segment n :
  Seg.cells (snd (Seg.split_cells segment n))
  = skipn (Z.to_nat n) (Seg.cells segment).
Proof. unfold Seg.cells. simpl. rewrite skipn_map. reflexivity. Qed.

Lemma split_cells_snd_length segment n :
  0 <= n <= Seg.cell_length segment ->
  Seg.cell_length (snd (Seg.split_cells segment n)) = Seg.cell_length segment - n.
Proof.
  intros H. unfold Seg.cell_length in *. simpl. rewrite length_skipn. lia.
Qed.

Lemma sorted_first_le_last cut cuts :
  StronglySorted Z.lt (cut :: cuts) -> cut <= List.last (cut :: cuts) 0.
Proof.
  revert cut. induction cuts as [|c cuts IH]; intros cut Hs; [simpl; lia|].
  inversion Hs as [|? ? Hs' Hall]; subst. inversion Hall; subst.
  specialize (IH c Hs').
  change (List.last (cut :: c :: cuts) 0) with (List.last (c :: cuts) 0). lia.
Qed.

Lemma cell_slice_app_r {A : Type} (l1 l2 : list A) a b :
  Z.of_nat (length l1) <= a ->
  cell_slice (l1 ++ l2) a b
  = cell_slice l2 (a - Z.of_nat (length l1)) (b - Z.of_nat (length l1)).
Proof.
  intros Ha. unfold cell_slice.
  rewrite skipn_app, skipn_all2 by lia. simpl.
  f_equal; [lia|]. f_equal. lia.
Qed.

Lemma cell_slice_skipn {A : Type} (l : list A) n a b :
  0 <= n -> 0 <= a ->
  cell_slice (skipn (Z.to_nat n) l) a b = cell_slice l (a + n) (b + n).
Proof.
  intros Hn Ha. unfold cell_slice. rewrite skipn_skipn.
  f_equal; [lia|]. f_equal. lia.
Qed.

Lemma runs_cons a b l : runs (a :: b :: l) = (a, b) :: runs (b :: l).
Proof. reflexivity. Qed.

Lemma firstn_app_ge {A : Type} (l1 l2 : list A) (n : Z) :
  Z.of_nat (length l1) <= n ->
  firstn (Z.to_nat n) (l1 ++ l2)
  = l1 ++ firstn (Z.to_nat (n - Z.of_nat (length l1))) l2.
Proof.
  intros H. rewrite firstn_app, firstn_all2 by lia. do 2 f_equal. lia.
Qed.

Lemma firstn_app_le {A : Type} (l1 l2 : list A) (n : Z) :
  n <= Z.of_nat (length l1) ->
  firstn (Z.to_nat n) (l1 ++ l2) = firstn (Z.to_nat n) l1.
Proof.
  intros H. rewrite firstn_app.
  replace (Z.to_nat n - length l1)%nat with O by lia.
  simpl. apply app_nil_r.
Qed.

Lemma runs_fst_ge cut cuts a b :
  StronglySorted Z.lt (cut :: cuts) -> In (a, b) (runs (cut :: cuts)) ->
  cut <= a /\ a < b.
Proof.
  revert cut. induction cuts as [|c cuts IH]; intros cut Hs Hin; [destruct Hin|].
  inversion Hs as [|? ? Hs' Hall]; subst. inversion Hall; subst.
  rewrite runs_cons in Hin. destruct Hin as [Heq|Hin].
  - inversion Heq; subst. lia.
  - apply IH in Hin; auto. lia.
Qed.

Lemma divide_loop_cells_aux : forall n segments cut cuts pos split,
  (length segments + length cuts <= n)%nat ->
  pos < cut ->
  StronglySorted Z.lt (cut :: cuts) ->
  List.last (cut :: cuts) 0 <= pos + Seg.line_length segments ->
  List.map Seg.line_cells (Seg.divide_loop segments cut cuts pos split)
  = (Seg.line_cells split
     ++ firstn (Z.to_nat (cut - pos)) (Seg.line_cells segments))
    :: List.map
         (fun r : Z * Z =>
            cell_slice (Seg.line_cells segments) (fst r - pos) (snd r - pos))
         (runs (cut :: cuts)).
Proof.
  induction n as [|n IH]; intros segments cut cuts pos split Hn Hpos Hs Hlast.
  { destruct segments; [|simpl in Hn; lia].
    apply sorted_first_le_last in Hs.
    change (Seg.line_length []) with 0 in Hlast. lia. }
  destruct segments as [|segment rest].
  { apply sorted_first_le_last in Hs.
    change (Seg.line_length []) with 0 in Hlast. lia. }
  rewrite divide_loop_cons. rewrite line_length_cons in Hlast.
  pose proof (cells_length segment) as Hlen.
  rewrite line_cells_cons.
  destruct (Seg.text_empty segment) eqn:Hempty.
  { rewrite (text_empty_cells _ Hempty) in *. simpl in Hlen.
    simpl app. apply IH; auto; [simpl in Hn; lia | lia]. }
  cbv zeta.
  destruct (Z.ltb_spec (pos + Seg.cell_length segment) cut) as [Hlt|Hge].
  { rewrite IH; [|simpl in Hn; lia|lia|auto|lia].
    rewrite line_cells_app.
    change (Seg.line_cells [segment]) with (Seg.cells segment ++ []).
    rewrite app_nil_r.
    rewrite firstn_app_ge by lia. rewrite <- app_assoc. f_equal.
    { do 3 f_equal. lia. }
    apply map_ext_in. intros [a b] Hab. simpl.
    apply runs_fst_ge in Hab; auto.
    rewrite cell_slice_app_r by lia. f_equal; lia. }
  destruct (Z.eqb_spec (pos + Seg.cell_length segment) cut) as [Heq|Hne].
  { rewrite List.map_cons, line_cells_app.
    change (Seg.line_cells [segment]) with (Seg.cells segment ++ []).
    rewrite app_nil_r.
    rewrite firstn_app_le by lia. rewrite firstn_all2 by lia.
    destruct cuts as [|cut' cuts']; [reflexivity|].
    rewrite runs_cons, List.map_cons. f_equal.
    inversion Hs as [|? ? Hs' Hall]; subst cut.
    inversion Hall as [|? ? Hlt' _]; subst.
    change (List.last ((pos + Seg.cell_length segment) :: cut' :: cuts') 0)
      with (List.last (cut' :: cuts') 0) in Hlast.
    rewrite IH; [|simpl in Hn |- *; lia|lia|auto|lia].
    f_equal.
    { simpl fst. simpl snd. rewrite cell_slice_app_r by lia.
      unfold cell_slice.
      replace (Z.to_nat (pos + Seg.cell_length segment - pos
                         - Z.of_nat (length (Seg.cells segment)))) with O by lia.
      simpl. f_equal. lia. }
    apply map_ext_in. intros [a b] Hab. simpl.
    apply runs_fst_ge in Hab; auto.
    rewrite cell_slice_app_r by lia. f_equal; lia. }
  assert (Hgt : cut < pos + Seg.cell_length segment) by lia.
  rewrite List.map_cons, line_cells_app.
  change (Seg.line_cells [fst (Seg.split_cells segment (cut - pos))])
    with (Seg.cells (fst (Seg.split_cells segment (cut - pos))) ++ []).
  rewrite app_nil_r, split_cells_fst.
  rewrite firstn_app_le by lia.
  destruct cuts as [|cut' cuts']; [reflexivity|].
  rewrite runs_cons, List.map_cons. f_equal.
  inversion Hs as [|? ? Hs' Hall]; subst.
  inversion Hall as [|? ? Hlt' _]; subst.
  change (List.last (cut :: cut' :: cuts') 0)
    with (List.last (cut' :: cuts') 0) in Hlast.
  rewrite IH; [|simpl in Hn |- *; lia|lia|auto|].
  2:{ rewrite line_length_cons, split_cells_snd_length by lia. lia. }
  rewrite line_cells_cons, split_cells_snd.
  assert (Hskip : skipn (Z.to_nat (cut - pos)) (Seg.cells segment)
                  ++ Seg.line_cells rest
                  = skipn (Z.to_nat (cut - pos))
                      (Seg.cells segment ++ Seg.line_cells rest)).
  { rewrite skipn_app.
    replace (Z.to_nat (cut - pos) - length (Seg.cells segment))%nat with O by lia.
    reflexivity. }
  rewrite Hskip. f_equal.
  { simpl fst. simpl snd. unfold cell_slice. simpl app. f_equal. lia. }
  apply map_ext_in. intros [a b] Hab. simpl.
  apply runs_fst_ge in Hab; auto.
  rewrite cell_slice_skipn by lia. f_equal; lia.
Qed.

Lemma divide_loop_cells segments cut cuts pos split :
  pos < cut ->
  StronglySorted Z.lt (cut :: cuts) ->
  List.last (cut :: cuts) 0 <= pos + Seg.line_length segments ->
  List.map Seg.line_cells (Seg.divide_loop segments cut cuts pos split)
  = (Seg.line_cells split
     ++ firstn (Z.to_nat (cut - pos)) (Seg.line_cells segments))
    :: List.map
         (fun r : Z * Z =>
            cell_slice (Seg.line_cells segments) (fst r - pos) (snd r - pos))
         (runs (cut :: cuts)).
Proof. apply (divide_loop_cells_aux _ _ _ _ _ _ (le_n _)). Qed.

Lemma divide_cons line cut cuts :
  Seg.divide line (cut :: cuts)
  = if cut =? 0 then [] :: Seg.divide line cuts
    else Seg.divide_loop line cut cuts 0 [].
Proof. reflexivity. Qed.

Lemma divide_cells_zero line rest :
  StronglySorted Z.lt (0 :: rest) ->
  List.last (0 :: rest) 0 <= Seg.line_length line ->
  List.map Seg.line_cells (Seg.divide line (0 :: rest))
  = [] :: List.map
            (fun r : Z * Z => cell_slice (Seg.line_cells line) (fst r) (snd r))
            (runs (0 :: rest)).
Proof.
  intros Hs Hlast. rewrite divide_cons. simpl (0 =? 0).
  destruct rest as [|r1 rest']; [reflexivity|].
  inversion Hs as [|? ? Hs' Hall]; subst. inversion Hall as [|? ? Hlt _]; subst.
  rewrite divide_cons.
  destruct (Z.eqb_spec r1 0); [lia|].
  rewrite List.map_cons. f_equal.
  change (List.last (0 :: r1 :: rest') 0) with (List.last (r1 :: rest') 0) in Hlast.
  rewrite divide_loop_cells; [|lia|auto|lia].
  rewrite runs_cons, List.map_cons. f_equal.
  apply map_ext. intros [a b]. simpl. f_equal; lia.
Qed.

Lemma divide_cells_pos line c rest :
  0 < c ->
  StronglySorted Z.lt (c :: rest) ->
  List.last (c :: rest) 0 <= Seg.line_length line ->
  List.map Seg.line_cells (Seg.divide line (c :: rest))
  = List.map
      (fun r : Z * Z => cell_slice (Seg.line_cells line) (fst r) (snd r))
      (runs (0 :: c :: rest)).
Proof.
  intros Hc Hs Hlast. rewrite divide_cons.
  destruct (Z.eqb_spec c 0); [lia|].
  rewrite divide_loop_cells; [|lia|auto|lia].
  rewrite runs_cons, List.map_cons. f_equal.
  apply map_ext. intros [a b]. simpl. f_equal; lia.
Qed.

(** *** Rows of chops *)

Lemma chop_get_set d k v k' :
  chop_get (chop_set d k v) k'
  = if k =? k' then Some v else chop_get d k'.
Proof.
  induction d as [|[k0 v0] d IH]; simpl.
  - reflexivity.
  - destruct (Z.eqb_spec k0 k) as [->|Hne]; simpl.
    + destruct (Z.eqb_spec k k'); reflexivity.
    + rewrite IH. destruct (Z.eqb_spec k0 k') as [->|Hne'].
      * destruct (Z.eqb_spec k k'); [lia|reflexivity].
      * reflexivity.
Qed.

Lemma chop_set_keys d k v :
  chop_get d k <> None -> List.map fst (chop_set d k v) = List.map fst d.
Proof.
  induction d as [|[k0 v0] d IH]; simpl; [congruence|].
  destruct (Z.eqb_spec k0 k) as [->|Hne]; simpl; [reflexivity|].
  intros H. rewrite IH; auto.
Qed.

Lemma chop_get_In d k : chop_get d k <> None <-> In k (List.map fst d).
Proof.
  induction d as [|[k0 v0] d IH]; simpl; [tauto|].
  destruct (Z.eqb_spec k0 k) as [->|Hne].
  - split; [auto|congruence].
  - rewrite IH. intuition.
Qed.

Lemma fromkeys_sorted cs :
  List.NoDup cs -> fromkeys cs = List.map (fun k => (k, None)) cs.
Proof.
  unfold fromkeys.
  assert (H : forall cs d,
             List.NoDup (List.map fst d ++ cs) ->
             fold_left (fun d cut => chop_set d cut None) cs d
             = d ++ List.map (fun k => (k, None)) cs).
  { clear. induction cs as [|k cs IH]; intros d Hnd; simpl.
    - rewrite app_nil_r. reflexivity.
    - assert (Hset : chop_set d k None = d ++ [(k, None)]).
      { apply NoDup_remove_2 in Hnd.
        assert (Hk : ~ In k (List.map fst d)) by (intros ?; apply Hnd, in_or_app; auto).
        clear - Hk. induction d as [|[k0 v0] d IH]; simpl; [reflexivity|].
        simpl in Hk. destruct (Z.eqb_spec k0 k); [tauto|].
        rewrite IH; tauto. }
      rewrite Hset, IH.
      + rewrite <- app_assoc. reflexivity.
      + rewrite List.map_app. simpl. rewrite <- app_assoc. exact Hnd. }
  intros Hnd. apply (H cs []). exact Hnd.
Qed.

Lemma fill_cut_fold : forall pairs d,
  (forall k, In k (List.map fst pairs) -> In k (List.map fst d)) ->
  exists d',
    fold_result fill_cut pairs d = Ok d' /\
    List.map fst d' = List.map fst d /\
    forall k,
      chop_get d' k
      = match chop_get d k with
        | Some None =>
            match assoc pairs k with
            | Some segments => Some (Some segments)
            | None => Some None
            end
        | other => other
        end.
Proof.
  induction pairs as [|[cut segments] pairs IH]; intros d Hkeys.
  - exists d. split; [reflexivity|]. split; [reflexivity|].
    intros k. simpl. destruct (chop_get d k) as [[?|]|]; reflexivity.
  - assert (Hcut : chop_get d cut <> None).
    { apply chop_get_In, Hkeys. left. reflexivity. }
    simpl fold_result. unfold fill_cut at 1.
    destruct (chop_get d cut) as [[old|]|] eqn:Hget; [| |congruence].
    + destruct (IH d) as (d' & Hfold & Hk & Hv).
      { intros k Hk. apply Hkeys. right. exact Hk. }
      exists d'. split; [exact Hfold|]. split; [exact Hk|].
      intros k. rewrite Hv. simpl.
      destruct (Z.eqb_spec cut k) as [->|Hne]; [rewrite Hget|]; reflexivity.
    + destruct (IH (chop_set d cut (Some segments))) as (d' & Hfold & Hk & Hv).
      { intros k Hk. rewrite chop_set_keys by congruence.
        apply Hkeys. right. exact Hk. }
      exists d'. split; [exact Hfold|].
      split; [rewrite Hk; apply chop_set_keys; congruence|].
      intros k. rewrite Hv, chop_get_set. simpl.
      destruct (Z.eqb_spec cut k) as [->|Hne]; [rewrite Hget|]; reflexivity.
Qed.

Lemma index_nth {A : Type} (l : list A) y a :
  0 <= y -> nth_error l (Z.to_nat y) = Some a -> Py.index l y = Ok a.
Proof.
  intros Hy Hn. unfold Py.index.
  destruct (Z.ltb_spec y 0); [lia|].
  assert (Hlt : (Z.to_nat y < length l)%nat) by (apply nth_error_Some; congruence).
  destruct (Z.ltb_spec y 0); [lia|].
  destruct (Z.leb_spec (Z.of_nat (length l)) y); [lia|].
  simpl. rewrite Hn. reflexivity.
Qed.

Lemma filter_sorted (P : Z -> bool) l :
  StronglySorted Z.lt l -> StronglySorted Z.lt (List.filter P l).
Proof.
  induction 1 as [|a l Hs IH Ha]; simpl; [constructor|].
  destruct (P a); [|exact IH].
  constructor; [exact IH|].
  rewrite List.Forall_forall in *. intros v Hv.
  apply filter_In in Hv. apply Ha. tauto.
Qed.

Lemma sorted_NoDup l : StronglySorted Z.lt l -> List.NoDup l.
Proof.
  induction 1 as [|a l Hs IH Ha]; constructor; [|exact IH].
  intros Hin. rewrite List.Forall_forall in Ha. specialize (Ha a Hin). lia.
Qed.

Lemma map_sub_sorted rx l :
  StronglySorted Z.lt l ->
  StronglySorted Z.lt (List.map (fun cut => cut - rx) l).
Proof.
  induction 1 as [|a l Hs IH Ha]; simpl; constructor; [exact IH|].
  rewrite List.Forall_forall in *. intros v Hv.
  apply in_map_iff in Hv. destruct Hv as [u [<- Hu]]. specialize (Ha u Hu). lia.
Qed.

Lemma runs_map (f : Z -> Z) l :
  runs (List.map f l) = List.map (fun r => (f (fst r), f (snd r))) (runs l).
Proof.
  unfold runs. revert l. 
  assert (H : forall l l', List.combine (List.map f l) (List.map f l')
                           = List.map (fun r : Z * Z => (f (fst r), f (snd r)))
                               (List.combine l l')).
  { induction l as [|a l IH]; intros [|b l']; simpl; try reflexivity.
    rewrite IH. reflexivity. }
  intros l. rewrite <- H. destruct l; reflexivity.
Qed.

Lemma last_map_sub rx l d :
  l <> [] -> List.last (List.map (fun cut => cut - rx) l) d = List.last l (d + rx) - rx.
Proof.
  induction l as [|a l IH]; [congruence|]. intros _.
  destruct l as [|b l]; [reflexivity|].
  change (List.last (List.map (fun cut => cut - rx) (a :: b :: l)) d)
    with (List.last (List.map (fun cut => cut - rx) (b :: l)) d).
  change (List.last (a :: b :: l) (d + rx)) with (List.last (b :: l) (d + rx)).
  apply IH. congruence.
Qed.

(** The cuts of a row that lie within the extents of a painted region:
    they start at its left edge and end at its right edge. *)
Lemma final_cuts_shape cs rx w :
  StronglySorted Z.lt cs -> 0 < w -> In rx cs -> In (rx + w) cs ->
  exists mid,
    List.filter (fun cut => (cut <=? rx + w) && (rx <=? cut)) cs
    = rx :: mid ++ [rx + w].
Proof.
  intros Hs Hw Hrx Hrxw.
  set (final := List.filter (fun cut => (cut <=? rx + w) && (rx <=? cut)) cs).
  assert (Hfs : StronglySorted Z.lt final) by (apply filter_sorted; exact Hs).
  assert (Hin : forall v, In v final <-> In v cs /\ rx <= v <= rx + w).
  { intros v. unfold final. rewrite filter_In, andb_true_iff, !Z.leb_le. tauto. }
  assert (Hhd : hd_error final = Some rx).
  { apply sorted_hd; auto.
    - apply Hin. split; [auto|lia].
    - intros v Hv. apply Hin in Hv. lia. }
  assert (Hlast : List.last final 0 = rx + w).
  { apply sorted_last; auto.
    - apply Hin. split; [auto|lia].
    - intros v Hv. apply Hin in Hv. lia. }
  destruct final as [|a rest]; [discriminate|].
  simpl in Hhd. inversion Hhd; subst a.
  destruct rest as [|b rest'].
  - simpl in Hlast. lia.
  - exists (removelast (b :: rest')). f_equal.
    change (List.last (rx :: b :: rest') 0) with (List.last (b :: rest') 0) in Hlast.
    rewrite <- Hlast. apply app_removelast_last. congruence.
Qed.

Lemma assoc_zip_runs {V C : Type} (f : V -> C) (g : Z * Z -> C) l :
  forall segs k,
    List.map f segs = List.map g (runs l) ->
    option_map f (assoc (Py.zip l segs) k)
    = option_map g (List.find (fun r : Z * Z => fst r =? k) (runs l)).
Proof.
  induction l as [|a l IH]; intros segs k Hmap.
  - reflexivity.
  - destruct l as [|b l'].
    + destruct segs; [reflexivity|discriminate].
    + rewrite runs_cons in *. destruct segs as [|s segs]; [discriminate|].
      simpl in Hmap. inversion Hmap as [[Hs Hrest]].
      unfold Py.zip in *. simpl List.combine. simpl assoc. simpl List.find.
      destruct (Z.eqb_spec a k); [simpl; congruence|].
      apply IH. exact Hrest.
Qed.

Lemma run_of_In cs k r :
  run_of cs k = Some r -> In r (runs cs) /\ fst r = k.
Proof.
  unfold run_of. intros H. apply find_some in H.
  destruct H as [Hin Hk]. apply Z.eqb_eq in Hk. auto.
Qed.

Lemma runs_In_sorted cs a b :
  StronglySorted Z.lt cs -> In (a, b) (runs cs) ->
  In a cs /\ In b cs /\ a < b /\ forall v, In v cs -> v <= a \/ b <= v.
Proof.
  induction 1 as [|c cs Hs IH Hc]; intros Hin; [destruct Hin|].
  destruct cs as [|c' cs']; [destruct Hin|].
  rewrite runs_cons in Hin. destruct Hin as [Heq|Hin].
  - inversion Heq; subst. inversion Hc as [|? ? Hlt Hc']; subst.
    split; [left; reflexivity|]. split; [right; left; reflexivity|].
    split; [exact Hlt|].
    intros v [->|[->|Hv]]; [lia|lia|].
    inversion Hs as [|? ? _ Hall]; subst.
    rewrite List.Forall_forall in Hall. specialize (Hall v Hv). lia.
  - destruct (IH Hin) as (Ha & Hb & Hab & Hgap).
    split; [right; exact Ha|]. split; [right; exact Hb|]. split; [exact Hab|].
    intros v [->|Hv]; [|auto].
    rewrite List.Forall_forall in Hc. specialize (Hc a Ha). lia.
Qed.

Lemma find_none_intro {A : Type} (f : A -> bool) l :
  (forall x, In x l -> f x = false) -> List.find f l = None.
Proof.
  induction l as [|a l IH]; intros H; [reflexivity|].
  simpl. rewrite (H a (or_introl eq_refl)). apply IH.
  intros x Hx. apply H. right. exact Hx.
Qed.

Lemma filter_above_empty hi lo b l :
  hi < b -> Forall (Z.lt b) l ->
  List.filter (fun cut => (cut <=? hi) && (lo <=? cut)) l = [].
Proof.
  intros Hb Hall. induction Hall as [|c l Hc Hall IH]; [reflexivity|].
  simpl. destruct (Z.leb_spec c hi); [lia|]. simpl. exact IH.
Qed.

Lemma filter_cons_eq {A : Type} (f : A -> bool) a l :
  List.filter f (a :: l) = if f a then a :: List.filter f l else List.filter f l.
Proof. reflexivity. Qed.

Lemma find_cons_eq {A : Type} (f : A -> bool) a l :
  List.find f (a :: l) = if f a then Some a else List.find f l.
Proof. reflexivity. Qed.

Lemma run_of_filter cs rx w k :
  StronglySorted Z.lt cs -> 0 <= w -> In (rx + w) cs ->
  run_of (List.filter (fun cut => (cut <=? rx + w) && (rx <=? cut)) cs) k
  = if (rx <=? k) && (k <? rx + w) then run_of cs k else None.
Proof.
  intros Hs Hw. unfold run_of.
  set (F := fun cut => (cut <=? rx + w) && (rx <=? cut)).
  assert (HF : forall c, F c = true <-> rx <= c <= rx + w).
  { intros c. unfold F. rewrite andb_true_iff, !Z.leb_le. lia. }
  induction Hs as [|a cs Hs IH Ha]; intros Hin.
  - simpl. destruct ((rx <=? k) && (k <? rx + w)); reflexivity.
  - destruct cs as [|b cs'].
    + simpl. destruct (F a); simpl;
        destruct ((rx <=? k) && (k <? rx + w)); reflexivity.
    + rewrite (runs_cons a b cs'), find_cons_eq. simpl fst.
      inversion Ha as [|? ? Hab Ha']; subst.
      rewrite filter_cons_eq.
      destruct (F a) eqn:Pa.
      * apply HF in Pa.
        rewrite filter_cons_eq in *.
        destruct (F b) eqn:Pb.
        -- apply HF in Pb.
           rewrite runs_cons, find_cons_eq. simpl fst.
           destruct (Z.eqb_spec a k) as [->|Hne].
           ++ destruct (Z.leb_spec rx k); [|lia].
              destruct (Z.ltb_spec k (rx + w)); [|lia]. reflexivity.
           ++ apply IH. destruct Hin as [Hin|Hin]; [lia|exact Hin].
        -- assert (Hb : rx + w < b).
           { destruct (Z.ltb_spec (rx + w) b); [auto|].
             assert (F b = true) by (apply HF; lia). congruence. }
           assert (Hrest : List.filter F cs' = []).
           { inversion Hs as [|? ? _ Hall]; subst.
             apply filter_above_empty with (b := b); auto. }
           rewrite Hrest. simpl.
           assert (Ha_eq : a = rx + w).
           { destruct Hin as [Hin|[Hin|Hin]]; [auto|lia|].
             inversion Hs as [|? ? _ Hall]; subst.
             rewrite List.Forall_forall in Hall. specialize (Hall _ Hin). lia. }
           destruct (Z.eqb_spec a k) as [->|Hne].
           ++ destruct (Z.ltb_spec k (rx + w)); [lia|].
              rewrite andb_false_r. reflexivity.
           ++ destruct ((rx <=? k) && (k <? rx + w)) eqn:Pk; [|reflexivity].
              apply andb_true_iff in Pk. rewrite Z.leb_le, Z.ltb_lt in Pk.
              symmetry. apply find_none_intro. intros [u v] Huv. simpl.
              apply runs_In_sorted in Huv; auto. apply Z.eqb_neq.
              destruct Huv as (Hu & _).
              destruct Hu as [<-|Hu]; [lia|].
              inversion Hs as [|? ? _ Hall]; subst.
              rewrite List.Forall_forall in Hall. specialize (Hall _ Hu). lia.
      * assert (Hnot : ~ (rx <= a <= rx + w)).
        { intros Hc. apply HF in Hc. congruence. }
        destruct (Z.eqb_spec a k) as [->|Hne].
        -- rewrite IH by (destruct Hin as [Hin|Hin]; [lia|exact Hin]).
           destruct (Z.leb_spec rx k); destruct (Z.ltb_spec k (rx + w));
             simpl; try reflexivity; try lia.
        -- apply IH. destruct Hin as [Hin|Hin]; [lia|exact Hin].
Qed.

(** The segments that [paint_line] pairs with the cuts of a row hold,
    run by run, the cells of the painted line. *)
Lemma cut_segments_cells cs rx w line :
  StronglySorted Z.lt cs -> 0 < w -> In rx cs -> In (rx + w) cs ->
  Seg.line_length line = w ->
  let final_cuts :=
    List.filter (fun cut => (cut <=? rx + w) && (rx <=? cut)) cs in
  exists cut_segments,
    (if (length final_cuts =? 2)%nat then Ok [line]
     else
       match Seg.divide line (List.map (fun cut => cut - rx) final_cuts) with
       | [] => Raise ValueError
       | _ :: cut_segments => Ok cut_segments
       end) = Ok cut_segments /\
    List.map Seg.line_cells cut_segments
    = List.map
        (fun r : Z * Z => cell_slice (Seg.line_cells line) (fst r - rx) (snd r - rx))
        (runs final_cuts).
Proof.
  intros Hs Hw Hrx Hrxw Hlen final_cuts.
  destruct (final_cuts_shape cs rx w Hs Hw Hrx Hrxw) as [mid Hshape].
  assert (Hfs : StronglySorted Z.lt final_cuts) by (apply filter_sorted; exact Hs).
  fold final_cuts in Hshape. rewrite Hshape in *.
  destruct mid as [|m mid].
  - exists [line]. split; [reflexivity|].
    simpl. f_equal. unfold cell_slice.
    replace (rx - rx) with 0 by lia. change (Z.to_nat 0) with O. rewrite skipn_O.
    rewrite firstn_all2; [reflexivity|]. unfold Seg.line_length in Hlen. lia.
  - assert (Hne2 : Nat.eqb (length (rx :: (m :: mid) ++ [rx + w])) 2 = false).
    { apply Nat.eqb_neq. simpl. rewrite length_app. simpl. lia. }
    rewrite Hne2.
    pose proof (divide_cells_zero line
                  (List.map (fun cut => cut - rx) ((m :: mid) ++ [rx + w]))) as Hdiv.
    assert (Hrel : List.map (fun cut => cut - rx) (rx :: (m :: mid) ++ [rx + w])
                   = 0 :: List.map (fun cut => cut - rx) ((m :: mid) ++ [rx + w])).
    { simpl. f_equal. lia. }
    rewrite Hrel. rewrite <- Hrel in Hdiv.
    assert (Hsorted : StronglySorted Z.lt
                        (List.map (fun cut => cut - rx) (rx :: (m :: mid) ++ [rx + w])))
      by (apply map_sub_sorted; exact Hfs).
    assert (Hlast : List.last
                      (List.map (fun cut => cut - rx) (rx :: (m :: mid) ++ [rx + w])) 0
                    <= Seg.line_length line).
    { rewrite last_map_sub by congruence.
      change (rx :: (m :: mid) ++ [rx + w]) with ((rx :: m :: mid) ++ [rx + w]).
      rewrite last_last. lia. }
    specialize (Hdiv Hsorted Hlast). rewrite Hrel in Hdiv.
    destruct (Seg.divide line
                (0 :: List.map (fun cut => cut - rx) ((m :: mid) ++ [rx + w])))
      as [|p0 pieces]; [discriminate|].
    exists pieces. split; [reflexivity|].
    rewrite List.map_cons in Hdiv.
    assert (Hpieces := f_equal (@List.tl _) Hdiv).
    cbn [List.tl] in Hpieces. eapply eq_trans; [exact Hpieces|].
    rewrite <- Hrel, runs_map, List.map_map. reflexivity.
Qed.

Lemma list_assign_nonneg {A : Type} (l : list A) y (v : A) :
  0 <= y -> list_assign l y v = <[ Z.to_nat y := v ]> l.
Proof.
  intros Hy. unfold list_assign. destruct (Z.ltb_spec y 0); [lia|reflexivity].
Qed.

Lemma bucket_cells_key d k : In k (List.map fst d) -> bucket_cells d k <> None.
Proof.
  intros Hin. apply chop_get_In in Hin. unfold bucket_cells.
  destruct (chop_get d k); [discriminate|congruence].
Qed.

(** One row of one render: the buckets of the row that are still empty
    and lie within the painted region receive their part of the line. *)
Lemma paint_line_spec cuts rr (chops : list Chops) y (line : Line) cs (d : Chops) :
  0 <= y ->
  nth_error cuts (Z.to_nat y) = Some cs ->
  nth_error chops (Z.to_nat y) = Some d ->
  StronglySorted Z.lt cs ->
  List.map fst d = cs ->
  0 < reg_width rr ->
  In (reg_x rr) cs -> In (reg_x rr + reg_width rr) cs ->
  Seg.line_length line = reg_width rr ->
  exists d' : Chops,
    paint_line cuts rr chops (y, line) = Ok (<[ Z.to_nat y := d' ]> chops) /\
    List.map fst d' = cs /\
    forall k,
      bucket_cells d' k
      = option_map
          (paint_bucket cs (reg_x rr) (reg_width rr) (Seg.line_cells line) k)
          (bucket_cells d k).
Proof.
  intros Hy Hcuts Hchops Hs Hkeys Hw Hrx Hrxw Hlen.
  unfold paint_line, x_extents.
  rewrite (index_nth cuts y cs Hy Hcuts). cbn [mbind result_bind].
  destruct (cut_segments_cells cs (reg_x rr) (reg_width rr) line Hs Hw Hrx Hrxw Hlen)
    as (cut_segments & Hsegs & Hcells).
  cbv zeta in Hsegs, Hcells.
  set (final_cuts := List.filter
                       (fun cut => (cut <=? reg_x rr + reg_width rr)
                                   && (reg_x rr <=? cut)) cs) in *.
  rewrite Hsegs. cbn [mbind result_bind].
  rewrite (index_nth chops y d Hy Hchops). cbn [mbind result_bind].
  destruct (fill_cut_fold (Py.zip final_cuts cut_segments) d) as (d' & Hfold & Hk & Hv).
  { intros k Hin. rewrite Hkeys. unfold Py.zip in Hin.
    apply in_map_iff in Hin. destruct Hin as [[k' s] [<- Hin]].
    apply in_combine_l in Hin. unfold final_cuts in Hin.
    apply filter_In in Hin. tauto. }
  rewrite Hfold. cbn [mbind result_bind].
  exists d'. split; [rewrite list_assign_nonneg by lia; reflexivity|].
  split; [congruence|].
  intros k. unfold bucket_cells. rewrite Hv.
  destruct (chop_get d k) as [[old|]|] eqn:Hget; simpl; try reflexivity.
  pose proof (assoc_zip_runs Seg.line_cells
                (fun r : Z * Z =>
                   cell_slice (Seg.line_cells line)
                     (fst r - reg_x rr) (snd r - reg_x rr))
                final_cuts cut_segments k Hcells) as Hassoc.
  fold (run_of final_cuts k) in Hassoc.
  subst final_cuts.
  rewrite run_of_filter in Hassoc by (auto; lia).
  match type of Hassoc with
  | option_map _ ?a = _ => destruct a as [segs|] eqn:Has
  end; simpl in Hassoc |- *.
  - destruct ((reg_x rr <=? k) && (k <? reg_x rr + reg_width rr)); [|discriminate].
    destruct (run_of cs k); [|discriminate].
    simpl in Hassoc. congruence.
  - destruct ((reg_x rr <=? k) && (k <? reg_x rr + reg_width rr)); [|reflexivity].
    destruct (run_of cs k); [discriminate|reflexivity].
Qed.

(** *** The fill, render by render *)

Lemma chops_inv_ext cuts chops g g' :
  (forall y k, g y k = g' y k) -> chops_inv cuts chops g -> chops_inv cuts chops g'.
Proof.
  intros Hext [Hlen Hrows]. split; [exact Hlen|].
  intros y cs d Hy Hc Hd. destruct (Hrows y cs d Hy Hc Hd) as [Hk Hv].
  split; [exact Hk|]. intros k Hin. rewrite <- Hext. auto.
Qed.

Lemma nth_error_lookup {A : Type} (l : list A) n : nth_error l n = l !! n.
Proof.
  revert n. induction l as [|a l IH]; intros [|n]; simpl; auto.
Qed.

Lemma chops_inv_update cuts (chops : list Chops) g y0 cs (d' : Chops) gnew :
  0 <= y0 ->
  nth_error cuts (Z.to_nat y0) = Some cs ->
  List.map fst d' = cs ->
  (forall k, In k cs -> bucket_cells d' k = Some (gnew k)) ->
  chops_inv cuts chops g ->
  chops_inv cuts (<[ Z.to_nat y0 := d' ]> chops)
    (fun y k => if y =? y0 then gnew k else g y k).
Proof.
  intros Hy0 Hcs Hkeys Hnew [Hlen Hrows]. split.
  - rewrite length_insert. exact Hlen.
  - intros y cs' d Hy Hc Hd.
    destruct (Z.eqb_spec y y0) as [->|Hne].
    + rewrite nth_error_lookup, list_lookup_insert_eq in Hd.
      2:{ rewrite Hlen. apply nth_error_Some. congruence. }
      inversion Hd; subst d. rewrite Hcs in Hc. inversion Hc; subst cs'.
      auto.
    + rewrite nth_error_lookup, list_lookup_insert_ne in Hd by lia.
      rewrite <- nth_error_lookup in Hd.
      apply (Hrows y cs' d Hy Hc Hd).
Qed.

Lemma nth_error_nth_default {A : Type} (l : list A) n a d :
  nth_error l n = Some a -> nth n l d = a.
Proof. intros H. apply nth_error_nth. exact H. Qed.

Lemma fold_result_cons {A S : Type} (f : S -> A -> result S) a l s :
  fold_result f (a :: l) s = s' ← f s a; fold_result f l s'.
Proof. reflexivity. Qed.

Lemma paint_rows cuts rr rx w yend :
  rx = reg_x rr -> w = reg_width rr -> 0 < w ->
  Forall (StronglySorted Z.lt) cuts ->
  yend <= Z.of_nat (length cuts) ->
  forall (lines : Lines) y0 (chops : list Chops) g,
    0 <= y0 ->
    length lines = Z.to_nat (yend - y0) ->
    Forall (fun line => Seg.line_length line = w) lines ->
    (forall y, y0 <= y < yend ->
               In rx (nth (Z.to_nat y) cuts []) /\
               In (rx + w) (nth (Z.to_nat y) cuts [])) ->
    chops_inv cuts chops g ->
    exists chops',
      fold_result (paint_line cuts rr) (Py.zip (Py.range y0 yend) lines) chops
      = Ok chops' /\
      chops_inv cuts chops'
        (fun y k =>
           if (y0 <=? y) && (y <? yend) then
             paint_bucket (nth (Z.to_nat y) cuts []) rx w
               (Seg.line_cells (nth (Z.to_nat (y - y0)) lines [])) k (g y k)
           else g y k).
Proof.
  intros Hrx Hw Hwpos Hsorted Hend lines.
  induction lines as [|line lines IH]; intros y0 chops g Hy0 Hlen Hfit Hcuts Hinv.
  - simpl in Hlen. rewrite range_nil by lia. exists chops. split; [reflexivity|].
    eapply chops_inv_ext; [|exact Hinv]. intros y k. simpl.
    destruct (Z.leb_spec y0 y); destruct (Z.ltb_spec y yend); simpl; try reflexivity.
    lia.
  - simpl in Hlen. assert (Hlt : y0 < yend) by lia.
    rewrite range_cons by lia. unfold Py.zip.
    change (List.combine (y0 :: Py.range (y0 + 1) yend) (line :: lines))
      with ((y0, line) :: Py.zip (Py.range (y0 + 1) yend) lines).
    rewrite fold_result_cons.
    assert (Hrow : exists cs, nth_error cuts (Z.to_nat y0) = Some cs).
    { destruct (nth_error cuts (Z.to_nat y0)) eqn:E; [eauto|].
      apply nth_error_None in E. lia. }
    destruct Hrow as [cs Hcs].
    assert (Hchop : exists d : Chops, nth_error chops (Z.to_nat y0) = Some d).
    { destruct (nth_error chops (Z.to_nat y0)) eqn:E; [eauto|].
      apply nth_error_None in E. destruct Hinv as [Hl _]. lia. }
    destruct Hchop as [d Hd].
    destruct Hinv as [Hl Hrows].
    destruct (Hrows y0 cs d Hy0 Hcs Hd) as [Hkeys Hvals].
    assert (Hcs_sorted : StronglySorted Z.lt cs).
    { rewrite List.Forall_forall in Hsorted. apply Hsorted.
      eapply nth_error_In. exact Hcs. }
    apply List.Forall_cons_iff in Hfit. destruct Hfit as [Hline Hfit'].
    assert (Hy0r : y0 <= y0 < yend) by lia.
    destruct (Hcuts y0 Hy0r) as [Hin1 Hin2]. subst rx w.
    rewrite (nth_error_nth_default _ _ _ [] Hcs) in Hin1, Hin2.
    destruct (paint_line_spec cuts rr chops y0 line cs d Hy0 Hcs Hd Hcs_sorted
                Hkeys Hwpos Hin1 Hin2 Hline) as (d' & Hpaint & Hkeys' & Hvals').
    rewrite Hpaint. cbn [mbind result_bind].
    pose (gnew := fun k => paint_bucket cs (reg_x rr) (reg_width rr)
                             (Seg.line_cells line) k (g y0 k)).
    assert (Hinv1 : chops_inv cuts (<[ Z.to_nat y0 := d' ]> chops)
                      (fun y k => if y =? y0 then gnew k else g y k)).
    { apply chops_inv_update with (cs := cs); auto; [|split; auto].
      intros k Hk. rewrite Hvals', (Hvals k Hk). reflexivity. }
    assert (H1 : 0 <= y0 + 1) by lia.
    assert (H2 : length lines = Z.to_nat (yend - (y0 + 1))) by lia.
    assert (H3 : forall y, y0 + 1 <= y < yend ->
                           In (reg_x rr) (nth (Z.to_nat y) cuts []) /\
                           In (reg_x rr + reg_width rr) (nth (Z.to_nat y) cuts [])).
    { intros y Hy. apply Hcuts. lia. }
    destruct (IH (y0 + 1) _ _ H1 H2 Hfit' H3 Hinv1)
      as (chops' & Hfold & Hinv').
    exists chops'. split; [exact Hfold|].
    eapply chops_inv_ext; [|exact Hinv']. intros y k. simpl.
    destruct (Z.eqb_spec y y0) as [->|Hne].
    + destruct (Z.leb_spec (y0 + 1) y0); [lia|]. simpl.
      destruct (Z.leb_spec y0 y0); [|lia].
      destruct (Z.ltb_spec y0 yend); [|lia]. simpl.
      unfold gnew. rewrite (nth_error_nth_default _ _ _ [] Hcs).
      replace (Z.to_nat (y0 - y0)) with O by lia. reflexivity.
    + destruct (Z.leb_spec (y0 + 1) y); destruct (Z.leb_spec y0 y); try lia;
        simpl; try reflexivity.
      destruct (Z.ltb_spec y yend); [|reflexivity].
      replace (Z.to_nat (y - y0)) with (S (Z.to_nat (y - (y0 + 1)))) by lia.
      reflexivity.
Qed.

(** One render: its rows are painted over the rows of its region. *)
Lemma paint_render_spec cuts (chops : list Chops) g region clip (lines : Lines) :
  let rr := intersection region clip in
  Forall (StronglySorted Z.lt) cuts ->
  0 < reg_width rr -> 0 <= reg_y rr ->
  reg_y rr + reg_height rr <= Z.of_nat (length cuts) ->
  Z.of_nat (length lines) = reg_height rr ->
  Forall (fun line => Seg.line_length line = reg_width rr) lines ->
  (forall y, reg_y rr <= y < reg_y rr + reg_height rr ->
             In (reg_x rr) (nth (Z.to_nat y) cuts []) /\
             In (reg_x rr + reg_width rr) (nth (Z.to_nat y) cuts [])) ->
  chops_inv cuts chops g ->
  exists chops',
    paint_render cuts chops (Ok (region, clip, lines)) = Ok chops' /\
    chops_inv cuts chops' (paint_cells cuts rr lines g).
Proof.
  intros rr Hsorted Hw Hy Hend Hlen Hfit Hcuts Hinv.
  unfold paint_render. cbn [mbind result_bind]. fold rr. unfold y_range.
  destruct (paint_rows cuts rr (reg_x rr) (reg_width rr) (reg_y rr + reg_height rr)
              eq_refl eq_refl Hw Hsorted Hend lines (reg_y rr) chops g Hy
              ltac:(lia) Hfit Hcuts Hinv) as (chops' & Hfold & Hinv').
  exists chops'. split; [exact Hfold|]. exact Hinv'.
Qed.

(** *** Geometry of clipped regions *)

Ltac geom :=
  unfold contains_region, contains, region_bool, intersection, corners, clamp,
    size_region in *;
  simpl in *;
  repeat match goal with
    | H : _ && _ = true |- _ => apply andb_true_iff in H; destruct H
    | H : (_ <=? _) = true |- _ => apply Z.leb_le in H
    | H : (_ <? _) = true |- _ => apply Z.ltb_lt in H
    | |- context [?a <? ?b] => destruct (Z.ltb_spec a b)
    | |- context [?a <=? ?b] => destruct (Z.leb_spec a b)
    | H : context [?a <? ?b] |- _ => destruct (Z.ltb_spec a b)
    | H : context [?a <=? ?b] |- _ => destruct (Z.leb_spec a b)
    end;
  simpl in *; try reflexivity; try discriminate; try lia.

Lemma intersection_in_clip region clip :
  contains_region clip region = true -> intersection region clip = region.
Proof. destruct region, clip. intros H. geom; f_equal; lia. Qed.

Lemma intersection_within region clip screen :
  0 <= reg_width clip -> 0 <= reg_height clip ->
  contains_region screen clip = true ->
  contains_region screen (intersection region clip) = true.
Proof. destruct region, clip, screen. intros Hw Hh H. geom. Qed.

Lemma intersection_crop region clip :
  0 <= reg_width clip -> 0 <= reg_height clip ->
  region_bool region = true ->
  region_bool (intersection region clip) = true ->
  let rr := intersection region clip in
  0 <= reg_x rr - reg_x region /\
  reg_x rr - reg_x region + reg_width rr <= reg_width region /\
  0 <= reg_y rr - reg_y region /\
  reg_y rr - reg_y region + reg_height rr <= reg_height region.
Proof. destruct region, clip. intros Hw Hh Hr Hi. geom. Qed.

Lemma contains_empty region x y :
  region_bool region = false -> contains region x y = false.
Proof. destruct region. intros H. geom. Qed.

(** *** Cropped lines *)

Lemma cell_slice_slice {A : Type} (l : list A) dx n a b :
  0 <= dx -> 0 <= a -> a <= b -> b <= n ->
  cell_slice (cell_slice l dx (dx + n)) a b = cell_slice l (a + dx) (b + dx).
Proof.
  intros Hdx Ha Hab Hb. unfold cell_slice.
  rewrite skipn_firstn_comm, firstn_firstn, skipn_skipn.
  f_equal; [lia|]. f_equal. lia.
Qed.

Lemma cell_slice_all {A : Type} (l : list A) n :
  Z.of_nat (length l) = n -> cell_slice l 0 n = l.
Proof.
  intros H. unfold cell_slice. change (Z.to_nat 0) with O. rewrite skipn_O.
  apply firstn_all2. lia.
Qed.

Lemma cell_slice_length {A : Type} (l : list A) a b :
  0 <= a -> a <= b -> b <= Z.of_nat (length l) ->
  Z.of_nat (length (cell_slice l a b)) = b - a.
Proof.
  intros Ha Hab Hb. unfold cell_slice. rewrite length_firstn, length_skipn. lia.
Qed.

Lemma crop_line (line : Line) dx nw :
  0 <= dx -> 0 < nw -> dx + nw <= Seg.line_length line ->
  exists p : Line,
    Py.index (Seg.divide line [dx; dx + nw]) 1 = Ok p /\
    Seg.line_cells p = cell_slice (Seg.line_cells line) dx (dx + nw).
Proof.
  intros Hdx Hnw Hlen.
  assert (Hs : StronglySorted Z.lt [dx; dx + nw]).
  { repeat constructor. lia. }
  destruct (Z.eq_dec dx 0) as [->|Hne].
  - pose proof (divide_cells_zero line [0 + nw] Hs Hlen) as Hdiv.
    destruct (Seg.divide line [0; 0 + nw]) as [|p0 [|p1 [|p2 ps]]]; try discriminate.
    exists p1. split; [reflexivity|].
    simpl in Hdiv. congruence.
  - pose proof (divide_cells_pos line dx [dx + nw] ltac:(lia) Hs Hlen) as Hdiv.
    destruct (Seg.divide line [dx; dx + nw]) as [|p0 [|p1 [|p2 ps]]]; try discriminate.
    exists p1. split; [reflexivity|].
    simpl in Hdiv. congruence.
Qed.

Lemma map_result_cons {A B : Type} (f : A -> result B) a l :
  map_result f (a :: l) = b ← f a; bs ← map_result f l; Ok (b :: bs).
Proof. reflexivity. Qed.

Lemma crop_lines (ls : Lines) dx nw wd :
  0 <= dx -> 0 < nw -> dx + nw <= wd ->
  Forall (fun l => Seg.line_length l = wd) ls ->
  exists ls' : Lines,
    map_result (fun line => Py.index (Seg.divide line [dx; dx + nw]) 1) ls = Ok ls' /\
    Forall2 (fun l' l => Seg.line_cells l'
                         = cell_slice (Seg.line_cells l) dx (dx + nw)) ls' ls.
Proof.
  intros Hdx Hnw Hwd. induction 1 as [|l ls Hl Hls IH].
  - exists []. split; [reflexivity|constructor].
  - destruct IH as (ls' & Hmap & Hrel).
    destruct (crop_line l dx nw Hdx Hnw ltac:(lia)) as (p & Hp & Hcells).
    exists (p :: ls'). split.
    + rewrite map_result_cons, Hp. cbn [mbind result_bind].
      rewrite Hmap. reflexivity.
    + constructor; auto.
Qed.

Lemma py_slice_valid {A : Type} (l : list A) a b :
  0 <= a -> a <= b -> b <= Z.of_nat (length l) ->
  Py.slice l a b = firstn (Z.to_nat (b - a)) (skipn (Z.to_nat a) l).
Proof.
  intros Ha Hab Hb. unfold Py.slice, Py.clamp_bound.
  destruct (Z.ltb_spec a 0); [lia|]. destruct (Z.ltb_spec b 0); [lia|].
  rewrite !Z.min_l by lia. reflexivity.
Qed.

Lemma In_firstn {A : Type} (l : list A) n x : In x (firstn n l) -> In x l.
Proof.
  intros H. rewrite <- (firstn_skipn n l). apply in_or_app. left. exact H.
Qed.

Lemma In_skipn {A : Type} (l : list A) n x : In x (skipn n l) -> In x l.
Proof.
  intros H. rewrite <- (firstn_skipn n l). apply in_or_app. right. exact H.
Qed.

Lemma Forall_firstn_skipn {A : Type} (P : A -> Prop) (l : list A) n m :
  Forall P l -> Forall P (firstn n (skipn m l)).
Proof.
  intros H. rewrite List.Forall_forall in *. intros x Hx.
  apply H. eapply In_skipn, In_firstn. exact Hx.
Qed.

Lemma lines_fit_spec lines region :
  lines_fit lines region = true <->
  Z.of_nat (length lines) = reg_height region /\
  Forall (fun line => Seg.line_length line = reg_width region) lines.
Proof.
  unfold lines_fit. rewrite andb_true_iff, Z.eqb_eq, forallb_forall, List.Forall_forall.
  split; intros [H1 H2]; (split; [exact H1|]); intros l Hl; specialize (H2 l Hl);
    apply Z.eqb_eq; exact H2.
Qed.

Lemma Forall2_nth_cells (ls' ls : Lines) (R : Line -> Line -> Prop) j :
  Forall2 R ls' ls -> (j < length ls)%nat -> R (nth j ls' []) (nth j ls []).
Proof.
  intros H. revert j. induction H as [|l' l ls' ls Hl H IH]; intros j Hj.
  - simpl in Hj. lia.
  - destruct j as [|j]; simpl; [exact Hl|]. apply IH. simpl in Hj. lia.
Qed.

(** *** One widget *)

Lemma paint_cells_painted cuts widget region order clip (lines' : Lines) g :
  let rr := intersection region clip in
  let dx := reg_x rr - reg_x region in
  let dy := reg_y rr - reg_y region in
  w_is_transparent widget = false ->
  0 <= dx -> 0 <= dy ->
  (forall y, reg_y rr <= y < reg_y rr + reg_height rr ->
             StronglySorted Z.lt (nth (Z.to_nat y) cuts []) /\
             In (reg_x rr + reg_width rr) (nth (Z.to_nat y) cuts [])) ->
  (forall j, 0 <= j < reg_height rr ->
             Seg.line_cells (nth (Z.to_nat j) lines' [])
             = cell_slice
                 (Seg.line_cells (nth (Z.to_nat (j + dy)) (w_get_lines widget) []))
                 dx (dx + reg_width rr)) ->
  forall y k,
    paint_cells cuts rr lines' g y k
    = painted cuts (widget, region, order, clip) g y k.
Proof.
  intros rr dx dy Hop Hdx Hdy Hcuts Hlines y k.
  unfold paint_cells, painted. fold rr. clearbody rr.
  rewrite Hop. unfold contains, paint_bucket.
  destruct (Z.leb_spec (reg_y rr) y) as [Hy1|Hy1];
    destruct (Z.ltb_spec y (reg_y rr + reg_height rr)) as [Hy2|Hy2];
    destruct (Z.leb_spec (reg_x rr) k) as [Hk1|Hk1];
    destruct (Z.ltb_spec k (reg_x rr + reg_width rr)) as [Hk2|Hk2];
    simpl; try reflexivity;
    try (destruct (g y k); reflexivity).
  destruct (g y k) as [cl|]; [reflexivity|].
  destruct (run_of (nth (Z.to_nat y) cuts []) k) as [r|] eqn:Hrun; [|reflexivity].
  f_equal.
  assert (Hyr : reg_y rr <= y < reg_y rr + reg_height rr) by lia.
  destruct (Hcuts y Hyr) as [Hs Hin].
  apply run_of_In in Hrun. destruct Hrun as [Hrin Hfst]. destruct r as [a b].
  simpl in Hfst. subst a.
  destruct (runs_In_sorted _ _ _ Hs Hrin) as (_ & _ & Hab & Hgap).
  destruct (Hgap _ Hin) as [Hle|Hle]; [lia|].
  rewrite (Hlines (y - reg_y rr)) by lia.
  simpl fst. simpl snd.
  rewrite cell_slice_slice by lia.
  replace (y - reg_y rr + dy) with (y - reg_y region) by (unfold dy; lia).
  f_equal; unfold dx; lia.
Qed.

Lemma cuts_row_region c w rr y :
  In (w, rr) (c_map c) ->
  let region := intersection (rr_region rr) (rr_clip rr) in
  region_bool region = true ->
  contains_region (size_region (c_size c)) region = true ->
  reg_y region <= y < reg_y region + reg_height region ->
  In (reg_x region) (cuts_row c y) /\
  In (reg_x region + reg_width region) (cuts_row c y).
Proof.
  intros Hin region Hne Hscreen Hrow.
  assert (Hcuts_rr : region_row_cuts (size_region (c_size c)) rr y
                     = [reg_x region; reg_x region + reg_width region]).
  { unfold region_row_cuts. fold region. clearbody region.
    rewrite Hne, Hscreen.
    destruct (Z.leb_spec (reg_y region) y); [|lia].
    destruct (Z.ltb_spec y (reg_y region + reg_height region)); [|lia].
    reflexivity. }
  split; apply cuts_row_In; right; right; exists w, rr;
    (split; [exact Hin|]); rewrite Hcuts_rr; simpl; auto.
Qed.

Lemma compute_cuts_length c :
  length (compute_cuts c) = Z.to_nat (height (c_size c)).
Proof.
  rewrite compute_cuts_closed, length_map, range_length. f_equal. lia.
Qed.

Lemma compute_cuts_nth_error c y :
  0 <= y < height (c_size c) ->
  nth_error (compute_cuts c) (Z.to_nat y) = Some (cuts_row c y).
Proof.
  intros Hy. rewrite compute_cuts_closed, nth_error_map.
  replace (Z.to_nat y) with (Z.to_nat (y - 0)) by lia.
  rewrite range_nth by lia. reflexivity.
Qed.

Lemma compute_cuts_nth c y :
  0 <= y < height (c_size c) ->
  nth (Z.to_nat y) (compute_cuts c) [] = cuts_row c y.
Proof.
  intros Hy. apply nth_error_nth. apply compute_cuts_nth_error. exact Hy.
Qed.

Lemma compute_cuts_sorted c : Forall (StronglySorted Z.lt) (compute_cuts c).
Proof.
  rewrite compute_cuts_closed. apply List.Forall_forall. intros cs Hin.
  apply in_map_iff in Hin. destruct Hin as [y [<- _]]. apply cuts_row_sorted.
Qed.

Lemma fold_result_app {A S : Type} (f : S -> A -> result S) l1 l2 s :
  fold_result f (l1 ++ l2) s = s' ← fold_result f l1 s; fold_result f l2 s'.
Proof.
  revert s. induction l1 as [|a l1 IH]; intros s; [reflexivity|].
  simpl. destruct (f s a); cbn [mbind result_bind]; [apply IH|reflexivity].
Qed.

Lemma entry_ok_spec screen w rr :
  entry_ok screen (w, rr) = true ->
  w_visible w = true -> w_is_transparent w = false ->
  region_bool (rr_region rr) = true /\
  0 <= reg_width (rr_clip rr) /\ 0 <= reg_height (rr_clip rr) /\
  contains_region screen (rr_clip rr) = true /\
  Z.of_nat (length (w_get_lines w)) = reg_height (rr_region rr) /\
  Forall (fun line => Seg.line_length line = reg_width (rr_region rr))
    (w_get_lines w).
Proof.
  unfold entry_ok. simpl. intros H Hv Ht. rewrite Hv, Ht in H. simpl in H.
  rewrite !andb_true_iff, !Z.leb_le, lines_fit_spec in H. tauto.
Qed.

Lemma within_screen_bounds size region :
  contains_region (size_region size) region = true ->
  0 <= reg_x region /\ reg_x region + reg_width region <= width size /\
  0 <= reg_y region /\ reg_y region + reg_height region <= height size.
Proof.
  intros H. apply contains_region_bounds in H. simpl in H. lia.
Qed.

(** The render of one widget of the map paints exactly what [painted]
    says; a widget that yields no render paints nothing. *)
Lemma paint_widget_spec c (chops : list Chops) g widget rr0 :
  0 <= height (c_size c) ->
  In (widget, rr0) (c_map c) ->
  entry_ok (size_region (c_size c)) (widget, rr0) = true ->
  w_visible widget = true ->
  chops_inv (compute_cuts c) chops g ->
  let t := (widget, rr_region rr0, rr_order rr0, rr_clip rr0) in
  exists chops',
    fold_result (paint_render (compute_cuts c))
      (match render_of t with Some r => [r] | None => [] end) chops
    = Ok chops' /\
    chops_inv (compute_cuts c) chops' (painted (compute_cuts c) t g).
Proof.
  intros Hh Hin Hok Hvis Hinv t. unfold t, render_of.
  destruct (w_is_transparent widget) eqn:Htr.
  { exists chops. split; [reflexivity|].
    eapply chops_inv_ext; [|exact Hinv]. intros y k. unfold painted.
    rewrite Htr. reflexivity. }
  destruct (entry_ok_spec _ _ _ Hok Hvis Htr)
    as (Hne & Hcw & Hch & Hclip & Hlen & Hfit).
  set (region := rr_region rr0) in *. set (clip := rr_clip rr0) in *.
  set (rr := intersection region clip).
  assert (Hscreen : contains_region (size_region (c_size c)) rr = true)
    by (apply intersection_within; auto).
  assert (Hrows : region_bool rr = true ->
                  forall y, reg_y rr <= y < reg_y rr + reg_height rr ->
                    0 <= y < height (c_size c) /\
                    StronglySorted Z.lt (nth (Z.to_nat y) (compute_cuts c) []) /\
                    In (reg_x rr) (nth (Z.to_nat y) (compute_cuts c) []) /\
                    In (reg_x rr + reg_width rr) (nth (Z.to_nat y) (compute_cuts c) [])).
  { intros Hrr y Hy.
    pose proof (within_screen_bounds _ _ Hscreen) as Hb.
    assert (Hyr : 0 <= y < height (c_size c)) by lia.
    rewrite (compute_cuts_nth c y Hyr).
    split; [exact Hyr|]. split; [apply cuts_row_sorted|].
    apply (cuts_row_region c widget rr0 y Hin Hrr Hscreen Hy). }
  assert (Hpaint : region_bool rr = true ->
            forall lines' : Lines,
              Z.of_nat (length lines') = reg_height rr ->
              Forall (fun line => Seg.line_length line = reg_width rr) lines' ->
              (forall j, 0 <= j < reg_height rr ->
                 Seg.line_cells (nth (Z.to_nat j) lines' [])
                 = cell_slice
                     (Seg.line_cells
                        (nth (Z.to_nat (j + (reg_y rr - reg_y region)))
                           (w_get_lines widget) []))
                     (reg_x rr - reg_x region)
                     (reg_x rr - reg_x region + reg_width rr)) ->
              exists chops',
                fold_result (paint_render (compute_cuts c))
                  [Ok (region, clip, lines')] chops = Ok chops' /\
                chops_inv (compute_cuts c) chops'
                  (painted (compute_cuts c)
                     (widget, region, rr_order rr0, clip) g)).
  { intros Hrr lines' Hlen' Hfit' Hcells.
    pose proof (within_screen_bounds _ _ Hscreen) as Hb.
    destruct (intersection_crop region clip Hcw Hch Hne Hrr) as (Hdx & _ & Hdy & _).
    fold rr in Hdx, Hdy.
    assert (Hrw : 0 < reg_width rr).
    { unfold region_bool in Hrr. apply andb_true_iff in Hrr.
      destruct Hrr as [Hrr _]. apply Z.ltb_lt in Hrr. exact Hrr. }
    destruct (paint_render_spec (compute_cuts c) chops g region clip lines')
      as (chops' & Hfold & Hinv'); fold rr; auto.
    - apply compute_cuts_sorted.
    - lia.
    - rewrite compute_cuts_length. lia.
    - intros y Hy. destruct (Hrows Hrr y Hy) as (_ & _ & H1 & H2). auto.
    - exists chops'. split.
      + rewrite fold_result_cons, Hfold. reflexivity.
      + eapply chops_inv_ext; [|exact Hinv']. fold rr.
        apply paint_cells_painted; fold rr; auto.
        intros y Hy. destruct (Hrows Hrr y Hy) as (_ & H0 & _ & H2). auto. }
  destruct (contains_region clip region) eqn:Hcontained.
  - assert (Hrr_eq : rr = region) by (apply intersection_in_clip; exact Hcontained).
    apply Hpaint.
    + rewrite Hrr_eq. exact Hne.
    + rewrite Hrr_eq. exact Hlen.
    + rewrite Hrr_eq. exact Hfit.
    + rewrite Hrr_eq. intros j Hj.
      replace (j + (reg_y region - reg_y region)) with j by lia.
      replace (reg_x region - reg_x region) with 0 by lia.
      rewrite cell_slice_all; [reflexivity|].
      assert (Hnth : In (nth (Z.to_nat j) (w_get_lines widget) [])
                       (w_get_lines widget)) by (apply nth_In; lia).
      rewrite List.Forall_forall in Hfit. apply (Hfit _ Hnth).
  - unfold overlaps. fold rr.
    destruct (region_bool rr) eqn:Hrr.
    + destruct (intersection_crop region clip Hcw Hch Hne Hrr)
        as (Hdx & Hdxw & Hdy & Hdyh). fold rr in Hdx, Hdxw, Hdy, Hdyh.
      assert (Hrw : 0 < reg_width rr /\ 0 < reg_height rr).
      { unfold region_bool in Hrr. apply andb_true_iff in Hrr.
        rewrite !Z.ltb_lt in Hrr. exact Hrr. }
      rewrite py_slice_valid by lia.
      destruct (crop_lines
                  (firstn (Z.to_nat (reg_y rr - reg_y region + reg_height rr
                                     - (reg_y rr - reg_y region)))
                     (skipn (Z.to_nat (reg_y rr - reg_y region))
                        (w_get_lines widget)))
                  (reg_x rr - reg_x region) (reg_width rr) (reg_width region))
        as (lines' & Hmap & Hrel); try lia.
      { apply Forall_firstn_skipn. exact Hfit. }
      rewrite Hmap. cbn [mbind result_bind].
      assert (Hlen' : length lines'
                      = Z.to_nat (reg_height rr)).
      { apply Forall2_length in Hrel. rewrite Hrel.
        rewrite length_firstn, length_skipn. lia. }
      apply Hpaint; auto.
      * lia.
      * rewrite List.Forall_forall. intros l' Hl'.
        destruct (In_nth _ _ ([] : Line) Hl') as (j & Hj & <-).
        pose proof (Forall2_nth_cells _ _ _ j Hrel) as Hcj.
        cbv beta in Hcj. unfold Seg.line_length. rewrite Hcj.
        2:{ apply Forall2_length in Hrel. lia. }
        rewrite cell_slice_length; [lia|lia|lia|].
        assert (Hin' : In (nth j (firstn
                              (Z.to_nat (reg_y rr - reg_y region + reg_height rr
                                         - (reg_y rr - reg_y region)))
                              (skipn (Z.to_nat (reg_y rr - reg_y region))
                                 (w_get_lines widget))) [])
                         (w_get_lines widget)).
        { eapply In_skipn, In_firstn. apply nth_In.
          apply Forall2_length in Hrel. lia. }
        rewrite List.Forall_forall in Hfit. specialize (Hfit _ Hin').
        unfold Seg.line_length in Hfit. lia.
      * intros j Hj.
        pose proof (Forall2_nth_cells _ _ _ (Z.to_nat j) Hrel) as Hcj.
        cbv beta in Hcj. rewrite Hcj.
        2:{ apply Forall2_length in Hrel. lia. }
        f_equal. f_equal.
        rewrite nth_firstn.
        destruct (Nat.ltb_spec (Z.to_nat j)
                    (Z.to_nat (reg_y rr - reg_y region + reg_height rr
                               - (reg_y rr - reg_y region)))); [|lia].
        rewrite nth_skipn. f_equal. lia.
    + exists chops. split; [reflexivity|].
      eapply chops_inv_ext; [|exact Hinv]. intros y k. unfold painted.
      fold rr. rewrite (contains_empty rr k y Hrr), andb_false_r. reflexivity.
Qed.

(** *** The fill as a whole *)

Lemma sorted_reverse_In {A K : Type} (key : A -> K) (ltb : K -> K -> bool) l x :
  In x (Py.sorted_reverse key ltb l) <-> In x l.
Proof.
  assert (Hins : forall a l', In x (Py.insert_desc key ltb a l') <-> x = a \/ In x l').
  { intros a l'. induction l' as [|b l' IH]; simpl.
    - intuition.
    - destruct (ltb (key a) (key b)); simpl; rewrite ?IH; intuition. }
  induction l as [|a l IH]; simpl; [tauto|].
  unfold Py.sorted_reverse in *. rewrite Hins, IH. intuition.
Qed.

Lemma widget_regions_In c t :
  In t (widget_regions c) <->
  exists w rr,
    In (w, rr) (c_map c) /\ w_visible w = true /\
    t = (w, rr_region rr, rr_order rr, rr_clip rr).
Proof.
  unfold widget_regions.
  assert (H : In t (Py.sorted_reverse
                      (fun t : Widget * Region * list Z * Region => snd (fst t))
                      Py.tuple_ltb
                      (List.map
                         (fun '(widget, rr) =>
                            (widget, rr_region rr, rr_order rr, rr_clip rr))
                         (List.filter (fun kv => w_visible (fst kv)) (c_map c))))
              <-> exists w rr,
                    In (w, rr) (c_map c) /\ w_visible w = true /\
                    t = (w, rr_region rr, rr_order rr, rr_clip rr)).
  { rewrite sorted_reverse_In, in_map_iff. split.
    - intros [[w rr] [<- Hin]]. apply filter_In in Hin. exists w, rr. tauto.
    - intros (w & rr & Hin & Hv & ->). exists (w, rr). split; [reflexivity|].
      apply filter_In. auto. }
  destruct (c_map c) eqn:E; [|exact H].
  split; [intros []|]. intros (w & rr & [] & _).
Qed.

Lemma omap_cons_app {A B : Type} (f : A -> option B) x (l : list A) :
  omap f (x :: l)
  = match f x with Some y => [y] | None => [] end ++ omap f l.
Proof. simpl. destruct (f x); reflexivity. Qed.

Lemma fill_spec c :
  0 <= height (c_size c) ->
  forallb (entry_ok (size_region (c_size c))) (c_map c) = true ->
  forall wrs (chops : list Chops) g,
    (forall t, In t wrs -> In t (widget_regions c)) ->
    chops_inv (compute_cuts c) chops g ->
    exists chops',
      fold_result (paint_render (compute_cuts c)) (omap render_of wrs) chops
      = Ok chops' /\
      chops_inv (compute_cuts c) chops'
        (fold_left (fun g t => painted (compute_cuts c) t g) wrs g).
Proof.
  intros Hh Hok. induction wrs as [|t wrs IH]; intros chops g Hin Hinv.
  - exists chops. split; [reflexivity|exact Hinv].
  - assert (Ht : In t (widget_regions c)) by (apply Hin; left; reflexivity).
    apply widget_regions_In in Ht. destruct Ht as (w & rr & Hmap & Hvis & ->).
    assert (Hentry : entry_ok (size_region (c_size c)) (w, rr) = true).
    { rewrite forallb_forall in Hok. apply Hok. exact Hmap. }
    destruct (paint_widget_spec c chops g w rr Hh Hmap Hentry Hvis Hinv)
      as (chops1 & Hfold1 & Hinv1).
    destruct (IH chops1 _ (fun t Ht => Hin t (or_intror Ht)) Hinv1)
      as (chops' & Hfold & Hinv').
    exists chops'. split; [|exact Hinv'].
    rewrite omap_cons_app, fold_result_app, Hfold1. exact Hfold.
Qed.

Lemma fold_painted cuts wrs : forall g y k,
  fold_left (fun g t => painted cuts t g) wrs g y k
  = match g y k with
    | Some cl => Some cl
    | None =>
        match run_of (nth (Z.to_nat y) cuts []) k with
        | Some r =>
            match List.find
                    (fun t : Widget * Region * list Z * Region =>
                       negb (w_is_transparent (fst (fst (fst t))))
                       && contains (intersection (snd (fst (fst t))) (snd t)) k y)
                    wrs with
            | Some t =>
                Some (cell_slice
                        (Seg.line_cells
                           (nth (Z.to_nat (y - reg_y (snd (fst (fst t)))))
                              (w_get_lines (fst (fst (fst t)))) []))
                        (fst r - reg_x (snd (fst (fst t))))
                        (snd r - reg_x (snd (fst (fst t)))))
            | None => None
            end
        | None => None
        end
    end.
Proof.
  induction wrs as [|[[[w region] order] clip] wrs IH]; intros g y k.
  - simpl. destruct (g y k); [reflexivity|].
    destruct (run_of (nth (Z.to_nat y) cuts []) k); reflexivity.
  - simpl fold_left. rewrite IH. rewrite find_cons_eq. simpl fst. simpl snd.
    unfold painted at 1.
    destruct (negb (w_is_transparent w) && contains (intersection region clip) k y).
    + destruct (g y k) as [cl|]; [reflexivity|].
      destruct (run_of (nth (Z.to_nat y) cuts []) k); reflexivity.
    + reflexivity.
Qed.

Lemma chop_get_fromkeys cs k :
  In k cs -> chop_get (List.map (fun k => (k, @None Line)) cs) k = Some None.
Proof.
  induction cs as [|a cs IH]; intros Hin; [destruct Hin|].
  simpl. destruct (Z.eqb_spec a k); [reflexivity|].
  apply IH. destruct Hin; [contradiction|assumption].
Qed.

Lemma chops_init c :
  chops_inv (compute_cuts c) (List.map fromkeys (compute_cuts c))
    (fun _ _ => None).
Proof.
  split; [apply length_map|].
  intros y cs d Hy Hcs Hd. rewrite nth_error_map, Hcs in Hd. simpl in Hd.
  inversion Hd; subst d.
  assert (Hs : StronglySorted Z.lt cs).
  { pose proof (compute_cuts_sorted c) as Hall.
    rewrite List.Forall_forall in Hall. apply Hall.
    eapply nth_error_In. exact Hcs. }
  rewrite fromkeys_sorted by (apply sorted_NoDup; exact Hs).
  split.
  - rewrite List.map_map. simpl. apply List.map_id.
  - intros k Hk. unfold bucket_cells. rewrite chop_get_fromkeys by exact Hk.
    reflexivity.
Qed.

Lemma assemble_row (d : Chops) : forall cs gk,
  List.map fst d = cs -> List.NoDup cs ->
  (forall k, In k cs -> bucket_cells d k = Some (gk k)) ->
  Seg.line_cells
    (List.concat (omap (fun kv : Z * option Line => snd kv) d))
  = flat_map (fun k => default [] (gk k)) cs.
Proof.
  induction d as [|[k0 v0] d IH]; intros cs gk Hkeys Hnd Hval.
  - simpl in Hkeys. subst cs. reflexivity.
  - simpl in Hkeys. subst cs. inversion Hnd as [|? ? Hnot Hnd']; subst.
    assert (H0 : bucket_cells ((k0, v0) :: d) k0 = Some (gk k0))
      by (apply Hval; left; reflexivity).
    unfold bucket_cells in H0. simpl in H0. rewrite Z.eqb_refl in H0.
    simpl in H0. inversion H0 as [Hg0].
    assert (Hrest : Seg.line_cells
                      (List.concat (omap (fun kv : Z * option Line => snd kv) d))
                    = flat_map (fun k => default [] (gk k)) (List.map fst d)).
    { apply IH; auto. intros k Hk.
      rewrite <- (Hval k (or_intror Hk)). unfold bucket_cells. simpl.
      destruct (Z.eqb_spec k0 k); [subst; contradiction|reflexivity]. }
    simpl flat_map. rewrite <- Hrest, <- Hg0.
    rewrite omap_cons_app. simpl snd.
    destruct v0 as [l|]; simpl.
    + rewrite line_cells_app. reflexivity.
    + reflexivity.
Qed.

Lemma paint_line_length cuts rr (chops chops' : list Chops) yl :
  paint_line cuts rr chops yl = Ok chops' -> length chops' = length chops.
Proof.
  destruct yl as [y line]. unfold paint_line. destruct (x_extents rr) as [a b].
  destruct (Py.index cuts y); [|discriminate]. cbn [mbind result_bind].
  match goal with
  | |- context [mbind _ ?r] => destruct r; [|discriminate]
  end.
  cbn [mbind result_bind].
  destruct (Py.index chops y); [|discriminate]. cbn [mbind result_bind].
  match goal with
  | |- context [fold_result ?f ?l ?s] => destruct (fold_result f l s); [|discriminate]
  end.
  cbn [mbind result_bind]. intros H. inversion H. unfold list_assign.
  apply length_insert.
Qed.

Lemma fold_result_length {A S : Type} (f : S -> A -> result S) (m : S -> nat) :
  (forall s a s', f s a = Ok s' -> m s' = m s) ->
  forall l s s', fold_result f l s = Ok s' -> m s' = m s.
Proof.
  intros Hf. induction l as [|a l IH]; intros s s' H.
  - inversion H. reflexivity.
  - simpl in H. destruct (f s a) as [s1|] eqn:E; [|discriminate].
    cbn [mbind result_bind] in H. rewrite (IH _ _ H). eapply Hf. exact E.
Qed.

Lemma paint_render_length cuts (chops chops' : list Chops) r :
  paint_render cuts chops r = Ok chops' -> length chops' = length chops.
Proof.
  unfold paint_render. destruct r as [[[region clip] lines]|e]; [|discriminate].
  cbn [mbind result_bind].
  apply (fold_result_length (paint_line cuts (intersection region clip))
           (fun s => length s)).
  intros s a s'. apply paint_line_length.
Qed.

Lemma fill_length c chops :
  fill c = Ok chops -> length chops = Z.to_nat (height (c_size c)).
Proof.
  unfold fill. intros H.
  apply (fold_result_length (paint_render (compute_cuts c)) (fun s => length s)) in H.
  - rewrite H, length_map. apply compute_cuts_length.
  - intros s a s'. apply paint_render_length.
Qed.

Lemma cuts_of_valid c :
  cuts_cache_valid c ->
  snd (cuts c) = compute_cuts c /\
  c_map (fst (cuts c)) = c_map c /\ c_size (fst (cuts c)) = c_size c.
Proof.
  unfold cuts_cache_valid, cuts. destruct (c_cuts c); intros H; auto.
Qed.

Lemma assemble_slice (chops : list Chops) a b :
  _assemble_chops (Py.slice chops a b) = Py.slice (_assemble_chops chops) a b.
Proof.
  unfold _assemble_chops, Py.slice. rewrite length_map, skipn_map, firstn_map.
  reflexivity.
Qed.

Lemma py_slice_all {A : Type} (l : list A) n :
  Z.of_nat (length l) = n -> Py.slice l 0 n = l.
Proof.
  intros H. rewrite py_slice_valid by lia.
  change (Z.to_nat 0) with O. rewrite skipn_O. apply firstn_all2. lia.
Qed.

(** [render] is the fill followed by the assembly of the rows of the
    crop region. *)
Lemma render_unfold c crop :
  cuts_cache_valid c ->
  snd (render c crop)
  = chops ← fill c;
    match crop with
    | Some cr => crop_view c cr (_assemble_chops chops)
    | None => Ok (_assemble_chops chops)
    end.
Proof.
  intros Hvalid. unfold render, fill.
  destruct (cuts_of_valid c Hvalid) as (Hcuts & Hmap & Hsize).
  destruct (cuts c) as [c' cs] eqn:Ec. simpl in Hcuts, Hmap, Hsize. subst cs.
  simpl snd.
  assert (Hren : _get_renders c' = _get_renders c).
  { unfold _get_renders, widget_regions. rewrite Hmap. reflexivity. }
  rewrite Hren.
  destruct (fold_result (paint_render (compute_cuts c)) (_get_renders c)
              (List.map fromkeys (compute_cuts c))) as [chops|e] eqn:Efill;
    [|reflexivity].
  cbn [mbind result_bind].
  assert (Hlen : length chops = Z.to_nat (height (c_size c)))
    by (apply fill_length; exact Efill).
  destruct crop as [cr|].
  - unfold crop_view, corners. simpl.
    rewrite assemble_slice. reflexivity.
  - unfold corners. simpl.
    destruct (Z.leb_spec 0 (height (c_size c))).
    + rewrite py_slice_all by lia. reflexivity.
    + assert (chops = []) by (destruct chops; [reflexivity|simpl in Hlen; lia]).
      subst chops. unfold Py.slice. rewrite skipn_nil, firstn_nil. reflexivity.
Qed.

Lemma renderable_spec c :
  renderable c = true ->
  0 <= width (c_size c) /\ 0 <= height (c_size c) /\
  forallb (entry_ok (size_region (c_size c))) (c_map c) = true /\
  cuts_cache_valid c.
Proof.
  unfold renderable, cuts_cache_valid. rewrite !andb_true_iff, !Z.leb_le.
  intros [[[Hw Hh] Hok] Hc]. repeat split; auto.
  destruct (c_cuts c); [|exact I]. apply bool_decide_eq_true in Hc. exact Hc.
Qed.

(** The fill of a renderable compositor succeeds, and the cells of each
    assembled row are those of [row_cells]. *)
Lemma fill_rows c :
  renderable c = true ->
  exists chops,
    fill c = Ok chops /\
    length (_assemble_chops chops) = Z.to_nat (height (c_size c)) /\
    forall y, 0 <= y < height (c_size c) ->
      Seg.line_cells (nth (Z.to_nat y) (_assemble_chops chops) []) = row_cells c y.
Proof.
  intros Hren. destruct (renderable_spec c Hren) as (Hw & Hh & Hok & Hvalid).
  destruct (fill_spec c Hh Hok (widget_regions c)
              (List.map fromkeys (compute_cuts c)) (fun _ _ => None)
              (fun t Ht => Ht) (chops_init c)) as (chops & Hfill & Hinv).
  exists chops. split; [exact Hfill|].
  destruct Hinv as [Hlen Hrows].
  split.
  { unfold _assemble_chops. rewrite length_map, <- compute_cuts_length. exact Hlen. }
  intros y Hy.
  pose proof (compute_cuts_nth_error c y Hy) as Hcs.
  assert (Hd : exists d : Chops, nth_error chops (Z.to_nat y) = Some d).
  { destruct (nth_error chops (Z.to_nat y)) eqn:E; [eauto|].
    apply nth_error_None in E. rewrite Hlen, compute_cuts_length in E. lia. }
  destruct Hd as [d Hd].
  destruct (Hrows y (cuts_row c y) d ltac:(lia) Hcs Hd) as [Hkeys Hvals].
  unfold _assemble_chops.
  rewrite (nth_error_nth_default
             (List.map _ chops) (Z.to_nat y)
             (List.concat (omap (fun kv : Z * option Line => snd kv) d)) []).
  2:{ rewrite nth_error_map, Hd. reflexivity. }
  rewrite (assemble_row d (cuts_row c y)
             (fold_left (fun g t => painted (compute_cuts c) t g)
                (widget_regions c) (fun _ _ => None) y) Hkeys
             (sorted_NoDup _ (cuts_row_sorted c y)) Hvals).
  unfold row_cells. apply flat_map_ext. intros k.
  rewrite fold_painted, (compute_cuts_nth c y Hy). reflexivity.
Qed.

(** The full render of a renderable compositor returns one line per
    screen row, with the cells of [row_cells]. *)
Lemma render_rows c :
  renderable c = true ->
  exists lines : Lines,
    snd (render c None) = Ok lines /\
    length lines = Z.to_nat (height (c_size c)) /\
    forall y, 0 <= y < height (c_size c) ->
      Seg.line_cells (nth (Z.to_nat y) lines []) = row_cells c y.
Proof.
  intros Hren. destruct (fill_rows c Hren) as (chops & Hfill & Hlen & Hrows).
  destruct (renderable_spec c Hren) as (_ & _ & _ & Hvalid).
  exists (_assemble_chops chops).
  rewrite (render_unfold c None Hvalid), Hfill. auto.
Qed.

(** *** Covered rows *)

Lemma run_of_last cs d :
  StronglySorted Z.lt cs -> run_of cs (List.last cs d) = None.
Proof.
  intros Hs. unfold run_of. apply find_none_intro. intros [a b] Hin.
  simpl. apply Z.eqb_neq. intros ->.
  destruct (runs_In_sorted _ _ _ Hs Hin) as (Ha & Hb & Hab & _).
  assert (Hmax : forall v, In v cs -> v <= List.last cs d).
  { clear - Hs. induction Hs as [|a cs Hs IH Ha]; intros v Hv; [destruct Hv|].
    destruct cs as [|b cs']; [destruct Hv as [->|[]]; simpl; lia|].
    change (List.last (a :: b :: cs') d) with (List.last (b :: cs') d).
    destruct Hv as [->|Hv]; [|apply IH; exact Hv].
    inversion Ha as [|? ? Hab _]; subst.
    specialize (IH b (or_introl eq_refl)). lia. }
  specialize (Hmax b Hb). lia.
Qed.

Lemma run_of_Some cs a b :
  StronglySorted Z.lt cs -> In (a, b) (runs cs) -> run_of cs a = Some (a, b).
Proof.
  intros Hs. unfold run_of.
  induction Hs as [|c cs Hs IH Hc]; intros Hin; [destruct Hin|].
  destruct cs as [|c' cs']; [destruct Hin|].
  rewrite runs_cons in *. rewrite find_cons_eq. simpl fst.
  destruct Hin as [Heq|Hin].
  - inversion Heq; subst. rewrite Z.eqb_refl. reflexivity.
  - destruct (Z.eqb_spec c a) as [->|Hne]; [|apply IH; exact Hin].
    destruct (runs_In_sorted _ _ _ Hs Hin) as (Ha & _).
    rewrite List.Forall_forall in Hc. specialize (Hc a Ha). lia.
Qed.

Lemma runs_cover cs x :
  StronglySorted Z.lt cs ->
  (exists c0, hd_error cs = Some c0 /\ c0 <= x) -> x < List.last cs 0 ->
  exists a b, In (a, b) (runs cs) /\ a <= x < b.
Proof.
  intros Hs. induction Hs as [|c cs Hs IH Hc]; intros [c0 [Hhd Hle]] Hlast;
    [discriminate|].
  simpl in Hhd. inversion Hhd; subst c0.
  destruct cs as [|c' cs']; [simpl in Hlast; lia|].
  change (List.last (c :: c' :: cs') 0) with (List.last (c' :: cs') 0) in Hlast.
  destruct (Z.lt_ge_cases x c') as [Hx|Hx].
  - exists c, c'. split; [left; reflexivity|lia].
  - destruct IH as (a & b & Hin & Hab); [exists c'; auto|exact Hlast|].
    exists a, b. split; [right; exact Hin|exact Hab].
Qed.

Lemma flat_map_runs_length {A : Type} (f : Z -> list A) cs :
  cs <> [] ->
  (forall a b, In (a, b) (runs cs) -> Z.of_nat (length (f a)) = b - a) ->
  f (List.last cs 0) = [] ->
  Z.of_nat (length (flat_map f cs)) = List.last cs 0 - hd 0 cs.
Proof.
  induction cs as [|a cs IH]; [congruence|]. intros _ Hruns Hlast.
  destruct cs as [|b cs'].
  - simpl in *. rewrite Hlast. simpl. lia.
  - change (List.last (a :: b :: cs') 0) with (List.last (b :: cs') 0) in *.
    change (flat_map f (a :: b :: cs')) with (f a ++ flat_map f (b :: cs')).
    rewrite length_app, Nat2Z.inj_add, IH; [| congruence | | exact Hlast].
    + rewrite (Hruns a b) by (left; reflexivity). simpl. lia.
    + intros a' b' Hin. apply Hruns. right. exact Hin.
Qed.

Lemma flat_map_runs_nth {A : Type} (f : Z -> list A) cs x a b :
  StronglySorted Z.lt cs ->
  In (a, b) (runs cs) -> a <= x ->
  (Z.to_nat (x - a) < length (f a))%nat ->
  (forall a' b', In (a', b') (runs cs) -> a' < a ->
                 Z.of_nat (length (f a')) = b' - a') ->
  nth_error (flat_map f cs) (Z.to_nat (x - hd 0 cs))
  = nth_error (f a) (Z.to_nat (x - a)).
Proof.
  intros Hs. induction Hs as [|c cs Hs IH Hc]; intros Hin Hax Hlen Hleft;
    [destruct Hin|].
  destruct cs as [|c' cs']; [destruct Hin|].
  rewrite runs_cons in Hin.
  change (flat_map f (c :: c' :: cs')) with (f c ++ flat_map f (c' :: cs')).
  simpl hd.
  destruct Hin as [Heq|Hin].
  - inversion Heq; subst. apply nth_error_app1. exact Hlen.
  - destruct (runs_In_sorted _ _ _ Hs Hin) as (Ha & _).
    inversion Hc as [|? ? Hcc' Hc']; subst.
    assert (Hca : c' <= a).
    { destruct Ha as [->|Ha]; [lia|].
      inversion Hs as [|? ? _ Hall]; subst.
      rewrite List.Forall_forall in Hall. specialize (Hall a Ha). lia. }
    assert (Hfc : Z.of_nat (length (f c)) = c' - c).
    { apply Hleft; [left; reflexivity|lia]. }
    rewrite nth_error_app2 by lia.
    replace (Z.to_nat (x - c) - length (f c))%nat with (Z.to_nat (x - c')) by lia.
    apply IH; auto.
    intros a' b' Hin' Hlt. apply Hleft; [right; exact Hin'|exact Hlt].
Qed.

(** *** The front widget of a cell *)

Lemma tuple_ltb_asym a : forall b,
  Py.tuple_ltb a b = true -> Py.tuple_ltb b a = false.
Proof.
  induction a as [|x a IH]; intros [|y b]; simpl; try congruence.
  destruct (Z.ltb_spec x y); destruct (Z.ltb_spec y x); try lia; try congruence.
  apply IH.
Qed.

Lemma tuple_ltb_ge_trans a : forall b c,
  Py.tuple_ltb a b = false -> Py.tuple_ltb b c = false ->
  Py.tuple_ltb a c = false.
Proof.
  induction a as [|x a IH]; intros [|y b] [|z c]; simpl; try congruence.
  destruct (Z.ltb_spec x y); destruct (Z.ltb_spec y x);
    destruct (Z.ltb_spec y z); destruct (Z.ltb_spec z y);
    destruct (Z.ltb_spec x z); destruct (Z.ltb_spec z x);
    try lia; try congruence.
  apply IH.
Qed.

Lemma sorted_reverse_sorted {A : Type} (key : A -> list Z) (l : list A) :
  StronglySorted (fun a b => Py.tuple_ltb (key a) (key b) = false)
    (Py.sorted_reverse key Py.tuple_ltb l).
Proof.
  assert (Hins : forall x l',
             StronglySorted (fun a b => Py.tuple_ltb (key a) (key b) = false) l' ->
             StronglySorted (fun a b => Py.tuple_ltb (key a) (key b) = false)
               (Py.insert_desc key Py.tuple_ltb x l')).
  { intros x l' Hs. induction Hs as [|y l' Hs IH Hy]; simpl.
    - repeat constructor.
    - destruct (Py.tuple_ltb (key x) (key y)) eqn:E.
      + constructor; [exact IH|].
        rewrite List.Forall_forall in *. intros z Hz.
        assert (Hz' : z = x \/ In z l').
        { clear - Hz. induction l' as [|b l' IHl]; simpl in Hz.
          - destruct Hz as [<-|[]]. auto.
          - destruct (Py.tuple_ltb (key x) (key b)); simpl in Hz.
            + destruct Hz as [<-|Hz]; [right; left; reflexivity|].
              destruct (IHl Hz); auto. right. right. assumption.
            + destruct Hz as [<-|Hz]; auto. }
        destruct Hz' as [->|Hz']; [apply tuple_ltb_asym; exact E|auto].
      + constructor; [constructor; auto|].
        constructor; [exact E|].
        rewrite List.Forall_forall in *. intros z Hz.
        eapply tuple_ltb_ge_trans; [exact E|auto]. }
  induction l as [|a l IH]; simpl; [constructor|].
  apply Hins. exact IH.
Qed.

Lemma sorted_app_r {A : Type} (R : A -> A -> Prop) l1 l2 :
  StronglySorted R (l1 ++ l2) -> StronglySorted R l2.
Proof.
  induction l1 as [|a l1 IH]; simpl; [auto|].
  intros H. apply StronglySorted_inv in H. tauto.
Qed.

Lemma find_split {A : Type} (p : A -> bool) l t :
  List.find p l = Some t ->
  exists pre post,
    l = pre ++ t :: post /\ p t = true /\ Forall (fun u => p u = false) pre.
Proof.
  induction l as [|a l IH]; [discriminate|].
  rewrite find_cons_eq. destruct (p a) eqn:E.
  - intros H. inversion H; subst. exists [], l. auto.
  - intros H. destruct (IH H) as (pre & post & -> & Hp & Hpre).
    exists (a :: pre), post. auto.
Qed.

Lemma find_ext_in {A : Type} (p q : A -> bool) l :
  (forall u, In u l -> p u = q u) -> List.find p l = List.find q l.
Proof.
  induction l as [|a l IH]; intros H; [reflexivity|].
  rewrite !find_cons_eq, (H a (or_introl eq_refl)).
  destruct (q a); [reflexivity|]. apply IH. intros u Hu. apply H. right. exact Hu.
Qed.

Lemma find_is_Some {A : Type} (p : A -> bool) l a :
  In a l -> p a = true -> exists t, List.find p l = Some t.
Proof.
  intros Hin Hp. destruct (List.find p l) eqn:E; [eauto|].
  pose proof (find_none _ _ E a Hin). congruence.
Qed.

Lemma front_inv c x y t :
  front c x y = Some t ->
  exists w rr,
    In (w, rr) (c_map c) /\ w_visible w = true /\ w_is_transparent w = false /\
    contains (intersection (rr_region rr) (rr_clip rr)) x y = true /\
    t = (w, rr_region rr, rr_order rr, rr_clip rr).
Proof.
  unfold front. intros H. apply find_some in H. destruct H as [Hin Hp].
  apply widget_regions_In in Hin. destruct Hin as (w & rr & Hmap & Hvis & ->).
  simpl in Hp. apply andb_true_iff in Hp. destruct Hp as [Ht Hc].
  exists w, rr. repeat split; auto.
  destruct (w_is_transparent w); [discriminate|reflexivity].
Qed.

(** The widget with the greatest order among those painted at a cell is
    the front widget of the cell. *)
Lemma front_by_order c x y A rrA :
  In (A, rrA) (c_map c) ->
  w_visible A = true -> w_is_transparent A = false ->
  contains (intersection (rr_region rrA) (rr_clip rrA)) x y = true ->
  (forall B rrB,
      In (B, rrB) (c_map c) ->
      w_visible B = true -> w_is_transparent B = false ->
      contains (intersection (rr_region rrB) (rr_clip rrB)) x y = true ->
      (B, rrB) = (A, rrA) \/
      Py.tuple_ltb (rr_order rrB) (rr_order rrA) = true) ->
  front c x y = Some (A, rr_region rrA, rr_order rrA, rr_clip rrA).
Proof.
  intros Hin Hvis Hop Hcont Hfront.
  set (tA := (A, rr_region rrA, rr_order rrA, rr_clip rrA)).
  assert (HtA : In tA (widget_regions c)).
  { apply widget_regions_In. exists A, rrA. auto. }
  destruct (find_is_Some
              (fun t : Widget * Region * list Z * Region =>
                 negb (w_is_transparent (fst (fst (fst t))))
                 && contains (intersection (snd (fst (fst t))) (snd t)) x y)
              (widget_regions c) tA HtA) as [t0 Hfind].
  { simpl. rewrite Hop, Hcont. reflexivity. }
  unfold front. rewrite Hfind. f_equal.
  pose proof Hfind as Hfind'. apply front_inv in Hfind'.
  destruct Hfind' as (B & rrB & HB & HBv & HBt & HBc & ->).
  destruct (Hfront B rrB HB HBv HBt HBc) as [Heq|Hlt].
  { inversion Heq; subst. reflexivity. }
  exfalso.
  destruct (find_split _ _ _ Hfind) as (pre & post & Hsplit & _ & Hpre).
  assert (Hpost : In tA post).
  { rewrite Hsplit in HtA. apply in_app_or in HtA.
    destruct HtA as [HtA|[HtA|HtA]]; [| |exact HtA].
    - rewrite List.Forall_forall in Hpre. specialize (Hpre tA HtA).
      simpl in Hpre. rewrite Hop, Hcont in Hpre. discriminate.
    - assert (Ho : rr_order rrB = rr_order rrA) by (unfold tA in HtA; congruence).
      rewrite Ho in Hlt. pose proof (tuple_ltb_asym _ _ Hlt). congruence. }
  assert (Hsorted := sorted_reverse_sorted
                       (fun t : Widget * Region * list Z * Region => snd (fst t))
                       (List.map
                          (fun '(widget, rr) =>
                             (widget, rr_region rr, rr_order rr, rr_clip rr))
                          (List.filter (fun kv => w_visible (fst kv)) (c_map c)))).
  assert (Hwr : widget_regions c
                = Py.sorted_reverse
                    (fun t : Widget * Region * list Z * Region => snd (fst t))
                    Py.tuple_ltb
                    (List.map
                       (fun '(widget, rr) =>
                          (widget, rr_region rr, rr_order rr, rr_clip rr))
                       (List.filter (fun kv => w_visible (fst kv)) (c_map c)))).
  { unfold widget_regions. destruct (c_map c); reflexivity. }
  rewrite <- Hwr, Hsplit in Hsorted.
  apply sorted_app_r in Hsorted.
  inversion Hsorted as [|? ? _ Hall]; subst.
  rewrite List.Forall_forall in Hall. specialize (Hall tA Hpost).
  simpl in Hall. congruence.
Qed.

Lemma contains_spec region x y :
  contains region x y = true <->
  reg_x region <= x < reg_x region + reg_width region /\
  reg_y region <= y < reg_y region + reg_height region.
Proof.
  unfold contains. rewrite !andb_true_iff, !Z.leb_le, !Z.ltb_lt. lia.
Qed.

Lemma contains_region_bool region x y :
  contains region x y = true -> region_bool region = true.
Proof.
  rewrite contains_spec. unfold region_bool.
  rewrite andb_true_iff, !Z.ltb_lt. lia.
Qed.

(** What is known of a painted entry at a cell of its clipped region. *)
Lemma painted_entry_facts c w rr x y :
  forallb (entry_ok (size_region (c_size c))) (c_map c) = true ->
  In (w, rr) (c_map c) ->
  w_visible w = true -> w_is_transparent w = false ->
  contains (intersection (rr_region rr) (rr_clip rr)) x y = true ->
  let region := rr_region rr in
  let ir := intersection (rr_region rr) (rr_clip rr) in
  0 <= y < height (c_size c) /\ 0 <= x < width (c_size c) /\
  In (reg_x ir) (cuts_row c y) /\
  In (reg_x ir + reg_width ir) (cuts_row c y) /\
  reg_x region <= reg_x ir /\
  reg_x ir + reg_width ir <= reg_x region + reg_width region /\
  reg_y region <= y < reg_y region + reg_height region /\
  Seg.line_length (nth (Z.to_nat (y - reg_y region)) (w_get_lines w) [])
  = reg_width region.
Proof.
  intros Hok Hin Hvis Hop Hcont region ir.
  assert (Hentry : entry_ok (size_region (c_size c)) (w, rr) = true).
  { rewrite forallb_forall in Hok. apply Hok. exact Hin. }
  destruct (entry_ok_spec _ _ _ Hentry Hvis Hop)
    as (Hne & Hcw & Hch & Hclip & Hlen & Hfit).
  fold region in Hne, Hlen, Hfit.
  assert (Hir : region_bool ir = true) by (eapply contains_region_bool; exact Hcont).
  assert (Hscreen : contains_region (size_region (c_size c)) ir = true)
    by (apply intersection_within; auto).
  pose proof (within_screen_bounds _ _ Hscreen) as Hb.
  destruct (intersection_crop region (rr_clip rr) Hcw Hch Hne Hir)
    as (Hdx & Hdxw & Hdy & Hdyh).
  change (intersection region (rr_clip rr)) with ir in Hdx, Hdxw, Hdy, Hdyh.
  apply contains_spec in Hcont. fold ir in Hcont.
  assert (Hrow : reg_y ir <= y < reg_y ir + reg_height ir) by lia.
  destruct (cuts_row_region c w rr y Hin Hir Hscreen Hrow) as [Hc1 Hc2].
  fold ir in Hc1, Hc2.
  repeat split; try lia; auto.
  assert (Hnth : In (nth (Z.to_nat (y - reg_y region)) (w_get_lines w) [])
                   (w_get_lines w)) by (apply nth_In; lia).
  rewrite List.Forall_forall in Hfit. apply (Hfit _ Hnth).
Qed.

(** The cells of a run between two consecutive cuts are painted by the
    same widgets. *)
Lemma contains_run c w rr y a b x :
  forallb (entry_ok (size_region (c_size c))) (c_map c) = true ->
  In (w, rr) (c_map c) ->
  w_visible w = true -> w_is_transparent w = false ->
  In (a, b) (runs (cuts_row c y)) -> a <= x < b ->
  contains (intersection (rr_region rr) (rr_clip rr)) x y
  = contains (intersection (rr_region rr) (rr_clip rr)) a y.
Proof.
  intros Hok Hin Hvis Hop Hrun Hx.
  destruct (runs_In_sorted _ _ _ (cuts_row_sorted c y) Hrun) as (_ & _ & Hab & Hgap).
  set (ir := intersection (rr_region rr) (rr_clip rr)).
  assert (Hkey : forall x', a <= x' < b -> contains ir x' y = true ->
                            forall x'', a <= x'' < b -> contains ir x'' y = true).
  { intros x' Hx' Hc x'' Hx''.
    destruct (painted_entry_facts c w rr x' y Hok Hin Hvis Hop Hc)
      as (_ & _ & Hc1 & Hc2 & _).
    fold ir in Hc1, Hc2.
    apply contains_spec in Hc. apply contains_spec.
    destruct (Hgap _ Hc1); destruct (Hgap _ Hc2); lia. }
  destruct (contains ir x y) eqn:E1; destruct (contains ir a y) eqn:E2; auto.
  - assert (Ha : a <= a < b) by lia.
    rewrite (Hkey x Hx E1 a Ha) in E2. discriminate.
  - assert (Ha : a <= a < b) by lia.
    rewrite (Hkey a Ha E2 x Hx) in E1. discriminate.
Qed.

Lemma front_run c y a b x :
  forallb (entry_ok (size_region (c_size c))) (c_map c) = true ->
  In (a, b) (runs (cuts_row c y)) -> a <= x < b ->
  front c x y = front c a y.
Proof.
  intros Hok Hrun Hx. unfold front. apply find_ext_in.
  intros t Ht. apply widget_regions_In in Ht.
  destruct Ht as (w & rr & Hin & Hvis & ->). simpl.
  destruct (w_is_transparent w) eqn:Hop; [reflexivity|]. simpl.
  apply (contains_run c w rr y a b x Hok Hin Hvis Hop Hrun Hx).
Qed.

Lemma nth_error_cell_slice {A : Type} (l : list A) lo hi i :
  0 <= lo -> 0 <= i -> i < hi - lo ->
  nth_error (cell_slice l lo hi) (Z.to_nat i) = nth_error l (Z.to_nat (lo + i)).
Proof.
  intros Hlo Hi Hhi. unfold cell_slice.
  rewrite nth_error_firstn.
  destruct (Nat.ltb_spec (Z.to_nat i) (Z.to_nat (hi - lo))); [|lia].
  rewrite nth_error_skipn. f_equal. lia.
Qed.

(** The bucket of a run whose first cell has a front widget holds the
    cells of that widget over the run. *)
Lemma filled_run c y a b w region order clip :
  forallb (entry_ok (size_region (c_size c))) (c_map c) = true ->
  In (a, b) (runs (cuts_row c y)) ->
  front c a y = Some (w, region, order, clip) ->
  exists cl,
    filled_cells c y a = Some cl /\
    Z.of_nat (length cl) = b - a /\
    forall x, a <= x < b ->
      nth_error cl (Z.to_nat (x - a)) = widget_cell w region x y /\
      widget_cell w region x y <> None.
Proof.
  intros Hok Hrun Hfront.
  destruct (front_inv c a y _ Hfront) as (w' & rr & Hin & Hvis & Hop & Hcont & Heq).
  inversion Heq; subst w' region order clip. clear Heq.
  destruct (painted_entry_facts c w rr a y Hok Hin Hvis Hop Hcont)
    as (Hy & Ha & Hc1 & Hc2 & Hx1 & Hx2 & Hyr & Hlen).
  destruct (runs_In_sorted _ _ _ (cuts_row_sorted c y) Hrun) as (_ & _ & Hab & Hgap).
  apply contains_spec in Hcont.
  assert (Hb : b <= reg_x (intersection (rr_region rr) (rr_clip rr))
                    + reg_width (intersection (rr_region rr) (rr_clip rr))).
  { destruct (Hgap _ Hc2); lia. }
  unfold filled_cells.
  rewrite (run_of_Some _ a b (cuts_row_sorted c y) Hrun), Hfront.
  simpl fst. simpl snd.
  eexists. split; [reflexivity|].
  unfold Seg.line_length in Hlen.
  split; [rewrite cell_slice_length; lia|].
  intros x Hx. unfold widget_cell.
  rewrite nth_error_cell_slice by lia.
  replace (a - reg_x (rr_region rr) + (x - a)) with (x - reg_x (rr_region rr)) by lia.
  split; [reflexivity|].
  apply nth_error_Some. lia.
Qed.

Lemma cuts_row_hd_last c y :
  0 <= width (c_size c) ->
  hd_error (cuts_row c y) = Some 0 /\
  List.last (cuts_row c y) 0 = width (c_size c).
Proof.
  intros Hw. split.
  - apply sorted_hd; [apply cuts_row_sorted| |].
    + apply cuts_row_In. auto.
    + intros v Hv. apply cuts_row_bounds in Hv; lia.
  - apply sorted_last; [apply cuts_row_sorted| |].
    + apply cuts_row_In. auto.
    + intros v Hv. apply cuts_row_bounds in Hv; lia.
Qed.

Lemma covered_front c x y :
  covered c x y = true -> exists t, front c x y = Some t.
Proof.
  unfold covered. destruct (front c x y); [eauto|discriminate].
Qed.

(** A row whose cells are all covered is as long as the screen is wide. *)
Lemma row_length c y :
  renderable c = true ->
  (forall x, 0 <= x < width (c_size c) -> covered c x y = true) ->
  Z.of_nat (length (row_cells c y)) = width (c_size c).
Proof.
  intros Hren Hcov.
  destruct (renderable_spec c Hren) as (Hw & Hh & Hok & _).
  destruct (cuts_row_hd_last c y Hw) as [Hhd Hlast].
  unfold row_cells.
  rewrite flat_map_runs_length.
  - rewrite Hlast. destruct (cuts_row c y); [discriminate|].
    simpl in Hhd. inversion Hhd. simpl. lia.
  - destruct (cuts_row c y); [discriminate|congruence].
  - intros a b Hrun.
    destruct (runs_In_sorted _ _ _ (cuts_row_sorted c y) Hrun) as (Ha & Hb & Hab & _).
    apply cuts_row_bounds in Ha; auto. apply cuts_row_bounds in Hb; auto.
    assert (Hacov : 0 <= a < width (c_size c)) by lia.
    destruct (covered_front c a y (Hcov a Hacov)) as [[[[w region] order] clip] Hfront].
    destruct (filled_run c y a b w region order clip Hok Hrun Hfront)
      as (cl & Hfilled & Hlen & _).
    rewrite Hfilled. exact Hlen.
  - unfold filled_cells.
    rewrite (run_of_last _ 0 (cuts_row_sorted c y)). reflexivity.
Qed.

(** The cell of a row at a column whose left side is covered is the cell
    of the front widget of that column. *)
Lemma row_cell c y x A region order clip :
  renderable c = true ->
  (forall x', 0 <= x' < x -> covered c x' y = true) ->
  front c x y = Some (A, region, order, clip) ->
  nth_error (row_cells c y) (Z.to_nat x) = widget_cell A region x y /\
  widget_cell A region x y <> None.
Proof.
  intros Hren Hcov Hfront.
  destruct (renderable_spec c Hren) as (Hw & Hh & Hok & _).
  destruct (cuts_row_hd_last c y Hw) as [Hhd Hlast].
  destruct (front_inv c x y _ Hfront) as (w' & rr & Hin & Hvis & Hop & Hcont & Heq).
  destruct (painted_entry_facts c w' rr x y Hok Hin Hvis Hop Hcont)
    as (Hy & Hx & _).
  destruct (runs_cover (cuts_row c y) x (cuts_row_sorted c y)) as (a & b & Hrun & Hab).
  { exists 0. split; [exact Hhd|lia]. }
  { rewrite Hlast. lia. }
  rewrite (front_run c y a b x Hok Hrun Hab) in Hfront.
  destruct (filled_run c y a b A region order clip Hok Hrun Hfront)
    as (cl & Hfilled & Hlen & Hcells).
  destruct (Hcells x Hab) as [Hnth Hsome].
  split; [|exact Hsome].
  rewrite <- Hnth. unfold row_cells.
  replace (Z.to_nat x) with (Z.to_nat (x - hd 0 (cuts_row c y))).
  2:{ destruct (cuts_row c y); [discriminate|].
      simpl in Hhd. inversion Hhd. simpl. f_equal. lia. }
  rewrite (flat_map_runs_nth _ (cuts_row c y) x a b (cuts_row_sorted c y) Hrun).
  - rewrite Hfilled. reflexivity.
  - lia.
  - rewrite Hfilled. simpl. lia.
  - intros a' b' Hrun' Hlt.
    destruct (runs_In_sorted _ _ _ (cuts_row_sorted c y) Hrun')
      as (Ha' & Hb' & Hab' & _).
    apply cuts_row_bounds in Ha'; auto.
    assert (Hacov : 0 <= a' < x) by lia.
    destruct (covered_front c a' y (Hcov a' Hacov))
      as [[[[w1 region1] order1] clip1] Hfront1].
    destruct (filled_run c y a' b' w1 region1 order1 clip1 Hok Hrun' Hfront1)
      as (cl1 & Hfilled1 & Hlen1 & _).
    rewrite Hfilled1. exact Hlen1.
Qed.

(** *** Cropped renders *)

Lemma divide_loop_nonempty segments : forall cut cuts pos split,
  Seg.divide_loop segments cut cuts pos split <> [].
Proof.
  induction segments as [|segment rest IH]; intros cut cuts pos split.
  - discriminate.
  - rewrite divide_loop_cons.
    destruct (Seg.text_empty segment); [apply IH|]. cbv zeta.
    destruct (pos + Seg.cell_length segment <? cut); [apply IH|].
    destruct (pos + Seg.cell_length segment =? cut); discriminate.
Qed.

Lemma divide_nonempty line cut cuts : Seg.divide line (cut :: cuts) <> [].
Proof.
  rewrite divide_cons. destruct (cut =? 0); [discriminate|].
  apply divide_loop_nonempty.
Qed.

Lemma index_ok {A : Type} (l : list A) i :
  0 <= i < Z.of_nat (length l) -> exists a, Py.index l i = Ok a.
Proof.
  intros Hi. destruct (nth_error l (Z.to_nat i)) as [a|] eqn:E.
  - exists a. apply index_nth; [lia|exact E].
  - apply nth_error_None in E. lia.
Qed.

Lemma index_ok_inv {A : Type} (l : list A) i a :
  0 <= i -> Py.index l i = Ok a -> i < Z.of_nat (length l).
Proof.
  intros Hi. unfold Py.index. destruct (Z.ltb_spec i 0); [lia|].
  destruct (Z.ltb_spec i 0); [lia|]. simpl.
  destruct (Z.leb_spec (Z.of_nat (length l)) i); [discriminate|lia].
Qed.

Lemma cell_slice_nil {A : Type} a b : cell_slice (@nil A) a b = [].
Proof. unfold cell_slice. rewrite skipn_nil, firstn_nil. reflexivity. Qed.

(** [width_view] never raises, and on a full line it keeps the cells of
    the crop. *)
Lemma width_view_spec (line : Line) cx cw wd :
  0 <= cx -> 0 < cw -> cx + cw <= wd ->
  exists out : Line,
    width_view cx (cx + cw) line = Ok out /\
    (Seg.line_length line = wd ->
     Seg.line_cells out = cell_slice (Seg.line_cells line) cx (cx + cw)).
Proof.
  intros Hcx Hcw Hwd. unfold width_view.
  destruct line as [|segment rest].
  { exists []. split; [reflexivity|]. intros _.
    change (Seg.line_cells []) with (@nil Cell). rewrite cell_slice_nil. reflexivity. }
  set (line := segment :: rest).
  pose proof (divide_nonempty line cx [cx + cw]) as Hne.
  destruct (Z.eq_dec (Seg.line_length line) wd) as [Hlen|Hlen].
  - assert (Hfit : cx + cw <= Seg.line_length line) by lia.
    destruct (crop_line line cx cw Hcx Hcw Hfit) as (p & Hp & Hcells).
    assert (H01 : 0 <= 1) by lia.
    pose proof (index_ok_inv _ _ _ H01 Hp) as Hl.
    destruct (Nat.ltb_spec 1 (length (Seg.divide line [cx; cx + cw]))); [|lia].
    exists p. split; [exact Hp|]. intros _. exact Hcells.
  - destruct (Nat.ltb_spec 1 (length (Seg.divide line [cx; cx + cw]))).
    + assert (H1 : 0 <= 1 < Z.of_nat (length (Seg.divide line [cx; cx + cw]))) by lia.
      destruct (index_ok (Seg.divide line [cx; cx + cw]) 1 H1) as [out Hout].
      exists out. split; [exact Hout|]. intros Heq. contradiction.
    + assert (Hpos : 0 <= 0 < Z.of_nat (length (Seg.divide line [cx; cx + cw]))).
      { destruct (Seg.divide line [cx; cx + cw]); [congruence|simpl; lia]. }
      destruct (index_ok (Seg.divide line [cx; cx + cw]) 0 Hpos) as [out Hout].
      exists out. split; [exact Hout|]. intros Heq. contradiction.
Qed.

Lemma map_result_ok {A B : Type} (f : A -> result B) (R : A -> B -> Prop) l :
  (forall a, exists b, f a = Ok b /\ R a b) ->
  exists bs, map_result f l = Ok bs /\ Forall2 R l bs.
Proof.
  intros Hf. induction l as [|a l IH].
  - exists []. split; [reflexivity|constructor].
  - destruct (Hf a) as (b & Hb & Hr). destruct IH as (bs & Hbs & Hrs).
    exists (b :: bs). split; [|constructor; auto].
    rewrite map_result_cons, Hb. cbn [mbind result_bind]. rewrite Hbs. reflexivity.
Qed.

Lemma Forall2_nth {A B : Type} (R : A -> B -> Prop) l l' j da db :
  Forall2 R l l' -> (j < length l)%nat -> R (nth j l da) (nth j l' db).
Proof.
  intros H. revert j. induction H as [|a b l l' Hab H IH]; intros j Hj.
  - simpl in Hj. lia.
  - destruct j as [|j]; simpl; [exact Hab|]. apply IH. simpl in Hj. lia.
Qed.

(** The crop of the lines of a full render to a region within the
    screen: one line per row of the region, and of a full line the cells
    of the columns of the region. *)
Lemma crop_view_rows c cr (lines : Lines) :
  length lines = Z.to_nat (height (c_size c)) ->
  region_bool cr = true ->
  contains_region (size_region (c_size c)) cr = true ->
  exists out : Lines,
    crop_view c cr lines = Ok out /\
    Z.of_nat (length out) = reg_height cr /\
    forall j, 0 <= j < reg_height cr ->
      Seg.line_length (nth (Z.to_nat (reg_y cr + j)) lines [])
      = width (c_size c) ->
      Seg.line_cells (nth (Z.to_nat j) out [])
      = cell_slice (Seg.line_cells (nth (Z.to_nat (reg_y cr + j)) lines []))
          (reg_x cr) (reg_x cr + reg_width cr).
Proof.
  intros Hlen Hne Hin.
  pose proof (within_screen_bounds _ _ Hin) as Hb.
  assert (Hwh : 0 < reg_width cr /\ 0 < reg_height cr).
  { unfold region_bool in Hne. apply andb_true_iff in Hne.
    rewrite !Z.ltb_lt in Hne. exact Hne. }
  unfold crop_view. rewrite Hne.
  change (mkRegion 0 0 (width (c_size c)) (height (c_size c)))
    with (size_region (c_size c)).
  rewrite (intersection_in_clip cr _ Hin). unfold corners.
  rewrite py_slice_valid by lia.
  replace (reg_y cr + reg_height cr - reg_y cr) with (reg_height cr) by lia.
  set (rl := firstn (Z.to_nat (reg_height cr)) (skipn (Z.to_nat (reg_y cr)) lines)).
  assert (Hrl_len : length rl = Z.to_nat (reg_height cr)).
  { unfold rl. rewrite length_firstn, length_skipn. lia. }
  assert (Hrl_nth : forall j, 0 <= j < reg_height cr ->
                      nth (Z.to_nat j) rl [] = nth (Z.to_nat (reg_y cr + j)) lines []).
  { intros j Hj. unfold rl. rewrite nth_firstn.
    destruct (Nat.ltb_spec (Z.to_nat j) (Z.to_nat (reg_height cr))); [|lia].
    rewrite nth_skipn. f_equal. lia. }
  destruct ((reg_x cr =? 0) && (reg_x cr + reg_width cr =? width (c_size c))) eqn:Efull.
  - apply andb_true_iff in Efull. rewrite !Z.eqb_eq in Efull.
    exists rl. split; [reflexivity|]. split; [lia|].
    intros j Hj Hfull. rewrite (Hrl_nth j Hj).
    destruct Efull as [E1 E2]. rewrite E1.
    rewrite cell_slice_all; [reflexivity|].
    unfold Seg.line_length in Hfull. lia.
  - simpl negb. cbv iota.
    destruct (map_result_ok (width_view (reg_x cr) (reg_x cr + reg_width cr))
                (fun (line out : Line) =>
                   Seg.line_length line = width (c_size c) ->
                   Seg.line_cells out
                   = cell_slice (Seg.line_cells line) (reg_x cr)
                       (reg_x cr + reg_width cr)) rl)
      as (out & Hout & Hrel).
    { intros line. apply width_view_spec with (wd := width (c_size c)); lia. }
    exists out. split; [exact Hout|].
    split; [apply Forall2_length in Hrel; lia|].
    intros j Hj Hfull.
    assert (Hjl : (Z.to_nat j < length rl)%nat) by lia.
    pose proof (Forall2_nth _ _ _ (Z.to_nat j) ([] : Line) ([] : Line) Hrel Hjl)
      as Hj'.
    cbv beta in Hj'. rewrite <- (Hrl_nth j Hj). apply Hj'.
    rewrite (Hrl_nth j Hj). exact Hfull.
Qed.

(** *** Depth respect, line lengths and patches *)

(** C1 (as amended): when [A] is visible and not transparent, its clipped
    region holds the cell [(x, y)], every other painted widget whose
    clipped region holds the cell has a smaller order, and every cell of
    the row to the left of [x] is covered, the full render carries at
    column [x] of row [y] the cell of [A]'s own lines for that screen
    position. *)
Theorem depth_respect c x y A rrA :
  renderable c = true ->
  In (A, rrA) (c_map c) ->
  w_visible A = true -> w_is_transparent A = false ->
  contains (intersection (rr_region rrA) (rr_clip rrA)) x y = true ->
  (forall B rrB,
      In (B, rrB) (c_map c) ->
      w_visible B = true -> w_is_transparent B = false ->
      contains (intersection (rr_region rrB) (rr_clip rrB)) x y = true ->
      (B, rrB) = (A, rrA) \/
      Py.tuple_ltb (rr_order rrB) (rr_order rrA) = true) ->
  (forall x', 0 <= x' < x -> covered c x' y = true) ->
  exists lines : Lines,
    snd (render c None) = Ok lines /\
    nth_error (Seg.line_cells (nth (Z.to_nat y) lines [])) (Z.to_nat x)
    = widget_cell A (rr_region rrA) x y /\
    widget_cell A (rr_region rrA) x y <> None.
Proof.
  intros Hren Hin Hvis Hop Hcont Hfront Hcov.
  destruct (renderable_spec c Hren) as (Hw & Hh & Hok & _).
  destruct (painted_entry_facts c A rrA x y Hok Hin Hvis Hop Hcont) as (Hy & _).
  destruct (render_rows c Hren) as (lines & Hrender & _ & Hrows).
  exists lines. split; [exact Hrender|].
  rewrite (Hrows y Hy).
  apply (row_cell c y x A (rr_region rrA) (rr_order rrA) (rr_clip rrA) Hren Hcov).
  apply front_by_order; auto.
Qed.

Lemma depth_respect_witness :
  exists lines : Lines,
    snd (render occlusion None) = Ok lines /\
    nth_error (Seg.line_cells (nth (Z.to_nat 0) lines [])) (Z.to_nat 1)
    = Some ("B"%char, Some (Style_of "b")).
Proof.
  destruct (depth_respect occlusion 1 0 wB
              (mkRenderRegion (mkRegion 1 0 2 1) [1; 0] (mkRegion 0 0 4 1)
                 (mkSize 2 1)))
    as (lines & Hrender & Hcell & _).
  - vm_compute. reflexivity.
  - right. left. reflexivity.
  - reflexivity.
  - reflexivity.
  - reflexivity.
  - intros B rrB HB Hv Ht Hc.
    destruct HB as [HB|[HB|[HB|[]]]]; inversion HB; subst.
    + right. reflexivity.
    + left. reflexivity.
    + discriminate.
  - intros x' Hx'. assert (x' = 0) by lia. subst x'. reflexivity.
  - exists lines. split; [exact Hrender|]. exact Hcell.
Defined.

(** C1 (as stated) fails twice.  Behind a third widget: [wMid] is in
    front of [wBack] and both cover the cell [(1, 0)], but the render
    carries the cell of [wTop] there.  Right of a gap: [wRightFront] is
    in front of [wRightBack] and both cover [(2, 0)], but the row of the
    render has only two cells, those of [wRightFront] moved to columns 0
    and 1. *)
Lemma depth_respect_fails :
  (exists rrA rrB (lines : Lines),
      In (wMid, rrA) (c_map stacked) /\ In (wBack, rrB) (c_map stacked) /\
      w_visible wMid = true /\ w_is_transparent wMid = false /\
      w_visible wBack = true /\ w_is_transparent wBack = false /\
      Py.tuple_ltb (rr_order rrB) (rr_order rrA) = true /\
      contains (intersection (rr_region rrA) (rr_clip rrA)) 1 0 = true /\
      contains (intersection (rr_region rrB) (rr_clip rrB)) 1 0 = true /\
      snd (render stacked None) = Ok lines /\
      widget_cell wMid (rr_region rrA) 1 0 = Some ("A"%char, Some (Style_of "a")) /\
      nth_error (Seg.line_cells (nth 0 lines [])) 1
      = Some ("C"%char, Some (Style_of "c"))) /\
  (exists rrA rrB (lines : Lines),
      In (wRightFront, rrA) (c_map gap_left) /\
      In (wRightBack, rrB) (c_map gap_left) /\
      w_visible wRightFront = true /\ w_is_transparent wRightFront = false /\
      w_visible wRightBack = true /\ w_is_transparent wRightBack = false /\
      Py.tuple_ltb (rr_order rrB) (rr_order rrA) = true /\
      contains (intersection (rr_region rrA) (rr_clip rrA)) 2 0 = true /\
      contains (intersection (rr_region rrB) (rr_clip rrB)) 2 0 = true /\
      snd (render gap_left None) = Ok lines /\
      widget_cell wRightFront (rr_region rrA) 2 0
      = Some ("A"%char, Some (Style_of "a")) /\
      nth_error (Seg.line_cells (nth 0 lines [])) 2 = None).
Proof.
  split.
  - exists (mkRenderRegion (mkRegion 1 0 2 1) [1; 0] (mkRegion 0 0 4 1) (mkSize 2 1)),
      (mkRenderRegion (mkRegion 0 0 4 1) [0; 0] (mkRegion 0 0 4 1) (mkSize 4 1)).
    eexists. split; [right; left; reflexivity|]. split; [left; reflexivity|].
    repeat (split; [reflexivity|]). reflexivity.
  - exists (mkRenderRegion (mkRegion 2 0 2 1) [1; 0] (mkRegion 0 0 4 1) (mkSize 2 1)),
      (mkRenderRegion (mkRegion 2 0 2 1) [0; 0] (mkRegion 0 0 4 1) (mkSize 2 1)).
    eexists. split; [left; reflexivity|]. split; [right; left; reflexivity|].
    repeat (split; [reflexivity|]). reflexivity.
Qed.

(** C6 (as amended): the render of a renderable compositor returns one
    line per row of the rendered region (the crop when one is given
    within the screen, the screen otherwise), and every row whose screen
    cells are all covered by a painted widget has a total cell length
    equal to the rendered width. *)
Theorem render_line_length c crop :
  renderable c = true ->
  match crop with
  | Some cr =>
      region_bool cr = true /\
      contains_region (size_region (c_size c)) cr = true
  | None => True
  end ->
  let rendered :=
    match crop with Some cr => cr | None => size_region (c_size c) end in
  exists lines : Lines,
    snd (render c crop) = Ok lines /\
    Z.of_nat (length lines) = reg_height rendered /\
    forall j, 0 <= j < reg_height rendered ->
      (forall x, 0 <= x < width (c_size c) ->
                 covered c x (reg_y rendered + j) = true) ->
      Seg.line_length (nth (Z.to_nat j) lines []) = reg_width rendered.
Proof.
  intros Hren Hcrop rendered.
  destruct (renderable_spec c Hren) as (Hw & Hh & Hok & Hvalid).
  destruct (fill_rows c Hren) as (chops & Hfill & Hlen & Hrows).
  rewrite (render_unfold c crop Hvalid), Hfill. cbn [mbind result_bind].
  destruct crop as [cr|].
  - destruct Hcrop as [Hne Hin].
    pose proof (within_screen_bounds _ _ Hin) as Hb.
    destruct (crop_view_rows c cr (_assemble_chops chops) Hlen Hne Hin)
      as (out & Hout & Hout_len & Hcells).
    exists out. split; [exact Hout|]. split; [exact Hout_len|].
    intros j Hj Hcov. unfold rendered in *.
    assert (Hyj : 0 <= reg_y cr + j < height (c_size c)) by lia.
    assert (Hfull : Seg.line_length
                      (nth (Z.to_nat (reg_y cr + j)) (_assemble_chops chops) [])
                    = width (c_size c)).
    { unfold Seg.line_length. rewrite (Hrows _ Hyj). apply row_length; auto. }
    unfold Seg.line_length. rewrite (Hcells j Hj Hfull).
    assert (Hwh : 0 < reg_width cr).
    { unfold region_bool in Hne. apply andb_true_iff in Hne.
      rewrite !Z.ltb_lt in Hne. tauto. }
    rewrite cell_slice_length; [lia|lia|lia|].
    unfold Seg.line_length in Hfull. lia.
  - exists (_assemble_chops chops). split; [reflexivity|].
    unfold rendered. simpl reg_height. simpl reg_width. simpl reg_y.
    split; [lia|]. intros j Hj Hcov.
    unfold Seg.line_length. rewrite (Hrows j Hj).
    apply row_length; auto.
Qed.

Lemma render_line_length_witness :
  exists lines : Lines,
    snd (render occlusion (Some (mkRegion 1 0 2 1))) = Ok lines /\
    Z.of_nat (length lines) = 1.
Proof.
  destruct (render_line_length occlusion (Some (mkRegion 1 0 2 1)))
    as (lines & Hrender & Hlen & _).
  - vm_compute. reflexivity.
  - split; reflexivity.
  - exists lines. split; [exact Hrender|exact Hlen].
Defined.

(** C6 (as stated) fails: on a screen three cells wide that no painted
    widget covers, the one line of the render is empty. *)
Lemma render_line_length_fails :
  width (c_size empty_screen) = 3 /\
  snd (render empty_screen None) = Ok [[]] /\
  Seg.line_length [] <> width (c_size empty_screen).
Proof.
  split; [reflexivity|]. split; [reflexivity|]. discriminate.
Qed.

Lemma intersection_empty region clip :
  0 <= reg_width clip -> 0 <= reg_height clip ->
  region_bool region = false ->
  region_bool (intersection region clip) = false.
Proof. destruct region, clip. intros Hw Hh H. geom. Qed.

Lemma update_widget_unfold c widget :
  update_widget c widget
  = match Dict.get (c_regions c) widget with
    | None => (c, [], Ok None)
    | Some (region, clip) =>
        if negb (region_bool region) then (c, [], Ok None)
        else if negb (region_bool (intersection region clip)) then (c, [], Ok None)
        else
          (fst (render c (Some (intersection region clip))),
           [ClearRenderCache (w_id widget)],
           update_lines ← snd (render c (Some (intersection region clip)));
           Ok (Some (mkLayoutUpdate update_lines (intersection region clip))))
    end.
Proof.
  unfold update_widget. destruct (Dict.get (c_regions c) widget) as [[region clip]|];
    [|reflexivity].
  destruct (negb (region_bool region)); [reflexivity|].
  destruct (negb (region_bool (intersection region clip))); [reflexivity|].
  destruct (render c (Some (intersection region clip))). reflexivity.
Qed.

(** C5 (as amended): [update_widget] returns [None], and leaves the widget
    alone, exactly when the widget is not in [regions] or its region cut
    to its clip is empty.  Otherwise it clears the render cache of the
    widget and returns a patch at that rectangle whose lines are those of
    the full render cropped by [crop_view]; when the compositor is
    renderable and the rectangle lies within the screen, the patch has
    one line per row of the rectangle, and in every row whose screen cells
    are all covered each cell of the patch is the cell of the front
    widget of its screen position. *)
Theorem update_widget_patch c widget :
  cuts_cache_valid c ->
  (forall region clip,
      Dict.get (c_regions c) widget = Some (region, clip) ->
      0 <= reg_width clip /\ 0 <= reg_height clip) ->
  (snd (update_widget c widget) = Ok None <->
   Dict.get (c_regions c) widget = None \/
   exists region clip,
     Dict.get (c_regions c) widget = Some (region, clip) /\
     region_bool (intersection region clip) = false) /\
  (snd (update_widget c widget) = Ok None ->
   snd (fst (update_widget c widget)) = [] /\
   fst (fst (update_widget c widget)) = c) /\
  forall region clip,
    Dict.get (c_regions c) widget = Some (region, clip) ->
    region_bool (intersection region clip) = true ->
    let update_region := intersection region clip in
    snd (fst (update_widget c widget)) = [ClearRenderCache (w_id widget)] /\
    snd (update_widget c widget)
    = (lines ← snd (render c None);
       update_lines ← crop_view c update_region lines;
       Ok (Some (mkLayoutUpdate update_lines update_region))) /\
    (renderable c = true ->
     contains_region (size_region (c_size c)) update_region = true ->
     exists update_lines : Lines,
       snd (update_widget c widget)
       = Ok (Some (mkLayoutUpdate update_lines update_region)) /\
       Z.of_nat (length update_lines) = reg_height update_region /\
       forall j i A rA oA cA,
         0 <= j < reg_height update_region ->
         0 <= i < reg_width update_region ->
         (forall x, 0 <= x < width (c_size c) ->
                    covered c x (reg_y update_region + j) = true) ->
         front c (reg_x update_region + i) (reg_y update_region + j)
         = Some (A, rA, oA, cA) ->
         nth_error (Seg.line_cells (nth (Z.to_nat j) update_lines []))
           (Z.to_nat i)
         = widget_cell A rA (reg_x update_region + i) (reg_y update_region + j)).
Proof.
  intros Hvalid Hclip. rewrite update_widget_unfold.
  destruct (Dict.get (c_regions c) widget) as [[region clip]|] eqn:Hget.
  2:{ split; [split; auto|]. split; [auto|]. intros region clip Hd. discriminate. }
  destruct (Hclip region clip eq_refl) as [Hcw Hch].
  assert (Hunfold : forall crop_region,
             snd (render c (Some crop_region))
             = (lines ← snd (render c None); crop_view c crop_region lines)).
  { intros crop_region.
    rewrite (render_unfold c (Some crop_region) Hvalid), (render_unfold c None Hvalid).
    destruct (fill c); reflexivity. }
  destruct (region_bool region) eqn:Hregion; simpl negb; cbv iota.
  - destruct (region_bool (intersection region clip)) eqn:Hinter; simpl negb; cbv iota.
    + split.
      { simpl. split.
        - intros H. exfalso.
          destruct (snd (render c (Some (intersection region clip)))); discriminate.
        - intros [H|(r' & c' & H & He)]; [discriminate|].
          inversion H; subst. congruence. }
      split.
      { simpl. intros H. exfalso.
        destruct (snd (render c (Some (intersection region clip)))); discriminate. }
      intros region' clip' Hsome _ update_region.
      inversion Hsome; subst region' clip'. clear Hsome.
      split; [reflexivity|]. simpl snd. rewrite Hunfold.
      split.
      { destruct (snd (render c None)) as [lines|]; reflexivity. }
      intros Hren Hin.
      destruct (renderable_spec c Hren) as (Hw & Hh & Hok & _).
      destruct (render_rows c Hren) as (lines & Hrender & Hlen & Hrows).
      destruct (crop_view_rows c update_region lines Hlen Hinter Hin)
        as (out & Hout & Hout_len & Hcells).
      exists out. rewrite Hrender. cbn [mbind result_bind].
      fold update_region. rewrite Hout. cbn [mbind result_bind].
      split; [reflexivity|]. split; [exact Hout_len|].
      intros j i A rA oA cA Hj Hi Hcov Hfront.
      pose proof (within_screen_bounds _ _ Hin) as Hb.
      assert (Hyj : 0 <= reg_y update_region + j < height (c_size c)) by lia.
      assert (Hfull : Seg.line_length
                        (nth (Z.to_nat (reg_y update_region + j)) lines [])
                      = width (c_size c)).
      { unfold Seg.line_length. rewrite (Hrows _ Hyj). apply row_length; auto. }
      rewrite (Hcells j Hj Hfull).
      rewrite nth_error_cell_slice by lia.
      rewrite (Hrows _ Hyj).
      apply (row_cell c _ _ A rA oA cA Hren); [|exact Hfront].
      intros x' Hx'. apply Hcov. lia.
    + split.
      { simpl. split; [|reflexivity]. intros _. right. exists region, clip. auto. }
      split; [simpl; auto|].
      intros region' clip' Hsome Hne. inversion Hsome; subst. congruence.
  - pose proof (intersection_empty region clip Hcw Hch Hregion) as Hinter.
    split.
    { simpl. split; [|reflexivity]. intros _. right. exists region, clip. auto. }
    split; [simpl; auto|].
    intros region' clip' Hsome Hne. inversion Hsome; subst. congruence.
Qed.

Lemma update_widget_patch_witness :
  snd (fst (update_widget occlusion wA)) = [ClearRenderCache 1%nat] /\
  fmap (M := result)
    (fmap (M := option) (fun u => List.map Seg.line_cells (lu_lines u)))
    (snd (update_widget occlusion wA))
  = Ok (Some [Seg.line_cells [seg "A" "a"; seg "BB" "b"; seg "A" "a"]]).
Proof.
  destruct (update_widget_patch occlusion wA) as (_ & _ & H).
  - exact I.
  - intros region clip Hget. vm_compute in Hget. inversion Hget; subst.
    simpl. lia.
  - destruct (H (mkRegion 0 0 4 1) (mkRegion 0 0 4 1) eq_refl eq_refl)
      as (Heff & _ & _).
    split; [exact Heff|]. vm_compute. reflexivity.
Defined.

(** C5 (as stated) fails: right of a gap, the patch of [wRightBack] is a
    single empty line; [wRightFront], which lies in front of it over the
    whole rectangle, does not appear in the patch. *)
Lemma update_widget_patch_fails :
  snd (update_widget gap_left wRightBack)
  = Ok (Some (mkLayoutUpdate [[]] (mkRegion 2 0 2 1))) /\
  front gap_left 2 0
  = Some (wRightFront, mkRegion 2 0 2 1, [1; 0], mkRegion 0 0 4 1) /\
  widget_cell wRightFront (mkRegion 2 0 2 1) 2 0
  = Some ("A"%char, Some (Style_of "a")) /\
  nth_error (Seg.line_cells (nth 0 [[]] [])) 0 = None.
Proof. repeat split; reflexivity. Qed.

(* ===================================================================== *)
(** ** Further properties of the compositor and of its callers *)
(* ===================================================================== *)

(** *** Calls of the arrangement *)

Section AddWidget.
Variable root : Widget.
Variable I : ArrangeState -> Prop.
Hypothesis I_grow : forall map ws ws', I (map, ws) -> I (map, ws ∪ ws').
Hypothesis I_set : forall map ws widget region order clip vs,
  placed root widget region order clip ->
  I (map, ws) -> w_id widget ∈ ws ->
  I (Dict.set map widget
       (mkRenderRegion (region_add region (layout_offset widget region clip))
          order clip vs), ws).

Lemma add_widget_inv depth :
  forall widget region order clip st st',
    placed root widget region order clip ->
    I st ->
    add_widget depth widget region order clip st = Ok st' ->
    I st' /\ snd st ⊆ snd st' /\ w_id widget ∈ snd st'.
Proof.
  induction depth as [|depth IH];
    intros widget region order clip [map widgets] st' Hcall Hst H.
  - discriminate.
  - simpl in H. fold (layout_offset widget region clip) in H.
    destruct (w_layout widget) as [arrange|] eqn:Hlay.
    + destruct (arrange (region_size region) (w_scroll widget))
        as [[placements arranged_widgets]|e] eqn:Harrange; [|discriminate].
      cbn in H.
      match type of H with
      | context [?loop (Py.sorted wp_order Z.ltb placements) ?x1 ?x2] =>
          set (F := loop) in H;
          assert (Hloop : forall ps tr s out,
                     (forall p, In p ps -> In p placements) ->
                     I s ->
                     F ps tr s = Ok out ->
                     I (snd out) /\ snd s ⊆ snd (snd out))
      end.
      { induction ps as [|p ps IHps]; intros tr s out Hin Hs Hout.
        - simpl in Hout. inversion Hout. subst. auto.
        - simpl in Hout.
          destruct (wp_widget p) as [sub_widget|] eqn:Hw.
          + match type of Hout with
            | context [add_widget depth ?a ?b ?c ?d ?e] =>
                destruct (add_widget depth a b c d e) as [s'|e'] eqn:Hcall'
            end; [|discriminate].
            cbn in Hout.
            eapply IH in Hcall'; [| |exact Hs].
            * destruct Hcall' as (Hs' & Hsub & _).
              eapply IHps in Hout; [| |exact Hs'].
              -- destruct Hout as [Ho Hsub']. split; [exact Ho|].
                 etransitivity; eauto.
              -- intros q Hq. apply Hin. right. exact Hq.
            * eapply placed_child; eauto. apply Hin. left. reflexivity.
          + eapply IHps; [| |exact Hout]; auto.
            intros q Hq. apply Hin. right. exact Hq. }
      match type of H with
      | context [F ?x0 ?x1 ?x2] => destruct (F x0 x1 x2) as [[tr' [map' widgets']]|e] eqn:HF
      end; [|discriminate].
      cbn in H. inversion H. subst st'. simpl.
      apply Hloop in HF.
      * simpl in HF. destruct HF as [HI Hsub].
        assert (Hid : w_id widget ∈ widgets').
        { apply Hsub. apply elem_of_union. left. apply elem_of_union. right.
          apply elem_of_singleton. reflexivity. }
        split; [apply I_set; auto|]. split; [|exact Hid].
        intros i Hi. apply Hsub. apply elem_of_union. left.
        apply elem_of_union. left. exact Hi.
      * intros p Hp. apply sorted_In in Hp. exact Hp.
      * apply I_grow. apply I_grow. exact Hst.
    + inversion H. subst st'. simpl.
      assert (Hid : w_id widget ∈ widgets ∪ {[w_id widget]}).
      { apply elem_of_union. right. apply elem_of_singleton. reflexivity. }
      split; [apply I_set; auto|]. split; [|exact Hid].
      intros i Hi. apply elem_of_union. left. exact Hi.
Qed.
End AddWidget.

Lemma dict_get_set_same {V : Type} (m : list (Widget * V)) w v :
  Dict.get (Dict.set m w v) w = Some v.
Proof.
  induction m as [|[k v'] m IH]; simpl.
  - rewrite Nat.eqb_refl. reflexivity.
  - destruct (Nat.eqb (w_id k) (w_id w)) eqn:E; simpl;
      [rewrite Nat.eqb_refl|rewrite E]; auto.
Qed.

Lemma dict_set_ids {V : Type} (m : list (Widget * V)) w v i :
  In i (ids (Dict.set m w v)) <-> i = w_id w \/ In i (ids m).
Proof.
  unfold ids. induction m as [|[k v'] m IH]; simpl.
  - intuition.
  - destruct (Nat.eqb (w_id k) (w_id w)) eqn:E; simpl.
    + apply Nat.eqb_eq in E. rewrite E. intuition.
    + rewrite IH. intuition.
Qed.

Lemma dict_set_NoDup {V : Type} (m : list (Widget * V)) w v :
  List.NoDup (ids m) -> List.NoDup (ids (Dict.set m w v)).
Proof.
  induction m as [|[k v'] m IH]; simpl; intros H.
  - constructor; [intros []|constructor].
  - apply List.NoDup_cons_iff in H. destruct H as [Hk Hm].
    destruct (Nat.eqb (w_id k) (w_id w)) eqn:E; simpl.
    + apply Nat.eqb_eq in E. constructor; [rewrite <- E; exact Hk|exact Hm].
    + apply Nat.eqb_neq in E. constructor; [|apply IH; exact Hm].
      intros Hin. apply (dict_set_ids m w v) in Hin.
      destruct Hin as [Hin|Hin]; [congruence|]. apply Hk. exact Hin.
Qed.

Lemma keys_ids {V : Type} (m : list (Widget * V)) i :
  i ∈ Dict.keys m <-> In i (ids m).
Proof.
  unfold Dict.keys, ids. rewrite elem_of_list_to_set, list_elem_of_In. tauto.
Qed.

Lemma dict_get_In {V : Type} (m : list (Widget * V)) w v :
  Dict.get m w = Some v -> exists k, In (k, v) m /\ w_id k = w_id w.
Proof.
  induction m as [|[k v'] m IH]; simpl; [discriminate|].
  destruct (Nat.eqb (w_id k) (w_id w)) eqn:E.
  - intros H. inversion H; subst. apply Nat.eqb_eq in E. eauto.
  - intros H. destruct (IH H) as (k' & Hin & Hid). eauto.
Qed.

Lemma dict_get_unique {V : Type} (m : list (Widget * V)) w v :
  List.NoDup (ids m) -> In (w, v) m -> Dict.get m w = Some v.
Proof.
  induction m as [|[k v'] m IH]; simpl; intros Hnd Hin; [contradiction|].
  apply List.NoDup_cons_iff in Hnd. destruct Hnd as [Hk Hm].
  destruct Hin as [Heq|Hin].
  - inversion Heq; subst. rewrite Nat.eqb_refl. reflexivity.
  - destruct (Nat.eqb (w_id k) (w_id w)) eqn:E; [|auto].
    apply Nat.eqb_eq in E. exfalso. apply Hk. rewrite E.
    unfold ids. apply in_map_iff. exists (w, v). auto.
Qed.

Lemma dict_get_None {V : Type} (m : list (Widget * V)) w :
  Dict.get m w = None <-> ~ In (w_id w) (ids m).
Proof.
  induction m as [|[k v'] m IH]; simpl; [tauto|].
  destruct (Nat.eqb (w_id k) (w_id w)) eqn:E.
  - apply Nat.eqb_eq in E. split; [discriminate|]. intros H. exfalso. auto.
  - apply Nat.eqb_neq in E. rewrite IH. tauto.
Qed.

Lemma arrange_root_inv recursion_limit root st :
  _arrange_root recursion_limit root = Ok st ->
  arrange_inv root st /\ w_id root ∈ snd st.
Proof.
  unfold _arrange_root. intros H.
  eapply (add_widget_inv root (arrange_inv root)) in H.
  - tauto.
  - intros map ws ws' (H1 & H2 & H3). repeat split; auto.
    simpl in *. intros i Hi. apply elem_of_union. left. auto.
  - intros map ws widget region order clip vs Hp (H1 & H2 & H3) Hid.
    simpl in *. repeat split; simpl.
    + apply dict_set_Forall; [exact H1|].
      exists region. simpl. split; [exact Hp|reflexivity].
    + intros i Hi. apply dict_set_ids in Hi. destruct Hi as [->|Hi]; auto.
    + apply dict_set_NoDup. exact H3.
  - constructor.
  - repeat split; simpl; [constructor|intros i []|constructor].
Qed.

Lemma add_widget_last depth widget region order clip st st' :
  add_widget depth widget region order clip st = Ok st' ->
  exists map vs,
    fst st' = Dict.set map widget
                (mkRenderRegion (region_add region (layout_offset widget region clip))
                   order clip vs).
Proof.
  destruct depth as [|depth]; [discriminate|].
  destruct st as [map widgets]. simpl.
  fold (layout_offset widget region clip).
  destruct (w_layout widget) as [arrange|].
  - destruct (arrange (region_size region) (w_scroll widget)) as [[ps ws]|e];
      [|discriminate].
    cbn.
    match goal with
    | |- context [mbind _ ?x] => destruct x as [[tr [map' ws']]|e]
    end; [|discriminate].
    cbn. intros H. inversion H. subst. simpl. eauto.
  - intros H. inversion H. subst. simpl. eauto.
Qed.

Lemma clamp_cases v lo hi :
  lo <= hi ->
  (v < lo /\ clamp v lo hi = lo) \/ (lo <= v <= hi /\ clamp v lo hi = v) \/
  (hi < v /\ clamp v lo hi = hi).
Proof.
  intros H. unfold clamp.
  destruct (Z.ltb_spec hi v); [lia|]. destruct (Z.ltb_spec v lo); lia.
Qed.

Ltac clamps :=
  repeat match goal with
    | |- context [clamp ?v ?lo ?hi] =>
        let H := fresh "Hclamp" in
        let c := fresh "cl" in
        assert (H := clamp_cases v lo hi);
        set (c := clamp v lo hi) in *; clearbody c
    end.

Lemma intersection_valid region clip :
  0 <= reg_width region -> 0 <= reg_height region ->
  0 <= reg_width clip -> 0 <= reg_height clip ->
  0 <= reg_width (intersection region clip) /\
  0 <= reg_height (intersection region clip).
Proof.
  destruct region, clip. unfold intersection, corners. simpl. intros.
  clamps. lia.
Qed.

Lemma intersection_sub region clip :
  0 <= reg_width region -> 0 <= reg_height region ->
  0 <= reg_width clip -> 0 <= reg_height clip ->
  region_bool (intersection region clip) = true ->
  contains_region region (intersection region clip) = true /\
  contains_region clip (intersection region clip) = true /\
  region_bool region = true /\ region_bool clip = true.
Proof.
  destruct region, clip.
  unfold intersection, corners, contains_region, region_bool, corners. simpl.
  intros. clamps.
  rewrite !andb_true_iff, !Z.leb_le, !Z.ltb_lt in *. lia.
Qed.

Lemma contains_region_trans a b c :
  contains_region a b = true -> contains_region b c = true ->
  contains_region a c = true.
Proof.
  destruct a, b, c. unfold contains_region, corners. simpl.
  rewrite !andb_true_iff, !Z.leb_le. lia.
Qed.

Lemma placed_clip root :
  regions_valid root ->
  forall w region order clip,
    placed root w region order clip ->
    0 <= reg_width clip /\ 0 <= reg_height clip /\
    (region_bool clip = true ->
     contains_region (size_region (w_size root)) clip = true).
Proof.
  intros Hvalid w region order clip Hp.
  induction Hp as [|parent region order clip arrange placements widgets p sub
                     Hp IH Hlay Harr Hin Hsub].
  - destruct (Hvalid _ _ _ _ (placed_root root)) as [Hw Hh].
    simpl in Hw, Hh. repeat split; [exact Hw|exact Hh|].
    intros _. destruct (w_size root). unfold contains_region, corners in *.
    simpl in *. rewrite !andb_true_iff, !Z.leb_le. lia.
  - destruct IH as (Hcw & Hch & Hroot).
    destruct (Hvalid _ _ _ _ Hp) as [Hw Hh].
    destruct (intersection_valid clip region Hcw Hch Hw Hh) as [Hiw Hih].
    repeat split; [exact Hiw|exact Hih|].
    intros Hne.
    destruct (intersection_sub clip region Hcw Hch Hw Hh Hne) as (Hc & _ & Hcb & _).
    eapply contains_region_trans; [apply Hroot; exact Hcb|exact Hc].
Qed.

Lemma dict_get_map {V V' : Type} (f : V -> V') (m : list (Widget * V)) w :
  Dict.get (List.map (fun kv => (fst kv, f (snd kv))) m) w
  = option_map f (Dict.get m w).
Proof.
  induction m as [|[k v] m IH]; simpl; [reflexivity|].
  destruct (Nat.eqb (w_id k) (w_id w)); [reflexivity|exact IH].
Qed.

Lemma reflow_regions c parent size recursion_limit c' r :
  reflow recursion_limit c parent size = (c', Ok r) ->
  c_regions c'
  = List.map (fun kv : Widget * RenderRegion =>
                (fst kv, (fun rr => (rr_region rr, rr_clip rr)) (snd kv)))
      (c_map c').
Proof.
  intros H. apply reflow_ok_inv in H.
  destruct H as (map & widgets & _ & Hmap & _ & Hreg & _). subst map.
  rewrite Hreg. apply map_ext. intros [w rr]. reflexivity.
Qed.

(** X1: after a reflow [regions] is the projection of [map]: it has the same
    keys and holds the region and the clip of each entry; so a widget
    whose region cannot be looked up gets no patch, and one that can is
    patched from the region that is looked up. *)
Theorem reflow_regions_agree recursion_limit c parent size c' r :
  reflow recursion_limit c parent size = (c', Ok r) ->
  forall w,
    Dict.get (c_regions c') w
    = option_map (fun rr => (rr_region rr, rr_clip rr)) (Dict.get (c_map c') w) /\
    (get_widget_region c' w = Raise NoWidget ->
     update_widget c' w = (c', [], Ok None)) /\
    (forall region clip,
        Dict.get (c_regions c') w = Some (region, clip) ->
        get_widget_region c' w = Ok region /\
        get_offset c' w = Ok (region_origin region)).
Proof.
  intros H w. rewrite (reflow_regions _ _ _ _ _ _ H),
      (dict_get_map (fun rr => (rr_region rr, rr_clip rr))).
  split; [reflexivity|]. split.
  - unfold get_widget_region, update_widget.
    rewrite (reflow_regions _ _ _ _ _ _ H),
      (dict_get_map (fun rr => (rr_region rr, rr_clip rr))).
    destruct (Dict.get (c_map c') w); [discriminate|reflexivity].
  - intros region clip. unfold get_widget_region, get_offset.
    destruct (Dict.get (c_map c') w) as [rr|]; [|discriminate].
    simpl. intros Heq. inversion Heq. auto.
Qed.

Lemma reflow_regions_agree_witness :
  Dict.get (c_regions occlusion) wB
  = option_map (fun rr => (rr_region rr, rr_clip rr))
      (Dict.get (c_map occlusion) wB).
Proof.
  apply (reflow_regions_agree 8 init occlusion_root (mkSize 4 1) occlusion
           (mkReflowResult ∅ (Dict.keys (c_map occlusion)) ∅)).
  vm_compute. reflexivity.
Defined.

(** X2: the root is recorded last, so it is always in the map of a reflow
    that returns: with the empty order, clipped to its own size (not to
    the size given to [reflow]) and at the origin displaced by its
    offset. *)
Theorem reflow_root_entry recursion_limit c parent size c' r :
  reflow recursion_limit c parent size = (c', Ok r) ->
  exists vs,
    Dict.get (c_map c') parent
    = Some (mkRenderRegion
              (region_add (size_region (w_size parent))
                 (layout_offset parent (size_region (w_size parent))
                    (size_region (w_size parent))))
              [] (size_region (w_size parent)) vs) /\
    c_root c' = Some parent /\ c_size c' = size.
Proof.
  intros H. pose proof H as H'. apply reflow_ok_inv in H.
  destruct H as (map & widgets & Harr & Hmap & _ & _ & _ & Hsize & _).
  unfold _arrange_root in Harr. apply add_widget_last in Harr.
  destruct Harr as (m & vs & Hlast). simpl in Hlast.
  exists vs. rewrite Hmap, Hlast, dict_get_set_same.
  split; [reflexivity|]. split; [|exact Hsize].
  unfold reflow in H'.
  destruct (_arrange_root recursion_limit parent) as [[m' ws']|e];
    inversion H'; reflexivity.
Qed.

Lemma reflow_root_entry_witness :
  exists vs,
    Dict.get (c_map (fst (reflow 8 init wide_root (mkSize 4 1)))) wide_root
    = Some (mkRenderRegion (mkRegion 0 0 10 1) [] (mkRegion 0 0 10 1) vs).
Proof.
  destruct (reflow_root_entry 8 init wide_root (mkSize 4 1)
              (fst (reflow 8 init wide_root (mkSize 4 1)))
              (mkReflowResult ∅ {[0%nat]} ∅)) as (vs & H & _).
  - vm_compute. reflexivity.
  - exists vs. exact H.
Defined.

(** X3: a second reflow of the same root at the same size leaves the
    compositor as the first one left it and reports nothing shown and
    nothing hidden; it reports as resized every widget of the map whose
    own size is not the size of its region, those of the first report
    among them. *)
Theorem reflow_twice recursion_limit c parent size c' r :
  reflow recursion_limit c parent size = (c', Ok r) ->
  exists r',
    reflow recursion_limit c' parent size = (c', Ok r') /\
    shown r' = ∅ /\ hidden r' = ∅ /\
    resized r ⊆ resized r' /\
    forall i : nat,
      i ∈ resized r' <->
      exists w rr, In (w, rr) (c_map c') /\ w_id w = i /\
                   w_size w <> region_size (rr_region rr).
Proof.
  intros H. unfold reflow in H.
  destruct (_arrange_root recursion_limit parent) as [[map widgets]|e] eqn:Harr;
    [|discriminate].
  simpl in H. inversion H. subst c' r. clear H.
  unfold reflow. simpl. rewrite Harr. simpl.
  eexists. split; [reflexivity|]. simpl.
  assert (Hres : forall i : nat,
             i ∈ (list_to_set
                    (List.map (fun kv : Widget * RenderRegion => w_id (fst kv))
                       (List.filter
                          (fun '(widget, rr) =>
                             bool_decide (w_id widget ∈ Dict.keys map) &&
                             negb (size_eqb (w_size widget)
                                     (region_size (rr_region rr))))
                          map)) : gset nat) <->
             exists w rr, In (w, rr) map /\ w_id w = i /\
                          w_size w <> region_size (rr_region rr)).
  { intros i. rewrite elem_of_list_to_set, list_elem_of_In, in_map_iff. split.
    - intros [[w rr] [Hid Hin]]. simpl in Hid.
      apply filter_In in Hin. destruct Hin as [Hin Hb].
      apply andb_true_iff in Hb. destruct Hb as [_ Hsz].
      exists w, rr. repeat split; auto.
      intros Heq. apply size_eqb_eq in Heq. rewrite Heq in Hsz. discriminate.
    - intros (w & rr & Hin & Hid & Hne). exists (w, rr). split; [exact Hid|].
      apply filter_In. split; [exact Hin|].
      apply andb_true_iff. split.
      + apply bool_decide_eq_true. apply keys_elem. eauto.
      + destruct (size_eqb (w_size w) (region_size (rr_region rr))) eqn:E; auto.
        apply size_eqb_eq in E. contradiction. }
  split; [apply leibniz_equiv; intros i; rewrite elem_of_difference;
          split; [tauto|intros []%not_elem_of_empty]|].
  split; [apply leibniz_equiv; intros i; rewrite elem_of_difference;
          split; [tauto|intros []%not_elem_of_empty]|].
  split; [|exact Hres].
  intros i Hi. apply Hres.
  rewrite elem_of_list_to_set, list_elem_of_In, in_map_iff in Hi.
  destruct Hi as [[w rr] [Hid Hin]]. simpl in Hid.
  apply filter_In in Hin. destruct Hin as [Hin Hb].
  apply andb_true_iff in Hb. destruct Hb as [_ Hsz].
  exists w, rr. repeat split; auto.
  intros Heq. apply size_eqb_eq in Heq. rewrite Heq in Hsz. discriminate.
Qed.

Lemma reflow_twice_witness :
  exists r',
    reflow 8 occlusion occlusion_root (mkSize 4 1) = (occlusion, Ok r') /\
    shown r' = ∅ /\ hidden r' = ∅.
Proof.
  destruct (reflow_twice 8 init occlusion_root (mkSize 4 1) occlusion
              (mkReflowResult ∅ (Dict.keys (c_map occlusion)) ∅))
    as (r' & H1 & H2 & H3 & _).
  - vm_compute. reflexivity.
  - exists r'. auto.
Defined.

Lemma region_add_size region o :
  reg_width (region_add region o) = reg_width region /\
  reg_height (region_add region o) = reg_height region.
Proof. destruct region. split; reflexivity. Qed.

Lemma arranged_entry_clip recursion_limit root map widgets w rr :
  _arrange_root recursion_limit root = Ok (map, widgets) ->
  regions_valid root ->
  In (w, rr) map ->
  0 <= reg_width (rr_region rr) /\ 0 <= reg_height (rr_region rr) /\
  0 <= reg_width (rr_clip rr) /\ 0 <= reg_height (rr_clip rr) /\
  (region_bool (rr_clip rr) = true ->
   contains_region (size_region (w_size root)) (rr_clip rr) = true).
Proof.
  intros Harr Hvalid Hin.
  apply arrange_root_inv in Harr. destruct Harr as [(Hplaced & _ & _) _].
  simpl in Hplaced. rewrite List.Forall_forall in Hplaced.
  destruct (Hplaced _ Hin) as (region & Hp & Hreg). simpl in Hp, Hreg.
  destruct (Hvalid _ _ _ _ Hp) as [Hw Hh].
  destruct (placed_clip root Hvalid _ _ _ _ Hp) as (Hcw & Hch & Hroot).
  rewrite Hreg.
  destruct (region_add_size region (layout_offset w region (rr_clip rr))) as [-> ->].
  auto.
Qed.

(** X5: when the regions handed to [add_widget] have sizes that are not
    negative, every clip of the map has a size that is not negative, and
    the clipped region of an entry, when it has an area, lies within the
    clip of the entry and within the region of the root's own size. *)
Theorem clipped_regions_within_root recursion_limit root map widgets :
  _arrange_root recursion_limit root = Ok (map, widgets) ->
  regions_valid root ->
  forall w rr,
    In (w, rr) map ->
    let visible := intersection (rr_region rr) (rr_clip rr) in
    0 <= reg_width (rr_clip rr) /\ 0 <= reg_height (rr_clip rr) /\
    0 <= reg_width visible /\ 0 <= reg_height visible /\
    (region_bool visible = true ->
     contains_region (rr_clip rr) visible = true /\
     contains_region (rr_region rr) visible = true /\
     contains_region (size_region (w_size root)) visible = true).
Proof.
  intros Harr Hvalid w rr Hin visible.
  destruct (arranged_entry_clip _ _ _ _ _ _ Harr Hvalid Hin)
    as (Hw & Hh & Hcw & Hch & Hroot).
  destruct (intersection_valid _ _ Hw Hh Hcw Hch) as [Hvw Hvh].
  split; [exact Hcw|]. split; [exact Hch|].
  split; [exact Hvw|]. split; [exact Hvh|].
  intros Hne.
  destruct (intersection_sub _ _ Hw Hh Hcw Hch Hne) as (Hr & Hc & _ & Hcb).
  split; [exact Hc|]. split; [exact Hr|].
  eapply contains_region_trans; [apply Hroot; exact Hcb|exact Hc].
Qed.

Lemma occlusion_placed w region order clip :
  placed occlusion_root w region order clip ->
  (w = occlusion_root /\ region = mkRegion 0 0 4 1) \/
  (w = wA /\ region = mkRegion 0 0 4 1) \/
  (w = wB /\ region = mkRegion 1 0 2 1).
Proof.
  intros Hp.
  induction Hp as [|parent region order clip arrange placements widgets p sub
                     Hp IH Hlay Harr Hin Hsub].
  - left. split; reflexivity.
  - destruct IH as [[-> ->]|[[-> ->]|[-> ->]]]; [|discriminate|discriminate].
    simpl in Hlay. inversion Hlay. subst arrange. clear Hlay.
    simpl in Harr. inversion Harr. subst placements widgets. clear Harr.
    destruct Hin as [<-|[<-|[]]]; simpl in Hsub; inversion Hsub; subst sub.
    + right. left. split; reflexivity.
    + right. right. split; reflexivity.
Qed.

Lemma occlusion_regions_valid : regions_valid occlusion_root.
Proof.
  intros w region order clip Hp. apply occlusion_placed in Hp.
  destruct Hp as [[_ ->]|[[_ ->]|[_ ->]]]; simpl; lia.
Qed.

Lemma clipped_regions_within_root_witness :
  contains_region (size_region (w_size occlusion_root)) (mkRegion 1 0 2 1) = true.
Proof.
  apply (clipped_regions_within_root 8 occlusion_root (c_map occlusion)
           (c_widgets occlusion) eq_refl occlusion_regions_valid wB
           (mkRenderRegion (mkRegion 1 0 2 1) [1; 0] (mkRegion 0 0 4 1) (mkSize 2 1))).
  - simpl. right. left. reflexivity.
  - reflexivity.
Defined.

(** X6: when the root is reflowed at its own size, as the screen does, the
    guard of [cuts] on regions outside the screen never rejects a
    clipped region with an area: the cuts of every row hold [x] and
    [x + w] of every such region that covers the row. *)
Theorem cuts_hold_clipped_regions recursion_limit c parent c' r :
  reflow recursion_limit c parent (w_size parent) = (c', Ok r) ->
  regions_valid parent ->
  forall y, 0 <= y < height (w_size parent) ->
    exists row,
      nth_error (snd (cuts c')) (Z.to_nat y) = Some row /\
      forall w rr,
        In (w, rr) (c_map c') ->
        let region := intersection (rr_region rr) (rr_clip rr) in
        region_bool region = true ->
        reg_y region <= y < reg_y region + reg_height region ->
        In (reg_x region) row /\ In (reg_x region + reg_width region) row.
Proof.
  intros H Hvalid y Hy. apply reflow_ok_inv in H.
  destruct H as (map & widgets & Harr & Hmap & _ & _ & Hcuts & Hsize & _).
  rewrite (cuts_uncached c' Hcuts), compute_cuts_closed, Hsize.
  exists (cuts_row c' y). split.
  { rewrite nth_error_map.
    replace (Z.to_nat y) with (Z.to_nat (y - 0)) by lia.
    rewrite range_nth by lia. reflexivity. }
  intros w rr Hin region Hne Hrow. subst map.
  destruct (arranged_entry_clip _ _ _ _ _ _ Harr Hvalid Hin)
    as (Hw & Hh & Hcw & Hch & Hroot).
  destruct (intersection_sub _ _ Hw Hh Hcw Hch Hne) as (_ & Hc & _ & Hcb).
  assert (Hscreen : contains_region (size_region (w_size parent)) region = true).
  { eapply contains_region_trans; [apply Hroot; exact Hcb|exact Hc]. }
  assert (Hcuts_rr : region_row_cuts (size_region (c_size c')) rr y
                     = [reg_x region; reg_x region + reg_width region]).
  { unfold region_row_cuts. fold region. clearbody region.
    rewrite Hsize, Hne, Hscreen.
    destruct (Z.leb_spec (reg_y region) y); [|lia].
    destruct (Z.ltb_spec y (reg_y region + reg_height region)); [|lia].
    reflexivity. }
  split; apply cuts_row_In; right; right; exists w, rr;
    (split; [exact Hin|]); rewrite Hcuts_rr; simpl; auto.
Qed.

Lemma cuts_hold_clipped_regions_witness :
  exists row,
    nth_error (snd (cuts occlusion)) 0 = Some row /\ In 1 row /\ In 3 row.
Proof.
  destruct (cuts_hold_clipped_regions 8 init occlusion_root occlusion
              (mkReflowResult ∅ (Dict.keys (c_map occlusion)) ∅)
              eq_refl occlusion_regions_valid 0) as (row & Hrow & Hcuts).
  - simpl. lia.
  - exists row. split; [exact Hrow|].
    apply (Hcuts wB (mkRenderRegion (mkRegion 1 0 2 1) [1; 0] (mkRegion 0 0 4 1)
                       (mkSize 2 1))).
    + simpl. right. left. reflexivity.
    + reflexivity.
    + unfold intersection, corners, clamp. simpl. lia.
Defined.

(** *** Hit testing, front to back *)

Lemma iter_layers c :
  iter c
  = List.map
      (fun kv : Widget * RenderRegion =>
         (fst kv, visible_region (snd kv), rr_region (snd kv),
          rr_virtual_size (snd kv)))
      (layers_of c).
Proof.
  unfold iter, layers_of. apply map_ext. intros [w rr]. reflexivity.
Qed.

Lemma first_containing_layers (l : list (Widget * RenderRegion)) x y :
  match first_containing
          (List.map
             (fun kv : Widget * RenderRegion =>
                (fst kv, visible_region (snd kv), rr_region (snd kv),
                 rr_virtual_size (snd kv))) l) x y with
  | Ok (w, region) =>
      exists pre rr post,
        l = pre ++ (w, rr) :: post /\ region = rr_region rr /\
        contains (visible_region rr) x y = true /\
        Forall (fun kv => contains (visible_region (snd kv)) x y = false) pre
  | Raise e =>
      e = NoWidget /\
      Forall (fun kv => contains (visible_region (snd kv)) x y = false) l
  end.
Proof.
  induction l as [|[w rr] l IH]; simpl.
  - split; [reflexivity|constructor].
  - destruct (contains (visible_region rr) x y) eqn:Hc.
    + exists [], rr, l. repeat split; auto.
    + match type of IH with
      | match ?t with _ => _ end => destruct t as [[w' region]|e]
      end.
      * destruct IH as (pre & rr' & post & -> & Hreg & Hc' & Hpre).
        exists ((w, rr) :: pre), rr', post. repeat split; auto.
      * destruct IH as [-> Hall]. split; [reflexivity|]. constructor; auto.
Qed.

Lemma layers_In c kv : In kv (layers_of c) <-> In kv (c_map c).
Proof. unfold layers_of. apply sorted_reverse_In. Qed.

Lemma tuple_ltb_irrefl a : Py.tuple_ltb a a = false.
Proof.
  destruct (Py.tuple_ltb a a) eqn:E; [|reflexivity].
  pose proof (tuple_ltb_asym _ _ E). congruence.
Qed.

(** X8: [get_widget_at] returns a widget of the map whose clipped region
    holds the point, with the region of its entry (not the clipped one),
    and no widget whose clipped region holds the point has a greater
    order. *)
Theorem get_widget_at_front_most c x y w region :
  get_widget_at c x y = Ok (w, region) ->
  exists rr,
    In (w, rr) (c_map c) /\ region = rr_region rr /\
    contains (visible_region rr) x y = true /\
    forall B rrB,
      In (B, rrB) (c_map c) ->
      contains (visible_region rrB) x y = true ->
      Py.tuple_ltb (rr_order rr) (rr_order rrB) = false.
Proof.
  unfold get_widget_at. rewrite iter_layers. intros H.
  pose proof (first_containing_layers (layers_of c) x y) as Hl.
  rewrite H in Hl. destruct Hl as (pre & rr & post & Hsplit & Hreg & Hc & Hpre).
  exists rr. split.
  { apply layers_In. rewrite Hsplit. apply in_or_app. right. left. reflexivity. }
  split; [exact Hreg|]. split; [exact Hc|].
  intros B rrB HB HcB. apply layers_In in HB. rewrite Hsplit in HB.
  apply in_app_or in HB. destruct HB as [HB|[HB|HB]].
  - rewrite List.Forall_forall in Hpre. specialize (Hpre _ HB). simpl in Hpre.
    congruence.
  - inversion HB. apply tuple_ltb_irrefl.
  - pose proof (sorted_reverse_sorted
                  (fun item : Widget * RenderRegion => rr_order (snd item))
                  (c_map c)) as Hs.
    fold (layers_of c) in Hs. rewrite Hsplit in Hs. apply sorted_app_r in Hs.
    inversion Hs as [|? ? _ Hall]; subst.
    rewrite List.Forall_forall in Hall. apply (Hall _ HB).
Qed.

Lemma get_widget_at_front_most_witness :
  exists rr,
    In (wB, rr) (c_map occlusion) /\ mkRegion 1 0 2 1 = rr_region rr.
Proof.
  destruct (get_widget_at_front_most occlusion 1 0 wB (mkRegion 1 0 2 1) eq_refl)
    as (rr & Hin & Hreg & _).
  exists rr. split; [exact Hin|exact Hreg].
Defined.

(** X9: [get_widget_at] raises [NoWidget], and nothing else, exactly when no
    clipped region of the map holds the point. *)
Theorem get_widget_at_no_widget c x y :
  (forall e, get_widget_at c x y = Raise e -> e = NoWidget) /\
  (get_widget_at c x y = Raise NoWidget <->
   forall w rr, In (w, rr) (c_map c) ->
                contains (visible_region rr) x y = false).
Proof.
  unfold get_widget_at. rewrite iter_layers.
  pose proof (first_containing_layers (layers_of c) x y) as Hl.
  split.
  - intros e H. rewrite H in Hl. tauto.
  - split.
    + intros H w rr Hin. rewrite H in Hl. destruct Hl as [_ Hall].
      rewrite List.Forall_forall in Hall. apply layers_In in Hin.
      apply (Hall _ Hin).
    + intros Hnone.
      match type of Hl with
      | match ?t with _ => _ end => destruct t as [[w region]|e]
      end.
      * destruct Hl as (pre & rr & post & Hsplit & _ & Hc & _).
        assert (Hin : In (w, rr) (c_map c)).
        { apply layers_In. rewrite Hsplit. apply in_or_app. right. left.
          reflexivity. }
        rewrite (Hnone _ _ Hin) in Hc. discriminate.
      * destruct Hl as [-> _]. reflexivity.
Qed.

Lemma get_widget_at_In c x y w region :
  get_widget_at c x y = Ok (w, region) ->
  exists rr,
    In (w, rr) (c_map c) /\ region = rr_region rr /\
    contains (visible_region rr) x y = true.
Proof.
  unfold get_widget_at. rewrite iter_layers. intros H.
  pose proof (first_containing_layers (layers_of c) x y) as Hl.
  rewrite H in Hl. destruct Hl as (pre & rr & post & Hsplit & Hreg & Hc & _).
  exists rr. split; [|auto].
  apply layers_In. rewrite Hsplit. apply in_or_app. right. left. reflexivity.
Qed.

(** X10: after a reflow a hit test and the lookups agree: the widget that
    [get_widget_at] returns is in [widgets], [get_widget_region] gives
    the region returned with it and [get_offset] the origin of that
    region. *)
Theorem hit_test_lookup_agree recursion_limit c parent size c' r x y w region :
  reflow recursion_limit c parent size = (c', Ok r) ->
  get_widget_at c' x y = Ok (w, region) ->
  get_widget_region c' w = Ok region /\
  get_offset c' w = Ok (region_origin region) /\
  w_id w ∈ c_widgets c'.
Proof.
  intros H Hhit. apply reflow_ok_inv in H.
  destruct H as (map & widgets & Harr & Hmap & Hws & _).
  apply arrange_root_inv in Harr. destruct Harr as [(_ & Hkeys & Hnd) _].
  simpl in Hkeys, Hnd. subst map widgets.
  apply get_widget_at_In in Hhit. destruct Hhit as (rr & Hin & -> & _).
  pose proof (dict_get_unique _ _ _ Hnd Hin) as Hget.
  unfold get_widget_region, get_offset. rewrite Hget.
  split; [reflexivity|]. split; [reflexivity|].
  apply Hkeys. unfold ids. apply in_map_iff. exists (w, rr). auto.
Qed.

Lemma hit_test_lookup_agree_witness :
  get_widget_region occlusion wB = Ok (mkRegion 1 0 2 1).
Proof.
  apply (hit_test_lookup_agree 8 init occlusion_root (mkSize 4 1) occlusion
           (mkReflowResult ∅ (Dict.keys (c_map occlusion)) ∅) 1 0 wB
           (mkRegion 1 0 2 1)).
  - vm_compute. reflexivity.
  - reflexivity.
Defined.

Lemma filter_all {A : Type} (p : A -> bool) l :
  (forall a, In a l -> p a = true) -> List.filter p l = l.
Proof.
  induction l as [|a l IH]; intros H; [reflexivity|].
  rewrite filter_cons_eq, (H a (or_introl eq_refl)). f_equal.
  apply IH. intros b Hb. apply H. right. exact Hb.
Qed.

Lemma widget_regions_layers c :
  (forall w rr, In (w, rr) (c_map c) -> w_visible w = true) ->
  widget_regions c
  = List.map
      (fun kv : Widget * RenderRegion =>
         (fst kv, rr_region (snd kv), rr_order (snd kv), rr_clip (snd kv)))
      (layers_of c).
Proof.
  intros Hvis. unfold widget_regions, layers_of.
  destruct (c_map c) as [|kv m] eqn:E; [reflexivity|].
  rewrite filter_all by (intros [w rr] Hin; simpl; eapply Hvis; eauto).
  rewrite <- (sorted_reverse_map
                (fun item : Widget * RenderRegion => rr_order (snd item))
                (fun t : Widget * Region * list Z * Region => snd (fst t))
                Py.tuple_ltb
                (fun kv : Widget * RenderRegion =>
                   (fst kv, rr_region (snd kv), rr_order (snd kv), rr_clip (snd kv))))
    by reflexivity.
  f_equal. apply map_ext. intros [w rr]. reflexivity.
Qed.

Lemma front_hit c x y :
  (forall w rr, In (w, rr) (c_map c) ->
                w_visible w = true /\ w_is_transparent w = false) ->
  match get_widget_at c x y with
  | Ok (w, region) =>
      exists order clip, front c x y = Some (w, region, order, clip)
  | Raise _ => front c x y = None
  end.
Proof.
  intros Hall. unfold get_widget_at, front.
  rewrite iter_layers, widget_regions_layers
    by (intros w rr Hin; apply (Hall w rr Hin)).
  assert (Hsub : forall kv, In kv (layers_of c) ->
                   w_is_transparent (fst kv) = false).
  { intros [w rr] Hin. apply layers_In in Hin. apply (Hall w rr Hin). }
  induction (layers_of c) as [|[w rr] l IH]; [reflexivity|].
  cbn [List.map first_containing fst snd]. rewrite find_cons_eq.
  cbn [fst snd].
  pose proof (Hsub (w, rr) (or_introl eq_refl)) as Ht. cbn [fst] in Ht.
  rewrite Ht. fold (visible_region rr). cbn [negb andb].
  destruct (contains (visible_region rr) x y).
  - eauto.
  - apply IH. intros kv Hkv. apply Hsub. right. exact Hkv.
Qed.

(** X11: when every widget of the map is visible and not transparent, the
    hit test and the renderer agree: on a renderable compositor, with
    the row covered to the left of the point, the cell that the full
    render carries at the point is the cell of the widget that
    [get_widget_at] returns there. *)
Theorem hit_test_matches_render c x y w region :
  renderable c = true ->
  (forall w' rr, In (w', rr) (c_map c) ->
                 w_visible w' = true /\ w_is_transparent w' = false) ->
  0 <= y < height (c_size c) ->
  (forall x', 0 <= x' < x -> covered c x' y = true) ->
  get_widget_at c x y = Ok (w, region) ->
  exists lines : Lines,
    snd (render c None) = Ok lines /\
    nth_error (Seg.line_cells (nth (Z.to_nat y) lines [])) (Z.to_nat x)
    = widget_cell w region x y /\
    widget_cell w region x y <> None.
Proof.
  intros Hren Hall Hy Hcov Hhit.
  pose proof (front_hit c x y Hall) as Hfront. rewrite Hhit in Hfront.
  destruct Hfront as (order & clip & Hfront).
  destruct (render_rows c Hren) as (lines & Hrender & _ & Hrows).
  exists lines. split; [exact Hrender|].
  rewrite (Hrows y Hy).
  apply (row_cell c y x w region order clip Hren Hcov Hfront).
Qed.

Lemma hit_test_matches_render_witness :
  exists lines : Lines,
    snd (render solid None) = Ok lines /\
    nth_error (Seg.line_cells (nth (Z.to_nat 0) lines [])) (Z.to_nat 1)
    = Some ("C"%char, Some (Style_of "c")).
Proof.
  destruct (hit_test_matches_render solid 1 0 wTop (mkRegion 1 0 2 1))
    as (lines & Hrender & Hcell & _).
  - vm_compute. reflexivity.
  - intros w' rr Hin.
    destruct Hin as [Hin|[Hin|[Hin|[]]]]; inversion Hin; subst;
      split; reflexivity.
  - simpl. lia.
  - intros x' Hx'. assert (x' = 0) by lia. subst x'. reflexivity.
  - reflexivity.
  - exists lines. split; [exact Hrender|exact Hcell].
Defined.

(** *** The style under a point *)

Lemma style_in_line_cell line : forall x e,
  e <= x ->
  style_in_line line x e
  = cell_style (nth_error (Seg.line_cells line) (Z.to_nat (x - e))).
Proof.
  induction line as [|segment line IH]; intros x e He.
  - simpl. destruct (Z.to_nat (x - e)); reflexivity.
  - cbn [style_in_line]. rewrite line_cells_cons.
    pose proof (cells_length segment) as Hlen.
    destruct (Z.ltb_spec x (e + Seg.cell_length segment)) as [Hlt|Hge].
    + rewrite nth_error_app1 by lia.
      unfold Seg.cells. rewrite nth_error_map.
      destruct (nth_error (seg_text segment) (Z.to_nat (x - e))) as [ch|] eqn:E.
      * reflexivity.
      * apply nth_error_None in E. unfold Seg.cell_length in Hlt. lia.
    + rewrite IH by lia. rewrite nth_error_app2 by lia.
      do 2 f_equal. lia.
Qed.

(** X12: within the lines of the widget under the point, [get_style_at]
    returns the style of the cell of the widget's lines at that point:
    the row is counted from the top of the widget's region and the
    column from its left edge; past the end of the line the style is
    null. *)
Theorem get_style_at_cell c x y w region :
  get_widget_at c x y = Ok (w, region) ->
  Dict.mem (c_regions c) w = true ->
  reg_x region <= x ->
  0 <= y - reg_y region < Z.of_nat (length (w_get_lines w)) ->
  get_style_at c x y = Ok (cell_style (widget_cell w region x y)).
Proof.
  intros Hhit Hmem Hx Hy. unfold get_style_at. rewrite Hhit, Hmem.
  cbn [negb].
  destruct (Z.ltb_spec (Z.of_nat (length (w_get_lines w))) (y - reg_y region));
    [lia|].
  destruct (nth_error (w_get_lines w) (Z.to_nat (y - reg_y region)))
    as [line|] eqn:Hline.
  - rewrite (index_nth _ _ line) by (lia || exact Hline).
    cbn. rewrite style_in_line_cell by lia.
    unfold widget_cell. rewrite (nth_error_nth_default _ _ line []) by exact Hline.
    do 3 f_equal. lia.
  - apply nth_error_None in Hline. lia.
Qed.

Lemma get_style_at_cell_witness :
  get_style_at occlusion 1 0 = Ok (Style_of "b").
Proof.
  apply (get_style_at_cell occlusion 1 0 wB (mkRegion 1 0 2 1)).
  - reflexivity.
  - reflexivity.
  - simpl. lia.
  - simpl. lia.
Defined.

(** *** The cached cuts *)

Lemma render_fst c crop : fst (render c crop) = fst (cuts c).
Proof. unfold render. destruct (cuts c). reflexivity. Qed.

Lemma cuts_fst_valid c : cuts_cache_valid c -> cuts_cache_valid (fst (cuts c)).
Proof.
  unfold cuts_cache_valid, cuts. destruct (c_cuts c) as [cs|] eqn:E; simpl.
  - rewrite E. auto.
  - intros _. reflexivity.
Qed.

Lemma update_widget_fst c widget :
  fst (fst (update_widget c widget)) = c \/
  exists crop, fst (fst (update_widget c widget)) = fst (render c crop).
Proof.
  rewrite update_widget_unfold.
  destruct (Dict.get (c_regions c) widget) as [[region clip]|]; [|auto].
  destruct (negb (region_bool region)); [auto|].
  destruct (negb (region_bool (intersection region clip))); [auto|].
  right. eexists. reflexivity.
Qed.

Lemma run_valid c op : cuts_cache_valid c -> cuts_cache_valid (run c op).
Proof.
  intros Hvalid. destruct op as [n parent size| | | |crop|widget]; simpl.
  - unfold reflow. destruct (_arrange_root n parent) as [[map widgets]|e];
      exact I.
  - exact I.
  - exact Hvalid.
  - apply cuts_fst_valid. exact Hvalid.
  - rewrite render_fst. apply cuts_fst_valid. exact Hvalid.
  - destruct (update_widget_fst c widget) as [->|[crop ->]]; [exact Hvalid|].
    rewrite render_fst. apply cuts_fst_valid. exact Hvalid.
Qed.

Lemma run_all_valid ops : cuts_cache_valid (run_all ops).
Proof.
  unfold run_all.
  assert (H : forall c, cuts_cache_valid c -> cuts_cache_valid (fold_left run ops c)).
  { induction ops as [|op ops IH]; intros c Hc; simpl; [exact Hc|].
    apply IH. apply run_valid. exact Hc. }
  apply H. exact I.
Qed.

(** X7: whatever sequence of reflows, invalidations, renders and partial
    updates a compositor has gone through, the cuts it has cached (if
    any) are the cuts of its present map and size: both only change in
    [reflow] and [require_update], which drop the cache; so the cuts
    that a render uses are never stale. *)
Theorem cuts_cache_never_stale ops :
  cuts_cache_valid (run_all ops) /\
  snd (cuts (run_all ops)) = compute_cuts (run_all ops) /\
  forall y, 0 <= y < height (c_size (run_all ops)) ->
    nth_error (snd (cuts (run_all ops))) (Z.to_nat y)
    = Some (cuts_row (run_all ops) y).
Proof.
  pose proof (run_all_valid ops) as Hvalid.
  split; [exact Hvalid|].
  destruct (cuts_of_valid _ Hvalid) as (Hcuts & _).
  split; [exact Hcuts|].
  intros y Hy. rewrite Hcuts, compute_cuts_closed, nth_error_map.
  replace (Z.to_nat y) with (Z.to_nat (y - 0)) by lia.
  rewrite range_nth by lia. reflexivity.
Qed.

(** X14: [render] and [update_widget] change nothing of the compositor but
    the cached cuts, and what a later render returns is what it would
    have returned before them. *)
Theorem render_only_caches_cuts c crop :
  let c' := fst (render c crop) in
  c_map c' = c_map c /\ c_widgets c' = c_widgets c /\
  c_regions c' = c_regions c /\ c_size c' = c_size c /\
  c_root c' = c_root c /\ c_require_update c' = c_require_update c /\
  (forall crop', snd (render c' crop') = snd (render c crop')) /\
  (forall widget,
      snd (update_widget c' widget) = snd (update_widget c widget) /\
      c_map (fst (fst (update_widget c widget))) = c_map c /\
      c_regions (fst (fst (update_widget c widget))) = c_regions c).
Proof.
  intros c'. subst c'. rewrite render_fst.
  assert (Hcuts : cuts (fst (cuts c)) = (fst (cuts c), snd (cuts c))).
  { unfold cuts. destruct (c_cuts c) as [cs|] eqn:E; simpl; [rewrite E|];
      reflexivity. }
  assert (Hfields : c_map (fst (cuts c)) = c_map c /\
                    c_widgets (fst (cuts c)) = c_widgets c /\
                    c_regions (fst (cuts c)) = c_regions c /\
                    c_size (fst (cuts c)) = c_size c /\
                    c_root (fst (cuts c)) = c_root c /\
                    c_require_update (fst (cuts c)) = c_require_update c).
  { unfold cuts. destruct (c_cuts c); simpl; repeat split; reflexivity. }
  destruct Hfields as (Hmap & Hws & Hreg & Hsize & Hroot & Hflag).
  assert (Hrender : forall crop',
             snd (render (fst (cuts c)) crop') = snd (render c crop')).
  { intros crop'. unfold render. rewrite Hcuts, Hsize.
    destruct (cuts c) as [c1 cs] eqn:Ec. simpl fst in *. simpl snd in *.
    assert (Hren : _get_renders c1 = _get_renders c).
    { unfold _get_renders, widget_regions. rewrite Hmap. reflexivity. }
    assert (Hmap1 : c_map (fst (cuts c)) = c_map c1) by (rewrite Ec; reflexivity).
    reflexivity. }
  split; [exact Hmap|]. split; [exact Hws|]. split; [exact Hreg|].
  split; [exact Hsize|]. split; [exact Hroot|]. split; [exact Hflag|].
  split; [exact Hrender|].
  intros widget. rewrite !update_widget_unfold, Hreg.
  destruct (Dict.get (c_regions c) widget) as [[region clip]|]; [|auto].
  destruct (negb (region_bool region)); [auto|].
  destruct (negb (region_bool (intersection region clip))); [auto|].
  simpl. rewrite Hrender, !render_fst, Hmap, Hreg. auto.
Qed.

(** What every operation keeps true of the map and the set of widgets. *)
Lemma run_keys c op :
  ((forall i, In i (ids (c_map c)) -> i ∈ c_widgets c) /\
   List.NoDup (ids (c_map c))) ->
  (forall i, In i (ids (c_map (run c op))) -> i ∈ c_widgets (run c op)) /\
  List.NoDup (ids (c_map (run c op))).
Proof.
  intros Hinv. destruct op as [n parent size| | | |crop|widget]; simpl.
  - unfold reflow.
    destruct (_arrange_root n parent) as [[map widgets]|e] eqn:Harr; simpl.
    + apply arrange_root_inv in Harr. destruct Harr as [(_ & Hkeys & Hnd) _].
      auto.
    + exact Hinv.
  - split; [intros i []|constructor].
  - exact Hinv.
  - unfold cuts. destruct (c_cuts c); exact Hinv.
  - rewrite render_fst. unfold cuts. destruct (c_cuts c); exact Hinv.
  - destruct (update_widget_fst c widget) as [->|[crop ->]]; [exact Hinv|].
    rewrite render_fst. unfold cuts. destruct (c_cuts c); exact Hinv.
Qed.

Lemma run_all_keys ops :
  (forall i, In i (ids (c_map (run_all ops))) -> i ∈ c_widgets (run_all ops)) /\
  List.NoDup (ids (c_map (run_all ops))).
Proof.
  unfold run_all.
  assert (H : forall c,
             ((forall i, In i (ids (c_map c)) -> i ∈ c_widgets c) /\
              List.NoDup (ids (c_map c))) ->
             (forall i, In i (ids (c_map (fold_left run ops c))) ->
                        i ∈ c_widgets (fold_left run ops c)) /\
             List.NoDup (ids (c_map (fold_left run ops c)))).
  { induction ops as [|op ops IH]; intros c Hc; simpl; [exact Hc|].
    apply IH. apply run_keys. exact Hc. }
  apply H. split; [intros i []|constructor].
Qed.

(** X4: whatever a compositor has gone through, [widgets] holds every
    widget of the map (it may hold more), and every entry of the map is
    the one that the lookups of its widget find. *)
Theorem widgets_hold_map_keys ops :
  Dict.keys (c_map (run_all ops)) ⊆ c_widgets (run_all ops) /\
  forall w rr,
    In (w, rr) (c_map (run_all ops)) ->
    w_id w ∈ c_widgets (run_all ops) /\
    get_widget_region (run_all ops) w = Ok (rr_region rr) /\
    get_offset (run_all ops) w = Ok (region_origin (rr_region rr)).
Proof.
  destruct (run_all_keys ops) as [Hkeys Hnd].
  split.
  - intros i Hi. apply Hkeys. apply keys_ids. exact Hi.
  - intros w rr Hin. split.
    + apply Hkeys. unfold ids. apply in_map_iff. exists (w, rr). auto.
    + unfold get_widget_region, get_offset.
      rewrite (dict_get_unique _ _ _ Hnd Hin). auto.
Qed.

(** *** Rendering an empty map *)

Lemma fromkeys_all_none cs :
  omap (fun kv : Z * option Line => snd kv) (fromkeys cs) = [].
Proof.
  unfold fromkeys.
  assert (Hset : forall (d : Chops) k,
             omap (fun kv : Z * option Line => snd kv) d = [] ->
             omap (fun kv : Z * option Line => snd kv) (chop_set d k None) = []).
  { induction d as [|[k0 v0] d IH]; intros k Hd; [reflexivity|].
    simpl. destruct v0 as [l|]; [discriminate|].
    destruct (k0 =? k); simpl.
    - exact Hd.
    - apply IH. exact Hd. }
  assert (H : forall cs (d : Chops),
             omap (fun kv : Z * option Line => snd kv) d = [] ->
             omap (fun kv : Z * option Line => snd kv)
               (fold_left (fun d cut => chop_set d cut None) cs d) = []).
  { clear cs. induction cs as [|k cs IH]; intros d Hd; simpl; [exact Hd|].
    apply IH. apply Hset. exact Hd. }
  apply H. reflexivity.
Qed.

Lemma assemble_unpainted (cuts : list (list Z)) :
  _assemble_chops (List.map fromkeys cuts) = List.map (fun _ => []) cuts.
Proof.
  unfold _assemble_chops. rewrite List.map_map. apply map_ext.
  intros cs. rewrite fromkeys_all_none. reflexivity.
Qed.

Lemma fill_empty_map c :
  c_map c = [] -> fill c = Ok (List.map fromkeys (compute_cuts c)).
Proof.
  intros Hmap. unfold fill, _get_renders, widget_regions. rewrite Hmap.
  reflexivity.
Qed.

Lemma width_view_blank cx cx2 (lines : Lines) :
  Forall (fun line => line = []) lines ->
  map_result (width_view cx cx2) lines = Ok lines.
Proof.
  induction 1 as [|line lines Hline _ IH]; [reflexivity|].
  rewrite map_result_cons, Hline. cbn. rewrite IH. reflexivity.
Qed.

Lemma render_blank c crop :
  c_map c = [] -> cuts_cache_valid c ->
  exists lines : Lines,
    snd (render c crop) = Ok lines /\
    Forall (fun line => line = []) lines /\
    (crop = None -> length lines = Z.to_nat (height (c_size c))).
Proof.
  intros Hmap Hvalid. rewrite (render_unfold c crop Hvalid), (fill_empty_map c Hmap).
  cbn [mbind result_bind]. rewrite assemble_unpainted.
  assert (Hall : Forall (fun line : Line => line = [])
                   (List.map (fun _ : list Z => ([] : Line)) (compute_cuts c))).
  { apply List.Forall_forall. intros line Hin. apply in_map_iff in Hin.
    destruct Hin as (cs & <- & _). reflexivity. }
  destruct crop as [cr|].
  - unfold crop_view.
    destruct (corners _) as [[[cx cy] cx2] cy2].
    assert (Hsl : Forall (fun line : Line => line = [])
                    (Py.slice
                       (List.map (fun _ : list Z => ([] : Line)) (compute_cuts c))
                       cy cy2)).
    { unfold Py.slice. apply List.Forall_forall. intros line Hin.
      apply In_firstn, In_skipn in Hin.
      rewrite List.Forall_forall in Hall. apply Hall. exact Hin. }
    match goal with
    | |- context [if ?b then _ else _] => destruct b
    end.
    + eexists. split; [apply width_view_blank; exact Hsl|].
      split; [exact Hsl|discriminate].
    + eexists. split; [reflexivity|]. split; [exact Hsl|discriminate].
  - eexists. split; [reflexivity|]. split; [exact Hall|].
    intros _. rewrite length_map. apply compute_cuts_length.
Qed.

Lemma map_const_repeat {A B : Type} (b : B) (l : list A) :
  List.map (fun _ => b) l = repeat b (length l).
Proof. induction l as [|a l IH]; simpl; [reflexivity|]. rewrite IH. reflexivity. Qed.

(** X16: right after [require_update] (or on a new compositor) the map is
    empty and a render never raises: it returns one empty line per row
    of the screen, and for a crop nothing but empty lines. *)
Theorem render_after_require_update c :
  snd (render (require_update c) None)
  = Ok (repeat [] (Z.to_nat (height (c_size c)))) /\
  snd (render init None) = Ok [] /\
  forall crop,
    exists lines : Lines,
      snd (render (require_update c) crop) = Ok lines /\
      Forall (fun line => line = []) lines.
Proof.
  assert (Hvalid : cuts_cache_valid (require_update c)) by exact I.
  split; [|split; [reflexivity|]].
  - rewrite (render_unfold _ None Hvalid), fill_empty_map by reflexivity.
    cbn [mbind result_bind]. rewrite assemble_unpainted, map_const_repeat.
    rewrite compute_cuts_length. reflexivity.
  - intros crop.
    destruct (render_blank (require_update c) crop eq_refl Hvalid)
      as (lines & Hr & Hall & _).
    exists lines. auto.
Qed.

(** X17: [require_update] empties the map but keeps [regions]: until the
    next reflow a widget that was arranged can no longer be looked up or
    hit, yet [update_widget] still clears its render cache and returns a
    patch for its old clipped region, made of empty lines only. *)
Theorem update_widget_after_require_update c widget region clip :
  Dict.get (c_regions c) widget = Some (region, clip) ->
  region_bool region = true ->
  region_bool (intersection region clip) = true ->
  get_widget_region (require_update c) widget = Raise NoWidget /\
  snd (fst (update_widget (require_update c) widget))
  = [ClearRenderCache (w_id widget)] /\
  exists lines : Lines,
    snd (update_widget (require_update c) widget)
    = Ok (Some (mkLayoutUpdate lines (intersection region clip))) /\
    Forall (fun line => line = []) lines.
Proof.
  intros Hget Hreg Hvis.
  split; [reflexivity|].
  rewrite update_widget_unfold.
  change (c_regions (require_update c)) with (c_regions c).
  rewrite Hget, Hreg, Hvis. cbn [negb fst snd].
  split; [reflexivity|].
  destruct (render_blank (require_update c) (Some (intersection region clip))
              eq_refl I) as (lines & Hr & Hall & _).
  exists lines. rewrite Hr. split; [reflexivity|exact Hall].
Qed.

Lemma update_widget_after_require_update_witness :
  exists lines : Lines,
    snd (update_widget (require_update occlusion) wB)
    = Ok (Some (mkLayoutUpdate lines (mkRegion 1 0 2 1))) /\
    Forall (fun line => line = []) lines.
Proof.
  destruct (update_widget_after_require_update occlusion wB
              (mkRegion 1 0 2 1) (mkRegion 0 0 4 1))
    as (_ & _ & lines & Hr & Hall).
  - reflexivity.
  - reflexivity.
  - reflexivity.
  - exists lines. split; [exact Hr|exact Hall].
Defined.

(** *** The patch on a terminal *)

Lemma enumerate_shift {A : Type} (l : list A) : forall s k,
  enumerate l (s + k) = List.map (fun '(j, a) => (j + k, a)) (enumerate l s).
Proof.
  induction l as [|a l IH]; intros s k; simpl; [reflexivity|].
  f_equal. replace (s + k + 1) with (s + 1 + k) by lia. apply IH.
Qed.

Lemma enumerate_length {A : Type} (l : list A) s :
  length (enumerate l s) = length l.
Proof. revert s. induction l as [|a l IH]; intros s; simpl; auto. Qed.

Lemma enumerate_app {A : Type} (l1 l2 : list A) s :
  enumerate (l1 ++ l2) s
  = enumerate l1 s ++ enumerate l2 (s + Z.of_nat (length l1)).
Proof.
  revert s. induction l1 as [|a l1 IH]; intros s; simpl.
  - f_equal. lia.
  - f_equal. rewrite IH. do 2 f_equal. lia.
Qed.

Lemma cells_at_app x y cs1 cs2 :
  cells_at x y (cs1 ++ cs2)
  = cells_at x y cs1 ++ cells_at (x + Z.of_nat (length cs1)) y cs2.
Proof.
  unfold cells_at. rewrite enumerate_app, List.map_app. f_equal.
  rewrite (enumerate_shift cs2 0 (Z.of_nat (length cs1))), List.map_map.
  apply map_ext. intros [j cell]. f_equal. f_equal. lia.
Qed.

Lemma write_text_cells text style : forall cx cy,
  Forall (fun ch => Ascii.eqb ch "010"%char = false) text ->
  write_text text style (cx, cy)
  = (cells_at cx cy (List.map (fun ch => (ch, style)) text),
     (cx + Z.of_nat (length text), cy)).
Proof.
  induction text as [|ch text IH]; intros cx cy Hall.
  - simpl. f_equal. f_equal. lia.
  - apply List.Forall_cons_iff in Hall. destruct Hall as [Hch Hall].
    cbn [write_text]. rewrite Hch. cbn [fst snd]. rewrite (IH _ _ Hall).
    f_equal.
    + change (List.map (fun ch0 => (ch0, style)) (ch :: text))
        with ([(ch, style)] ++ List.map (fun ch0 => (ch0, style)) text).
      rewrite cells_at_app. simpl. f_equal. f_equal. f_equal. lia.
    + f_equal. simpl length. lia.
Qed.

Lemma terminal_line (line : Line) rest : forall cx cy,
  Forall (fun segment : Segment =>
            Forall (fun ch => Ascii.eqb ch "010"%char = false) (seg_text segment))
    line ->
  terminal (List.map Item_segment line ++ rest) (cx, cy)
  = cells_at cx cy (Seg.line_cells line)
    ++ terminal rest (cx + Seg.line_length line, cy).
Proof.
  induction line as [|segment line IH]; intros cx cy Hall.
  - simpl. f_equal. unfold Seg.line_length. simpl. f_equal. lia.
  - apply List.Forall_cons_iff in Hall. destruct Hall as [Hseg Hall].
    cbn [List.map app terminal]. rewrite (write_text_cells _ _ _ _ Hseg).
    rewrite (IH _ _ Hall), line_cells_cons, cells_at_app, <- app_assoc.
    fold (Seg.cells segment). f_equal.
    unfold Seg.cells at 1. rewrite length_map. f_equal. f_equal.
    rewrite line_length_cons. unfold Seg.cell_length. f_equal. lia.
Qed.

Lemma terminal_rows x (lines : Lines) : forall y cursor,
  no_new_line lines ->
  terminal
    (flat_map
       (fun '(last, (y, line)) =>
          Control_move_to x y
          :: List.map Item_segment line
          ++ (if negb last then [Item_segment Segment_line] else []))
       (loop_last (enumerate lines y))) cursor
  = List.concat
      (List.map (fun '(y, line) => cells_at x y (Seg.line_cells line))
         (enumerate lines y)).
Proof.
  induction lines as [|line lines IH]; intros y cursor Hall; [reflexivity|].
  apply List.Forall_cons_iff in Hall. destruct Hall as [Hline Hall].
  cbn [enumerate loop_last].
  destruct lines as [|line' lines].
  - cbn [enumerate flat_map List.map List.concat negb terminal app].
    rewrite (app_nil_r (List.map Item_segment line ++ [])).
    rewrite (terminal_line _ _ _ _ Hline). reflexivity.
  - cbn [enumerate]. cbn [flat_map negb]. cbn [app terminal].
    rewrite <- app_assoc. rewrite (terminal_line _ _ _ _ Hline).
    cbn [List.map List.concat]. f_equal.
    cbn [app terminal Segment_line seg_text seg_style write_text].
    cbn. apply (IH (y + 1) _ Hall).
Qed.

Lemma console_rows_end x (lines : Lines) : forall y,
  lines <> [] ->
  exists pre,
    flat_map
      (fun '(last, (y, line)) =>
         Control_move_to x y
         :: List.map Item_segment line
         ++ (if negb last then [Item_segment Segment_line] else []))
      (loop_last (enumerate lines y))
    = pre ++ Control_move_to x (y + Z.of_nat (length lines) - 1)
          :: List.map Item_segment (List.last lines []).
Proof.
  induction lines as [|line lines IH]; intros y Hne; [contradiction|].
  destruct lines as [|line' lines].
  - exists []. cbn [enumerate loop_last flat_map negb app List.last length].
    rewrite !app_nil_r. do 2 f_equal. lia.
  - destruct (IH (y + 1)) as (pre & Hpre); [discriminate|].
    exists ((Control_move_to x y
             :: List.map Item_segment line ++ [Item_segment Segment_line]) ++ pre).
    cbn [enumerate loop_last]. cbn [enumerate loop_last] in Hpre.
    cbn [flat_map]. cbn [flat_map] in Hpre. rewrite Hpre.
    cbn [negb]. rewrite <- !app_assoc.
    change (List.last (line :: line' :: lines) []) with (List.last (line' :: lines) []).
    do 5 f_equal. simpl length. lia.
Qed.

(** X18: on a terminal that obeys the controls, and wherever its cursor was,
    the patch writes the cells of its line [i] on row [region.y + i]
    from column [region.x] on, and nothing else (for lines that hold no
    new line character): the new line it yields between two lines does
    not move what follows.  What it yields ends with the move to the
    last row and the segments of the last line: no new line follows. *)
Theorem patch_written u cursor :
  no_new_line (lu_lines u) ->
  terminal (layout_update_console u) cursor
  = List.concat
      (List.map
         (fun '(y, line) => cells_at (reg_x (lu_region u)) y (Seg.line_cells line))
         (enumerate (lu_lines u) (reg_y (lu_region u)))) /\
  (lu_lines u <> [] ->
   exists pre,
     layout_update_console u
     = pre ++ Control_move_to (reg_x (lu_region u))
                (reg_y (lu_region u) + Z.of_nat (length (lu_lines u)) - 1)
           :: List.map Item_segment (List.last (lu_lines u) [])).
Proof.
  intros Hall. split.
  - unfold layout_update_console. cbn [terminal].
    apply terminal_rows. exact Hall.
  - intros Hne. unfold layout_update_console.
    destruct (console_rows_end (reg_x (lu_region u)) (lu_lines u)
                (reg_y (lu_region u)) Hne) as (pre & Hpre).
    exists (Control_home :: pre). cbv zeta. rewrite Hpre. reflexivity.
Qed.

Lemma patch_written_witness :
  terminal
    (layout_update_console
       (mkLayoutUpdate [[seg "AB" "a"]; [seg "C" "c"]] (mkRegion 3 5 2 2))) (9, 9)
  = [(3, 5, ("A"%char, Some (Style_of "a")));
     (4, 5, ("B"%char, Some (Style_of "a")));
     (3, 6, ("C"%char, Some (Style_of "c")))].
Proof.
  apply (patch_written
           (mkLayoutUpdate [[seg "AB" "a"]; [seg "C" "c"]] (mkRegion 3 5 2 2)) (9, 9)).
  repeat constructor.
Defined.

(** *** The screen: layout refresh *)

Lemma iter_In c w cropped region vs :
  In (w, cropped, region, vs) (iter c) <->
  exists rr,
    In (w, rr) (c_map c) /\ cropped = visible_region rr /\
    region = rr_region rr /\ vs = rr_virtual_size rr.
Proof.
  rewrite iter_layers, in_map_iff. split.
  - intros [[w' rr] [Heq Hin]]. simpl in Heq. inversion Heq; subst.
    exists rr. apply layers_In in Hin. auto.
  - intros (rr & Hin & -> & -> & ->). exists (w, rr). split; [reflexivity|].
    apply layers_In. exact Hin.
Qed.

Lemma notify_sizes_update send layers i sz :
  In (UpdateSize i sz) (notify_sizes send layers) <->
  exists w cropped region vs,
    In (w, cropped, region, vs) layers /\ w_id w = i /\ sz = region_size region.
Proof.
  unfold notify_sizes. rewrite in_flat_map. split.
  - intros [[[[w cropped] region] vs] [Hin Heff]].
    destruct Heff as [Heq|Heff].
    + inversion Heq; subst. exists w, cropped, region, vs. auto.
    + destruct (bool_decide (w_id w ∈ send)); [|destruct Heff].
      destruct Heff as [Heq|[]]. discriminate.
  - intros (w & cropped & region & vs & Hin & <- & ->).
    exists (w, cropped, region, vs). split; [exact Hin|]. left. reflexivity.
Qed.

Lemma notify_sizes_resize send layers i sz vsz :
  In (PostResize i sz vsz) (notify_sizes send layers) <->
  exists w cropped region,
    In (w, cropped, region, vsz) layers /\ w_id w = i /\
    sz = region_size region /\ i ∈ send.
Proof.
  unfold notify_sizes. rewrite in_flat_map. split.
  - intros [[[[w cropped] region] vs] [Hin Heff]].
    destruct Heff as [Heq|Heff]; [discriminate|].
    destruct (bool_decide (w_id w ∈ send)) eqn:Hb; [|destruct Heff].
    destruct Heff as [Heq|[]]. inversion Heq; subst.
    apply bool_decide_eq_true in Hb.
    exists w, cropped, region. auto.
  - intros (w & cropped & region & Hin & <- & -> & Hsend).
    exists (w, cropped, region, vsz). split; [exact Hin|]. right.
    rewrite bool_decide_eq_true_2 by exact Hsend. left. reflexivity.
Qed.

Lemma notify_sizes_only send layers eff :
  In eff (notify_sizes send layers) ->
  (exists i sz, eff = UpdateSize i sz) \/ (exists i sz vs, eff = PostResize i sz vs).
Proof.
  unfold notify_sizes. rewrite in_flat_map.
  intros [[[[w cropped] region] vs] [Hin Heff]].
  destruct Heff as [<-|Heff]; [left; eauto|].
  destruct (bool_decide (w_id w ∈ send)); [|destruct Heff].
  destruct Heff as [<-|[]]. right. eauto.
Qed.

Lemma refresh_layout_ok recursion_limit size_bool s c' r :
  size_bool (w_size (scr_self s)) = true ->
  reflow recursion_limit (scr_compositor s) (scr_self s) (w_size (scr_self s))
  = (c', Ok r) ->
  refresh_layout recursion_limit size_bool s
  = (mkScreen (scr_self s) c',
     (List.map PostHide (elements (hidden r))
      ++ List.map PostShow (elements (shown r))
      ++ notify_sizes (shown r ∪ resized r) (iter c')) ++ [AppRefresh]).
Proof.
  intros Hsize Hreflow. unfold refresh_layout. rewrite Hsize, Hreflow.
  reflexivity.
Qed.

Lemma ids_inj {V : Type} (m : list (Widget * V)) p p' :
  List.NoDup (ids m) -> In p m -> In p' m -> w_id (fst p) = w_id (fst p') ->
  p = p'.
Proof.
  unfold ids. induction m as [|q m IH]; intros Hnd Hin Hin' Hid; [destruct Hin|].
  simpl in Hnd. apply List.NoDup_cons_iff in Hnd. destruct Hnd as [Hq Hnd].
  destruct Hin as [->|Hin], Hin' as [->|Hin'].
  - reflexivity.
  - exfalso. apply Hq. rewrite Hid. apply in_map_iff. exists p'. auto.
  - exfalso. apply Hq. rewrite <- Hid. apply in_map_iff. exists p. auto.
  - apply IH; auto.
Qed.

Lemma sorted_reverse_length {A K : Type} (key : A -> K) (ltb : K -> K -> bool) l :
  length (Py.sorted_reverse key ltb l) = length l.
Proof.
  assert (Hins : forall a l', length (Py.insert_desc key ltb a l') = S (length l')).
  { intros a l'. induction l' as [|b l' IH]; simpl; [reflexivity|].
    destruct (ltb (key a) (key b)); simpl; [rewrite IH|]; reflexivity. }
  induction l as [|a l IH]; simpl; [reflexivity|].
  unfold Py.sorted_reverse in *. rewrite Hins, IH. reflexivity.
Qed.

Lemma iter_length c : length (iter c) = length (c_map c).
Proof. rewrite iter_layers, length_map. apply sorted_reverse_length. Qed.

Lemma notify_sizes_count send layers :
  length (List.filter is_update_size (notify_sizes send layers)) = length layers.
Proof.
  induction layers as [|[[[w cropped] region] vs] layers IH]; [reflexivity|].
  change (notify_sizes send ((w, cropped, region, vs) :: layers))
    with ((UpdateSize (w_id w) (region_size region)
           :: (if bool_decide (w_id w ∈ send)
               then [PostResize (w_id w) (region_size region) vs]
               else []))
          ++ notify_sizes send layers).
  rewrite List.filter_app, length_app, IH.
  destruct (bool_decide (w_id w ∈ send)); reflexivity.
Qed.

Lemma filter_none {A : Type} (p : A -> bool) l :
  (forall a, In a l -> p a = false) -> List.filter p l = [].
Proof.
  induction l as [|a l IH]; intros H; [reflexivity|].
  rewrite filter_cons_eq, (H a (or_introl eq_refl)).
  apply IH. intros b Hb. apply H. right. exact Hb.
Qed.

(** X20: a refresh of the layout that succeeds tells every widget of the new
    map the size of its region, once each, posts [Hide] to the widgets
    that left the map, [Show] to those that entered it, and [Resize]
    exactly to the widgets
    of the new map that entered it or whose own size is not the size of
    their region; it never panics and ends with a refresh of the
    application. *)
Theorem refresh_layout_notifies recursion_limit size_bool s c' r :
  size_bool (w_size (scr_self s)) = true ->
  reflow recursion_limit (scr_compositor s) (scr_self s) (w_size (scr_self s))
  = (c', Ok r) ->
  let old := Dict.keys (c_map (scr_compositor s)) in
  let effects := snd (refresh_layout recursion_limit size_bool s) in
  scr_compositor (fst (refresh_layout recursion_limit size_bool s)) = c' /\
  (forall i, In (PostHide i) effects <-> i ∈ old /\ i ∉ Dict.keys (c_map c')) /\
  (forall i, In (PostShow i) effects <-> i ∈ Dict.keys (c_map c') /\ i ∉ old) /\
  (forall i sz,
      In (UpdateSize i sz) effects <->
      exists w rr, In (w, rr) (c_map c') /\ w_id w = i /\
                   sz = region_size (rr_region rr)) /\
  (forall i sz vs,
      In (PostResize i sz vs) effects <->
      exists w rr, In (w, rr) (c_map c') /\ w_id w = i /\
                   sz = region_size (rr_region rr) /\
                   vs = rr_virtual_size rr /\
                   (i ∉ old \/ w_size w <> sz)) /\
  length (List.filter is_update_size effects) = length (c_map c') /\
  ~ In AppPanic effects /\
  List.last effects AppPanic = AppRefresh.
Proof.
  intros Hsize Hreflow old effects. subst effects.
  rewrite (refresh_layout_ok _ _ _ _ _ Hsize Hreflow). cbn [fst snd scr_compositor].
  pose proof Hreflow as Hinv. apply reflow_ok_inv in Hinv.
  destruct Hinv as (map & widgets & Harr & Hmap & _ & _ & _ & _ & _ & Hs & Hh & Hr).
  apply arrange_root_inv in Harr. destruct Harr as [(_ & _ & Hnd) _].
  simpl in Hnd. subst map. fold old in Hs, Hh, Hr.
  split; [reflexivity|].
  split.
  { intros i. rewrite !in_app_iff, in_map_iff. split.
    - intros [[[j [Heq Hin]]|[Hin|Hin]]|[Heq|[]]]; try discriminate.
      + inversion Heq; subst j. apply list_elem_of_In, elem_of_elements in Hin.
        rewrite Hh in Hin. apply elem_of_difference in Hin. exact Hin.
      + apply in_map_iff in Hin. destruct Hin as [j [Heq _]]. discriminate.
      + apply notify_sizes_only in Hin.
        destruct Hin as [(j & sz & Heq)|(j & sz & vs & Heq)]; discriminate.
    - intros Hi. left. left. exists i. split; [reflexivity|].
      apply list_elem_of_In, elem_of_elements. rewrite Hh.
      apply elem_of_difference. exact Hi. }
  split.
  { intros i. rewrite !in_app_iff, !in_map_iff. split.
    - intros [[[j [Heq _]]|[[j [Heq Hin]]|Hin]]|[Heq|[]]]; try discriminate.
      + inversion Heq; subst j. apply list_elem_of_In, elem_of_elements in Hin.
        rewrite Hs in Hin. apply elem_of_difference in Hin. exact Hin.
      + apply notify_sizes_only in Hin.
        destruct Hin as [(j & sz & Heq)|(j & sz & vs & Heq)]; discriminate.
    - intros Hi. left. right. left. exists i. split; [reflexivity|].
      apply list_elem_of_In, elem_of_elements. rewrite Hs.
      apply elem_of_difference. exact Hi. }
  split.
  { intros i sz. rewrite !in_app_iff, !in_map_iff, notify_sizes_update. split.
    - intros [[[j [Heq _]]|[[j [Heq _]]|Hin]]|[Heq|[]]]; try discriminate.
      destruct Hin as (w & cropped & region & vs & Hin & Hid & Hsz).
      apply iter_In in Hin. destruct Hin as (rr & Hin & _ & -> & _).
      exists w, rr. auto.
    - intros (w & rr & Hin & Hid & Hsz). left. right. right.
      exists w, (visible_region rr), (rr_region rr), (rr_virtual_size rr).
      split; [|auto]. apply iter_In. exists rr. auto. }
  split.
  { intros i sz vs. rewrite !in_app_iff, !in_map_iff, notify_sizes_resize. split.
    - intros [[[j [Heq _]]|[[j [Heq _]]|Hin]]|[Heq|[]]]; try discriminate.
      destruct Hin as (w & cropped & region & Hin & Hid & Hsz & Hsend).
      apply iter_In in Hin. destruct Hin as (rr & Hin & _ & -> & ->).
      exists w, rr. repeat split; auto.
      apply elem_of_union in Hsend. destruct Hsend as [Hshown|Hres].
      + rewrite Hs in Hshown. apply elem_of_difference in Hshown. tauto.
      + right. rewrite Hr, elem_of_list_to_set, list_elem_of_In, in_map_iff in Hres.
        destruct Hres as [[w' rr'] [Hid' Hf]]. simpl in Hid'.
        apply filter_In in Hf. destruct Hf as [Hin' Hb].
        apply andb_true_iff in Hb. destruct Hb as [_ Hne].
        assert (Heq : (w', rr') = (w, rr)).
        { apply (ids_inj (c_map c')); auto. simpl. congruence. }
        inversion Heq; subst w' rr'. subst sz.
        intros Hsz. rewrite Hsz in Hne.
        assert (Ht : size_eqb (region_size (rr_region rr))
                       (region_size (rr_region rr)) = true)
          by (apply size_eqb_eq; reflexivity).
        rewrite Ht in Hne. discriminate.
    - intros (w & rr & Hin & Hid & Hsz & Hvs & Hwhy). left. right. right.
      exists w, (visible_region rr), (rr_region rr).
      split; [apply iter_In; exists rr; auto|].
      split; [exact Hid|]. split; [exact Hsz|].
      assert (Hnew : i ∈ Dict.keys (c_map c')).
      { apply keys_elem. exists w, rr. auto. }
      apply elem_of_union.
      destruct (decide (i ∈ old)) as [Hold|Hold].
      + destruct Hwhy as [Hwhy|Hwhy]; [contradiction|].
        right. rewrite Hr, elem_of_list_to_set, list_elem_of_In, in_map_iff.
        exists (w, rr). split; [exact Hid|].
        apply filter_In. split; [exact Hin|].
        apply andb_true_iff. split.
        * apply bool_decide_eq_true. rewrite Hid. exact Hold.
        * destruct (size_eqb (w_size w) (region_size (rr_region rr))) eqn:E;
            [|reflexivity].
          apply size_eqb_eq in E. subst sz. contradiction.
      + left. rewrite Hs. apply elem_of_difference. auto. }
  split.
  { rewrite !List.filter_app, !length_app, notify_sizes_count, iter_length.
    rewrite (filter_none is_update_size (List.map PostHide _)),
      (filter_none is_update_size (List.map PostShow _)).
    - simpl. lia.
    - intros eff Hin. apply in_map_iff in Hin. destruct Hin as [j [<- _]].
      reflexivity.
    - intros eff Hin. apply in_map_iff in Hin. destruct Hin as [j [<- _]].
      reflexivity. }
  split.
  { rewrite !in_app_iff, !in_map_iff.
    intros [[[j [Heq _]]|[[j [Heq _]]|Hin]]|[Heq|[]]]; try discriminate.
    apply notify_sizes_only in Hin.
    destruct Hin as [(j & sz & Heq)|(j & sz & vs & Heq)]; discriminate. }
  apply List.last_last.
Qed.

Lemma refresh_layout_notifies_witness :
  In (PostResize 3%nat (mkSize 2 1) (mkSize 2 1))
    (snd (refresh_layout 8 has_area (mkScreen solid_root init))) /\
  ~ In (PostHide 3%nat)
      (snd (refresh_layout 8 has_area (mkScreen solid_root init))).
Proof.
  destruct (refresh_layout_notifies 8 has_area (mkScreen solid_root init) solid
              (mkReflowResult ∅ (Dict.keys (c_map solid)) ∅))
    as (_ & Hhide & _ & _ & Hresize & _).
  - reflexivity.
  - vm_compute. reflexivity.
  - split.
    + apply Hresize.
      exists wTop, (mkRenderRegion (mkRegion 1 0 2 1) [2; 0] (mkRegion 0 0 4 1)
                      (mkSize 2 1)).
      split; [right; left; reflexivity|].
      split; [reflexivity|]. split; [reflexivity|]. split; [reflexivity|].
      left. simpl. apply not_elem_of_empty.
    + intros Hin. apply Hhide in Hin. destruct Hin as [Hin _].
      simpl in Hin. apply not_elem_of_empty in Hin. exact Hin.
Defined.

(** X21: when the arrangement raises, a refresh of the layout panics and then
    refreshes the application, notifies no widget, and leaves the map,
    the regions and the widgets of the compositor as they were; the
    size and the root of the compositor are the new ones all the same,
    and the cached cuts are dropped. *)
Theorem refresh_layout_panics recursion_limit size_bool s e :
  size_bool (w_size (scr_self s)) = true ->
  _arrange_root recursion_limit (scr_self s) = Raise e ->
  let s' := fst (refresh_layout recursion_limit size_bool s) in
  snd (refresh_layout recursion_limit size_bool s) = [AppPanic; AppRefresh] /\
  scr_self s' = scr_self s /\
  c_map (scr_compositor s') = c_map (scr_compositor s) /\
  c_regions (scr_compositor s') = c_regions (scr_compositor s) /\
  c_widgets (scr_compositor s') = c_widgets (scr_compositor s) /\
  c_require_update (scr_compositor s') = c_require_update (scr_compositor s) /\
  c_size (scr_compositor s') = w_size (scr_self s) /\
  c_root (scr_compositor s') = Some (scr_self s) /\
  c_cuts (scr_compositor s') = None.
Proof.
  intros Hsize Harr s'. subst s'. unfold refresh_layout, reflow.
  rewrite Hsize, Harr. cbn. repeat split; reflexivity.
Qed.

Lemma refresh_layout_panics_witness :
  snd (refresh_layout 8 has_area (mkScreen (broken 0 (mkSize 4 1)) occlusion))
  = [AppPanic; AppRefresh] /\
  c_map (scr_compositor
           (fst (refresh_layout 8 has_area
                   (mkScreen (broken 0 (mkSize 4 1)) occlusion))))
  = c_map occlusion.
Proof.
  destruct (refresh_layout_panics 8 has_area
              (mkScreen (broken 0 (mkSize 4 1)) occlusion) LayoutError)
    as (Heff & _ & Hmap & _).
  - reflexivity.
  - reflexivity.
  - split; [exact Heff|exact Hmap].
Defined.

Lemma refresh_layout_flag recursion_limit size_bool s :
  c_require_update (scr_compositor s) = false ->
  c_require_update
    (scr_compositor (fst (refresh_layout recursion_limit size_bool s))) = false.
Proof.
  intros Hflag. unfold refresh_layout.
  destruct (size_bool (w_size (scr_self s))); [|exact Hflag].
  cbn [negb]. unfold reflow.
  destruct (_arrange_root recursion_limit (scr_self s)) as [[map widgets]|e];
    [reflexivity|exact Hflag].
Qed.

(** X22: an idle tick settles the update flag: whatever happens to the
    refresh (nothing on a screen without area, a panic when the
    arrangement raises) the flag is clear afterwards and a second tick
    does nothing at all.  On a screen without area the tick clears the
    flag and arranges nothing, so the map that [require_update] emptied
    stays empty. *)
Theorem on_idle_settles recursion_limit size_bool s :
  let s' := fst (on_idle recursion_limit size_bool s) in
  check_update (scr_compositor s') = false /\
  on_idle recursion_limit size_bool s' = (s', []) /\
  (check_update (scr_compositor s) = false ->
   on_idle recursion_limit size_bool s = (s, [])) /\
  (check_update (scr_compositor s) = true ->
   size_bool (w_size (scr_self s)) = false ->
   snd (on_idle recursion_limit size_bool s) = [] /\
   c_map (scr_compositor s') = c_map (scr_compositor s)).
Proof.
  intros s'.
  assert (Hflag : check_update (scr_compositor s') = false).
  { subst s'. unfold on_idle, check_update.
    destruct (c_require_update (scr_compositor s)) eqn:E; [|exact E].
    apply refresh_layout_flag. reflexivity. }
  split; [exact Hflag|]. split.
  { unfold on_idle at 1. rewrite Hflag. reflexivity. }
  split.
  { intros H. unfold on_idle. rewrite H. reflexivity. }
  intros H Hsize. subst s'. unfold on_idle, refresh_layout. rewrite H.
  cbn [scr_self]. rewrite Hsize. split; reflexivity.
Qed.

(** X23: after [require_update] the next idle tick of a screen that has an
    area and arranges without raising posts no [Hide], and posts [Show]
    and [Resize] to every widget of the new map, whatever the map held
    before and whatever the widgets' own sizes are. *)
Theorem idle_after_require_update recursion_limit size_bool s c' r :
  let s0 := mkScreen (scr_self s) (require_update (scr_compositor s)) in
  size_bool (w_size (scr_self s)) = true ->
  reflow recursion_limit (reset_update (require_update (scr_compositor s)))
    (scr_self s) (w_size (scr_self s)) = (c', Ok r) ->
  let effects := snd (on_idle recursion_limit size_bool s0) in
  scr_compositor (fst (on_idle recursion_limit size_bool s0)) = c' /\
  (forall i, ~ In (PostHide i) effects) /\
  forall w rr,
    In (w, rr) (c_map c') ->
    In (PostShow (w_id w)) effects /\
    In (UpdateSize (w_id w) (region_size (rr_region rr))) effects /\
    In (PostResize (w_id w) (region_size (rr_region rr)) (rr_virtual_size rr))
      effects.
Proof.
  intros s0 Hsize Hreflow effects. subst effects s0.
  unfold on_idle. cbn [scr_compositor scr_self].
  change (check_update (require_update (scr_compositor s))) with true. cbv iota.
  rewrite (refresh_layout_ok recursion_limit size_bool
             (mkScreen (scr_self s) (reset_update (require_update (scr_compositor s))))
             c' r Hsize Hreflow).
  cbn [fst snd scr_compositor scr_self].
  apply reflow_ok_inv in Hreflow.
  destruct Hreflow as (map & widgets & _ & Hmap & _ & _ & _ & _ & _ & Hs & Hh & _).
  subst map.
  change (c_map (reset_update (require_update (scr_compositor s))))
    with (@nil (Widget * RenderRegion)) in Hs, Hh.
  change (Dict.keys (@nil (Widget * RenderRegion))) with (∅ : gset nat) in Hs, Hh.
  assert (Hh' : hidden r = ∅).
  { rewrite Hh. apply leibniz_equiv, empty_difference. }
  assert (Hs' : shown r = Dict.keys (c_map c')).
  { rewrite Hs. apply leibniz_equiv. rewrite difference_empty. done. }
  split; [reflexivity|]. split.
  - intros i. rewrite Hh', elements_empty. simpl.
    rewrite !in_app_iff, in_map_iff.
    intros [[[j [Heq _]]|Hin]|[Heq|[]]]; try discriminate.
    apply notify_sizes_only in Hin.
    destruct Hin as [(j & sz & Heq)|(j & sz & vs & Heq)]; discriminate.
  - intros w rr Hin.
    assert (Hkey : w_id w ∈ Dict.keys (c_map c')).
    { apply keys_elem. exists w, rr. auto. }
    assert (Hlayer : In (w, visible_region rr, rr_region rr, rr_virtual_size rr)
                       (iter c')).
    { apply iter_In. exists rr. auto. }
    split; [|split].
    + apply in_or_app. left. apply in_or_app. right. apply in_or_app. left.
      apply in_map_iff. exists (w_id w). split; [reflexivity|].
      apply list_elem_of_In, elem_of_elements. rewrite Hs'. exact Hkey.
    + apply in_or_app. left. apply in_or_app. right. apply in_or_app. right.
      apply notify_sizes_update. eauto 10.
    + apply in_or_app. left. apply in_or_app. right. apply in_or_app. right.
      apply notify_sizes_resize.
      exists w, (visible_region rr), (rr_region rr).
      split; [exact Hlayer|]. split; [reflexivity|]. split; [reflexivity|].
      apply elem_of_union. left. rewrite Hs'. exact Hkey.
Qed.

Lemma idle_after_require_update_witness :
  In (PostShow 1%nat)
    (snd (on_idle 8 has_area (mkScreen solid_root (require_update solid)))).
Proof.
  destruct (idle_after_require_update 8 has_area (mkScreen solid_root solid) solid
              (mkReflowResult ∅ (Dict.keys (c_map solid)) ∅))
    as (_ & _ & Hall).
  - reflexivity.
  - vm_compute. reflexivity.
  - apply (Hall wBack (mkRenderRegion (mkRegion 0 0 4 1) [0; 0] (mkRegion 0 0 4 1)
                         (mkSize 4 1))).
    left. reflexivity.
Defined.

(** X24: a resize first gives the screen the size of the event and then
    refreshes the layout at that size: when the size has an area and
    the arrangement returns, the screen, its compositor and the region
    and the clip of the root in the map all have the size of the event;
    the screen itself is told the size it was just given, and the event
    is stopped last. *)
Theorem on_resize_sizes recursion_limit size_bool s size c' r :
  size_bool size = true ->
  reflow recursion_limit (scr_compositor s)
    (scr_self (update_self_size s size)) size = (c', Ok r) ->
  let s' := fst (on_resize recursion_limit size_bool s size) in
  let effects := snd (on_resize recursion_limit size_bool s size) in
  scr_compositor s' = c' /\
  w_size (scr_self s') = size /\ w_id (scr_self s') = w_id (scr_self s) /\
  c_size c' = size /\ c_root c' = Some (scr_self s') /\
  (exists rr,
      Dict.get (c_map c') (scr_self s') = Some rr /\
      region_size (rr_region rr) = size /\
      rr_clip rr = size_region size /\ rr_order rr = []) /\
  In (UpdateSize (w_id (scr_self s)) size) effects /\
  List.last effects AppPanic = MessageStop.
Proof.
  intros Hsize Hreflow s' effects. subst s' effects. unfold on_resize.
  assert (Hself : w_size (scr_self (update_self_size s size)) = size)
    by reflexivity.
  assert (Hid : w_id (scr_self (update_self_size s size)) = w_id (scr_self s))
    by reflexivity.
  assert (Hsize' : size_bool (w_size (scr_self (update_self_size s size))) = true)
    by (rewrite Hself; exact Hsize).
  rewrite <- Hself in Hreflow at 2.
  rewrite (refresh_layout_ok _ _ _ _ _ Hsize' Hreflow).
  cbn [fst snd scr_compositor scr_self].
  pose proof Hreflow as Hinv. apply reflow_ok_inv in Hinv.
  destruct Hinv as (map & widgets & Harr & Hmap & _ & _ & _ & Hcsize & _).
  pose proof Harr as Hlast. unfold _arrange_root in Hlast.
  apply add_widget_last in Hlast. destruct Hlast as (m & vs & Hlast).
  simpl fst in Hlast. subst map.
  assert (Hroot : c_root c' = Some (scr_self (update_self_size s size))).
  { unfold reflow in Hreflow.
    destruct (_arrange_root recursion_limit (scr_self (update_self_size s size)))
      as [[m' ws']|e]; inversion Hreflow; reflexivity. }
  assert (Hget : Dict.get (c_map c') (scr_self (update_self_size s size))
                 = Some (mkRenderRegion
                           (region_add (size_region size)
                              (layout_offset (scr_self (update_self_size s size))
                                 (size_region size) (size_region size)))
                           [] (size_region size) vs)).
  { rewrite Hlast, Hself. apply dict_get_set_same. }
  split; [reflexivity|]. split; [exact Hself|]. split; [exact Hid|].
  split; [rewrite Hcsize; exact Hself|]. split; [exact Hroot|].
  split.
  { eexists. split; [exact Hget|]. cbn [rr_region rr_clip rr_order].
    split; [|split; reflexivity].
    unfold region_size.
    destruct (region_add_size (size_region size)
                (layout_offset (scr_self (update_self_size s size))
                   (size_region size) (size_region size))) as [-> ->].
    destruct size. reflexivity. }
  split.
  { apply in_or_app. left. apply in_or_app. left. apply in_or_app. right.
    apply in_or_app. right.
    apply notify_sizes_update.
    apply dict_get_In in Hget. destruct Hget as (k & Hin & Hk).
    eexists k, _, _, _. split; [apply iter_In; eexists; split; [exact Hin|]; auto|].
    split; [rewrite Hk; exact Hid|].
    cbn [rr_region]. unfold region_size.
    destruct (region_add_size (size_region size)
                (layout_offset (scr_self (update_self_size s size))
                   (size_region size) (size_region size))) as [-> ->].
    destruct size. reflexivity. }
  apply List.last_last.
Qed.

Lemma on_resize_sizes_witness :
  w_size (scr_self (fst (on_resize 8 has_area (mkScreen solid_root init)
                           (mkSize 6 1)))) = mkSize 6 1 /\
  In (UpdateSize 0%nat (mkSize 6 1))
    (snd (on_resize 8 has_area (mkScreen solid_root init) (mkSize 6 1))).
Proof.
  destruct (on_resize_sizes 8 has_area (mkScreen solid_root init) (mkSize 6 1)
              (fst (reflow 8 init
                      (scr_self (update_self_size (mkScreen solid_root init)
                                   (mkSize 6 1)))
                      (mkSize 6 1)))
              (mkReflowResult ∅
                 (Dict.keys
                    (c_map
                       (fst (reflow 8 init
                               (scr_self
                                  (update_self_size (mkScreen solid_root init)
                                     (mkSize 6 1)))
                               (mkSize 6 1))))) ∅))
    as (_ & Hself & _ & _ & _ & _ & Hupd & _).
  - reflexivity.
  - vm_compute. reflexivity.
  - split; [exact Hself|exact Hupd].
Defined.

(** *** The screen: mouse events *)

(** X25: whatever the screen does with an event, it leaves it marked as
    forwarded; and the mouse moves and wheel events that it hands to a
    widget are marked too, so a screen that is handed one of them back
    drops it: it asks for nothing and changes nothing. *)
Theorem forwarded_events_are_dropped can_focus event_offset s captured event :
  ev_forwarded (fst (fst (forward_event can_focus event_offset s captured event)))
  = true /\
  ((ev_class event = MouseMove \/ ev_class event = MouseScroll) ->
   forall w event',
     In (ForwardEvent w event')
       (snd (fst (forward_event can_focus event_offset s captured event))) ->
     ev_forwarded event' = true /\
     forall s2 captured2,
       forward_event can_focus event_offset s2 captured2 event'
       = (event', [], Ok tt)).
Proof.
  unfold forward_event.
  destruct (ev_forwarded event) eqn:Hf.
  - split; [exact Hf|]. intros _ w event' [].
  - cbn [set_forwarded ev_class ev_screen_x ev_screen_y ev_x ev_y].
    destruct (ev_class event) eqn:Hclass.
    + split; [reflexivity|]. intros [H|H]; discriminate.
    + destruct (get_style_at (scr_compositor s) (ev_screen_x event)
                  (ev_screen_y event)) as [style|e].
      * unfold _on_mouse_move.
        cbn [set_style set_forwarded ev_x ev_y ev_delta_x ev_delta_y ev_button
               ev_shift ev_meta ev_ctrl ev_screen_x ev_screen_y ev_style].
        destruct (locate s captured (ev_x event) (ev_y event))
          as [[widget region]|e].
        -- cbn [fst snd]. split; [reflexivity|]. intros _ w event' Hin.
           destruct Hin as [Heq|[Heq|[]]]; [discriminate|].
           injection Heq as _ <-. split; [reflexivity|]. intros s2 captured2. reflexivity.
        -- destruct e; cbn [fst snd]; (split; [reflexivity|]);
             intros _ w event' Hin; simpl in Hin;
             repeat (destruct Hin as [Hin|Hin]; [discriminate|]);
             destruct Hin.
      * cbn [fst snd]. split; [reflexivity|]. intros _ w event' [].
    + split; [|intros [H|H]; discriminate].
      destruct (locate s captured (ev_x event) (ev_y event))
        as [[widget region]|[]]; try reflexivity.
      destruct (get_style_at (scr_compositor s) (ev_screen_x event)
                  (ev_screen_y event)); reflexivity.
    + split; [|intros [H|H]; discriminate].
      destruct (locate s captured (ev_x event) (ev_y event))
        as [[widget region]|[]]; try reflexivity.
      destruct (get_style_at (scr_compositor s) (ev_screen_x event)
                  (ev_screen_y event)); reflexivity.
    + destruct (get_widget_at (scr_compositor s) (ev_x event) (ev_y event))
        as [[widget region]|e].
      * cbn [fst snd]. split; [reflexivity|]. intros _ w event' Hin.
        destruct Hin as [Heq|[]]. injection Heq as _ <-.
        split; [reflexivity|]. intros s2 captured2. reflexivity.
      * destruct e; cbn [fst snd]; (split; [reflexivity|]);
          intros _ w event' Hin; destruct Hin.
    + split; [reflexivity|]. intros [H|H]; discriminate.
Qed.

Lemma hit_within_region recursion_limit c parent size c' r x y w region :
  reflow recursion_limit c parent size = (c', Ok r) ->
  regions_valid parent ->
  get_widget_at c' x y = Ok (w, region) ->
  0 <= x - reg_x region < reg_width region /\
  0 <= y - reg_y region < reg_height region.
Proof.
  intros Hreflow Hvalid Hhit. apply reflow_ok_inv in Hreflow.
  destruct Hreflow as (map & widgets & Harr & Hmap & _). subst map.
  apply get_widget_at_In in Hhit. destruct Hhit as (rr & Hin & -> & Hc).
  destruct (arranged_entry_clip _ _ _ _ _ _ Harr Hvalid Hin)
    as (Hw & Hh & Hcw & Hch & _).
  pose proof (contains_region_bool _ _ _ Hc) as Hne.
  destruct (intersection_sub _ _ Hw Hh Hcw Hch Hne) as (Hsub & _).
  apply contains_region_bounds in Hsub. apply contains_spec in Hc.
  unfold visible_region in Hc. lia.
Qed.

(** X26: a mouse move over an arranged screen, the mouse not being captured:
    the widget under the point is made the one the mouse is over and is
    forwarded a move whose coordinates are counted from the corner of
    its region and lie within the size of the region; the move carries
    the style found at the screen coordinates and is marked as
    forwarded. *)
Theorem mouse_move_within_widget recursion_limit can_focus event_offset
    c parent size c' r self event w region style :
  reflow recursion_limit c parent size = (c', Ok r) ->
  regions_valid parent ->
  ev_class event = MouseMove ->
  ev_forwarded event = false ->
  get_widget_at c' (ev_x event) (ev_y event) = Ok (w, region) ->
  get_style_at c' (ev_screen_x event) (ev_screen_y event) = Ok style ->
  exists local,
    forward_event can_focus event_offset (mkScreen self c') None event
    = (set_style (set_forwarded event) style,
       [SetMouseOver (Some (w_id w)); ForwardEvent (w_id w) local], Ok tt) /\
    ev_class local = MouseMove /\
    ev_x local = ev_x event - reg_x region /\
    ev_y local = ev_y event - reg_y region /\
    0 <= ev_x local < reg_width region /\
    0 <= ev_y local < reg_height region /\
    ev_style local = style /\
    ev_screen_x local = ev_screen_x event /\
    ev_screen_y local = ev_screen_y event /\
    ev_forwarded local = true.
Proof.
  intros Hreflow Hvalid Hclass Hf Hhit Hstyle.
  destruct (hit_within_region _ _ _ _ _ _ _ _ _ _ Hreflow Hvalid Hhit) as [Hx Hy].
  unfold forward_event. rewrite Hf.
  cbn [set_forwarded ev_class ev_screen_x ev_screen_y scr_compositor].
  rewrite Hclass, Hstyle. unfold _on_mouse_move, locate.
  cbn [set_style set_forwarded ev_x ev_y ev_delta_x ev_delta_y ev_button
         ev_shift ev_meta ev_ctrl ev_screen_x ev_screen_y ev_style
         scr_compositor].
  rewrite Hhit. eexists. split; [reflexivity|].
  cbn [set_forwarded ev_class ev_x ev_y ev_style ev_screen_x ev_screen_y
         ev_forwarded].
  repeat split; auto; lia.
Qed.

Lemma solid_placed w region order clip :
  placed solid_root w region order clip ->
  (w = solid_root /\ region = mkRegion 0 0 4 1) \/
  (w = wBack /\ region = mkRegion 0 0 4 1) \/
  (w = wTop /\ region = mkRegion 1 0 2 1).
Proof.
  intros Hp.
  induction Hp as [|parent region order clip arrange placements widgets p sub
                     Hp IH Hlay Harr Hin Hsub].
  - left. split; reflexivity.
  - destruct IH as [[-> ->]|[[-> ->]|[-> ->]]]; [|discriminate|discriminate].
    simpl in Hlay. inversion Hlay. subst arrange. clear Hlay.
    simpl in Harr. inversion Harr. subst placements widgets. clear Harr.
    destruct Hin as [<-|[<-|[]]]; simpl in Hsub; inversion Hsub; subst sub.
    + right. left. split; reflexivity.
    + right. right. split; reflexivity.
Qed.

Lemma solid_regions_valid : regions_valid solid_root.
Proof.
  intros w region order clip Hp. apply solid_placed in Hp.
  destruct Hp as [[_ ->]|[[_ ->]|[_ ->]]]; simpl; lia.
Qed.

Lemma mouse_move_within_widget_witness :
  exists local,
    forward_event (fun _ => true) (fun e _ _ => e) (mkScreen solid_root solid) None
      (mkEvent MouseMove 2 0 0 0 0 false false false 2 0 Style_null false)
    = (mkEvent MouseMove 2 0 0 0 0 false false false 2 0 (Style_of "c") true,
       [SetMouseOver (Some 3%nat); ForwardEvent 3%nat local], Ok tt) /\
    ev_x local = 1 /\ ev_y local = 0.
Proof.
  destruct (mouse_move_within_widget 8 (fun _ => true) (fun e _ _ => e)
              init solid_root (mkSize 4 1) solid
              (mkReflowResult ∅ (Dict.keys (c_map solid)) ∅) solid_root
              (mkEvent MouseMove 2 0 0 0 0 false false false 2 0 Style_null false)
              wTop (mkRegion 1 0 2 1) (Style_of "c"))
    as (local & Hfw & _ & Hx & Hy & _).
  - vm_compute. reflexivity.
  - exact solid_regions_valid.
  - reflexivity.
  - reflexivity.
  - reflexivity.
  - reflexivity.
  - exists local. split; [exact Hfw|]. split; [exact Hx|exact Hy].
Defined.

(** X27: while a widget has captured the mouse, the point of a mouse event
    is not looked up: a move or a button event goes to the captor, with
    coordinates counted from the corner of the captor's region wherever
    the point is.  When the captor is not in the map, the move leaves
    the mouse over no widget and the button event drops the focus, and
    nothing is forwarded. *)
Theorem captured_mouse_goes_to_captor can_focus event_offset s captor event style :
  ev_forwarded event = false ->
  get_style_at (scr_compositor s) (ev_screen_x event) (ev_screen_y event)
  = Ok style ->
  let out := forward_event can_focus event_offset s (Some captor) event in
  let event' := set_style (set_forwarded event) style in
  match Dict.get (c_map (scr_compositor s)) captor with
  | None =>
      (ev_class event = MouseMove -> out = (event', [SetMouseOver None], Ok tt)) /\
      (ev_class event = MouseDown \/ ev_class event = MouseEvent ->
       out = (set_forwarded event, [SetFocus None], Ok tt))
  | Some rr =>
      (ev_class event = MouseMove ->
       exists local,
         out = (event',
                [SetMouseOver (Some (w_id captor));
                 ForwardEvent (w_id captor) local], Ok tt) /\
         ev_x local = ev_x event - reg_x (rr_region rr) /\
         ev_y local = ev_y event - reg_y (rr_region rr) /\
         ev_forwarded local = true) /\
      (ev_class event = MouseEvent ->
       out = (event',
              [ForwardEvent (w_id captor)
                 (event_offset event' (- reg_x (rr_region rr))
                    (- reg_y (rr_region rr)))], Ok tt)) /\
      (ev_class event = MouseDown ->
       out = (event',
              (if can_focus captor then [SetFocus (Some (w_id captor))] else [])
              ++ [ForwardEvent (w_id captor)
                    (event_offset event' (- reg_x (rr_region rr))
                       (- reg_y (rr_region rr)))], Ok tt))
  end.
Proof.
  intros Hf Hstyle out event'. subst out event'.
  unfold forward_event, _on_mouse_move, locate, get_widget_region.
  rewrite Hf.
  cbn [set_style set_forwarded ev_class ev_x ev_y ev_delta_x ev_delta_y
         ev_button ev_shift ev_meta ev_ctrl ev_screen_x ev_screen_y ev_style].
  rewrite Hstyle.
  destruct (Dict.get (c_map (scr_compositor s)) captor) as [rr|].
  - cbn [mbind result_bind]. split; [|split].
    + intros ->. eexists. split; [reflexivity|].
      cbn [ev_x ev_y ev_forwarded]. auto.
    + intros ->. reflexivity.
    + intros ->. reflexivity.
  - cbn [mbind result_bind]. split.
    + intros ->. reflexivity.
    + intros [-> | ->]; reflexivity.
Qed.

Lemma captured_mouse_goes_to_captor_witness :
  exists local,
    forward_event (fun _ => true) (fun e _ _ => e) (mkScreen solid_root solid)
      (Some wBack)
      (mkEvent MouseMove 2 0 0 0 0 false false false 2 0 Style_null false)
    = (mkEvent MouseMove 2 0 0 0 0 false false false 2 0 (Style_of "c") true,
       [SetMouseOver (Some 1%nat); ForwardEvent 1%nat local], Ok tt) /\
    ev_x local = 2.
Proof.
  pose proof (captured_mouse_goes_to_captor (fun _ => true) (fun e _ _ => e)
                (mkScreen solid_root solid) wBack
                (mkEvent MouseMove 2 0 0 0 0 false false false 2 0 Style_null false)
                (Style_of "c") eq_refl eq_refl) as H.
  cbv zeta in H.
  change (Dict.get (c_map (scr_compositor (mkScreen solid_root solid))) wBack)
    with (Some (mkRenderRegion (mkRegion 0 0 4 1) [0; 0] (mkRegion 0 0 4 1)
                  (mkSize 4 1))) in H.
  cbv iota in H. destruct H as (Hmove & _).
  destruct (Hmove eq_refl) as (local & Hout & Hx & _).
  exists local. split; [exact Hout|exact Hx].
Defined.

(** *** The view: cached arrangement *)

Lemma offset_eqb_eq a b : offset_eqb a b = true <-> a = b.
Proof.
  destruct a, b. unfold offset_eqb. simpl.
  rewrite andb_true_iff, !Z.eqb_eq. split.
  - intros [-> ->]. reflexivity.
  - intros H. inversion H. auto.
Qed.

(** X28: the view asks its layout once per size and scroll: what a call of
    [get_arrangement] returns is returned again, and the cache kept,
    by every later call with the same size and scroll, whatever the
    layout would arrange by then (and also if it would raise).  A view
    whose cache is empty answers a request for the default size and
    offset with no placement at all, without asking its layout; and a
    layout that raises leaves the cache as it was. *)
Theorem get_arrangement_cached default_size default_offset apply_margin
    arrange cache size scroll :
  (forall cache' placements,
      get_arrangement apply_margin arrange cache size scroll
      = (cache', Ok placements) ->
      forall arrange',
        get_arrangement apply_margin arrange' cache' size scroll
        = (cache', Ok placements)) /\
  get_arrangement apply_margin arrange
    (empty_arrangement default_size default_offset) default_size default_offset
  = (empty_arrangement default_size default_offset, Ok []) /\
  (forall e,
      snd (get_arrangement apply_margin arrange cache size scroll) = Raise e ->
      fst (get_arrangement apply_margin arrange cache size scroll) = cache /\
      arrange size scroll = Raise e).
Proof.
  assert (Hsz : size_eqb size size = true) by (apply size_eqb_eq; reflexivity).
  assert (Hoff : offset_eqb scroll scroll = true)
    by (apply offset_eqb_eq; reflexivity).
  split; [|split].
  - intros cache' placements H arrange'.
    destruct cache as [[cached_size cached_scroll] arrangement].
    unfold get_arrangement in H.
    destruct (size_eqb cached_size size && offset_eqb cached_scroll scroll) eqn:Hhit.
    + inversion H; subst. unfold get_arrangement. rewrite Hhit. reflexivity.
    + destruct (arrange size scroll) as [arranged|e]; [|discriminate].
      inversion H; subst. unfold get_arrangement. rewrite Hsz, Hoff. reflexivity.
  - unfold get_arrangement, empty_arrangement.
    assert (H1 : size_eqb default_size default_size = true)
      by (apply size_eqb_eq; reflexivity).
    assert (H2 : offset_eqb default_offset default_offset = true)
      by (apply offset_eqb_eq; reflexivity).
    rewrite H1, H2. reflexivity.
  - intros e. destruct cache as [[cached_size cached_scroll] arrangement].
    unfold get_arrangement.
    destruct (size_eqb cached_size size && offset_eqb cached_scroll scroll);
      [discriminate|].
    destruct (arrange size scroll) as [arranged|e']; [discriminate|].
    simpl. intros H. inversion H. auto.
Qed.

(** *** A partial update, from the message to the terminal *)

Lemma enumerate_In {A : Type} (l : list A) : forall s k a,
  In (k, a) (enumerate l s) <->
  exists n : nat, k = s + Z.of_nat n /\ nth_error l n = Some a.
Proof.
  induction l as [|b l IH]; intros s k a; simpl.
  - split; [intros []|]. intros (n & _ & H). destruct n; discriminate.
  - rewrite IH. split.
    + intros [Heq|(n & Hk & Hn)].
      * inversion Heq; subst. exists O. split; [lia|reflexivity].
      * exists (S n). split; [lia|exact Hn].
    + intros (n & Hk & Hn). destruct n as [|n].
      * left. simpl in Hn. inversion Hn; subst. f_equal. lia.
      * right. exists n. split; [lia|exact Hn].
Qed.

Lemma written_cell x y (lines : Lines) x0 y0 cell :
  In (x0, y0, cell)
    (List.concat
       (List.map (fun '(y', line) => cells_at x y' (Seg.line_cells line))
          (enumerate lines y))) <->
  exists (j i : nat) line,
    y0 = y + Z.of_nat j /\ x0 = x + Z.of_nat i /\
    nth_error lines j = Some line /\
    nth_error (Seg.line_cells line) i = Some cell.
Proof.
  rewrite in_concat. split.
  - intros (cs & Hcs & Hin). apply in_map_iff in Hcs.
    destruct Hcs as [[y' line] [<- Hrow]].
    apply enumerate_In in Hrow. destruct Hrow as (j & -> & Hj).
    unfold cells_at in Hin. apply in_map_iff in Hin.
    destruct Hin as [[i' cell'] [Heq Hcell]]. inversion Heq; subst.
    apply enumerate_In in Hcell. destruct Hcell as (i & -> & Hi).
    exists j, i, line. repeat split; auto.
  - intros (j & i & line & -> & -> & Hj & Hi).
    exists (cells_at x (y + Z.of_nat j) (Seg.line_cells line)). split.
    + apply in_map_iff. exists (y + Z.of_nat j, line). split; [reflexivity|].
      apply enumerate_In. eauto.
    + unfold cells_at. apply in_map_iff. exists (0 + Z.of_nat i, cell).
      split; [f_equal; f_equal; lia|]. apply enumerate_In. eauto.
Qed.

Lemma no_new_line_cells (line : Line) :
  Forall (fun segment : Segment =>
            Forall (fun ch => Ascii.eqb ch "010"%char = false) (seg_text segment))
    line <->
  Forall (fun cell : Cell => Ascii.eqb (fst cell) "010"%char = false)
    (Seg.line_cells line).
Proof.
  induction line as [|segment line IH].
  - split; constructor.
  - rewrite line_cells_cons, List.Forall_app, List.Forall_cons_iff, IH.
    unfold Seg.cells. rewrite List.Forall_map. simpl. tauto.
Qed.

Lemma row_cells_from_widgets c y cell :
  In cell (row_cells c y) ->
  exists w rr line,
    In (w, rr) (c_map c) /\ In line (w_get_lines w) /\
    In cell (Seg.line_cells line).
Proof.
  unfold row_cells. rewrite in_flat_map. intros (k & _ & Hin).
  unfold filled_cells in Hin.
  destruct (run_of (cuts_row c y) k) as [run|]; [|destruct Hin].
  destruct (front c k y) as [t|] eqn:Hfront; [|destruct Hin].
  apply front_inv in Hfront.
  destruct Hfront as (w & rr & Hmap & _ & _ & _ & ->).
  cbn [default fst snd] in Hin. unfold cell_slice in Hin.
  apply In_firstn, In_skipn in Hin.
  destruct (nth_in_or_default (Z.to_nat (y - reg_y (rr_region rr)))
              (w_get_lines w) []) as [Hline|Hline].
  - eauto 6.
  - rewrite Hline in Hin. destruct Hin.
Qed.

Lemma patch_rows c region :
  renderable c = true ->
  region_bool region = true ->
  contains_region (size_region (c_size c)) region = true ->
  (forall x y, 0 <= x < width (c_size c) ->
               reg_y region <= y < reg_y region + reg_height region ->
               covered c x y = true) ->
  exists out : Lines,
    snd (render c (Some region)) = Ok out /\
    Z.of_nat (length out) = reg_height region /\
    forall j, 0 <= j < reg_height region ->
      Seg.line_cells (nth (Z.to_nat j) out [])
      = cell_slice (row_cells c (reg_y region + j))
          (reg_x region) (reg_x region + reg_width region) /\
      Z.of_nat (length (row_cells c (reg_y region + j))) = width (c_size c).
Proof.
  intros Hren Hne Hin Hcov.
  destruct (renderable_spec c Hren) as (Hw & Hh & Hok & Hvalid).
  destruct (render_rows c Hren) as (lines & Hrender & Hlen & Hrows).
  destruct (crop_view_rows c region lines Hlen Hne Hin)
    as (out & Hout & Hout_len & Hcells).
  exists out. split.
  { rewrite (render_unfold c (Some region) Hvalid).
    rewrite (render_unfold c None Hvalid) in Hrender.
    destruct (fill c) as [chops|e]; [|discriminate].
    cbn [mbind result_bind] in *. inversion Hrender; subst lines. exact Hout. }
  split; [exact Hout_len|].
  intros j Hj.
  pose proof (within_screen_bounds _ _ Hin) as Hb.
  assert (Hyj : 0 <= reg_y region + j < height (c_size c)) by lia.
  assert (Hrow : Z.of_nat (length (row_cells c (reg_y region + j)))
                 = width (c_size c)).
  { apply row_length; [exact Hren|]. intros x Hx. apply Hcov; lia. }
  split; [|exact Hrow].
  rewrite (Hcells j Hj); [rewrite (Hrows _ Hyj); reflexivity|].
  unfold Seg.line_length. rewrite (Hrows _ Hyj). exact Hrow.
Qed.

(** X19: from the message to the terminal: on a renderable screen, for a
    widget whose clipped region has an area, lies within the screen and
    spans rows that are covered over the whole width, [handle_update]
    stops the message, clears the render cache of the widget and
    displays one patch; on a terminal that obeys the controls the patch
    writes only cells of the clipped region, and at every cell of it
    the cell of the widget that is in front there. *)
Theorem handle_update_shows_front s widget region clip :
  let c := scr_compositor s in
  let update_region := intersection region clip in
  renderable c = true ->
  map_no_new_line c ->
  Dict.get (c_regions c) widget = Some (region, clip) ->
  region_bool region = true ->
  region_bool update_region = true ->
  contains_region (size_region (c_size c)) update_region = true ->
  (forall x y, 0 <= x < width (c_size c) ->
               reg_y update_region <= y < reg_y update_region + reg_height update_region ->
               covered c x y = true) ->
  exists patch,
    snd (fst (handle_update s widget))
    = [MessageStop; WidgetCall (ClearRenderCache (w_id widget)); AppDisplay patch] /\
    snd (handle_update s widget) = Ok tt /\
    c_map (scr_compositor (fst (fst (handle_update s widget)))) = c_map c /\
    lu_region patch = update_region /\
    forall cursor,
      (forall x y cell,
          In (x, y, cell) (terminal (layout_update_console patch) cursor) ->
          contains update_region x y = true) /\
      (forall x y A rA oA cA,
          contains update_region x y = true ->
          front c x y = Some (A, rA, oA, cA) ->
          exists cell,
            widget_cell A rA x y = Some cell /\
            In (x, y, cell) (terminal (layout_update_console patch) cursor)).
Proof.
  intros c update_region Hren Hnl Hget Hregion Hne Hin Hcov.
  destruct (patch_rows c update_region Hren Hne Hin Hcov)
    as (out & Hout & Hlen & Hrows).
  pose proof (within_screen_bounds _ _ Hin) as Hb.
  assert (Hwh : 0 < reg_width update_region /\ 0 < reg_height update_region).
  { unfold region_bool in Hne. apply andb_true_iff in Hne.
    rewrite !Z.ltb_lt in Hne. exact Hne. }
  exists (mkLayoutUpdate out update_region).
  assert (Hupd : update_widget c widget
                 = (fst (render c (Some update_region)),
                    [ClearRenderCache (w_id widget)],
                    Ok (Some (mkLayoutUpdate out update_region)))).
  { rewrite update_widget_unfold, Hget, Hregion. fold update_region.
    rewrite Hne, Hout. reflexivity. }
  unfold handle_update. fold c. rewrite Hupd. cbn [fst snd scr_compositor].
  split; [reflexivity|]. split; [reflexivity|].
  split; [apply render_keeps_map|]. split; [reflexivity|].
  assert (Hsafe : no_new_line out).
  { apply List.Forall_forall. intros line Hline.
    apply no_new_line_cells. apply List.Forall_forall. intros cell Hcell.
    destruct (In_nth _ _ [] Hline) as (n & Hn & Hnth).
    assert (Hn' : Z.of_nat n < reg_height update_region)
      by (rewrite <- Hlen; apply Nat2Z.inj_lt; exact Hn).
    assert (Hj : 0 <= Z.of_nat n < reg_height update_region) by lia.
    destruct (Hrows _ Hj) as [Hcells _].
    rewrite Nat2Z.id in Hcells.
    assert (Hl : Seg.line_cells line
                 = cell_slice (row_cells c (reg_y update_region + Z.of_nat n))
                     (reg_x update_region)
                     (reg_x update_region + reg_width update_region))
      by (rewrite <- Hnth; exact Hcells).
    rewrite Hl in Hcell.
    unfold cell_slice in Hcell. apply In_firstn, In_skipn in Hcell.
    apply row_cells_from_widgets in Hcell.
    destruct Hcell as (w & rr & wline & Hmap & Hwline & Hcell).
    pose proof (Hnl w rr Hmap) as Hw. unfold no_new_line in Hw.
    rewrite List.Forall_forall in Hw. specialize (Hw _ Hwline).
    apply no_new_line_cells in Hw. rewrite List.Forall_forall in Hw.
    apply Hw. exact Hcell. }
  intros cursor.
  assert (Hterm : terminal (layout_update_console (mkLayoutUpdate out update_region))
                    cursor
                  = List.concat
                      (List.map
                         (fun '(y', line) =>
                            cells_at (reg_x update_region) y' (Seg.line_cells line))
                         (enumerate out (reg_y update_region)))).
  { unfold layout_update_console. cbn [terminal lu_lines lu_region].
    apply terminal_rows. exact Hsafe. }
  rewrite Hterm. split.
  - intros x y cell Hcell. apply written_cell in Hcell.
    destruct Hcell as (j & i & line & -> & -> & Hline & Hi).
    assert (Hjn : (j < length out)%nat) by (apply nth_error_Some; congruence).
    assert (Hjn' : Z.of_nat j < reg_height update_region)
      by (rewrite <- Hlen; apply Nat2Z.inj_lt; exact Hjn).
    assert (Hj : 0 <= Z.of_nat j < reg_height update_region) by lia.
    destruct (Hrows _ Hj) as [Hcells Hrow].
    rewrite Nat2Z.id, (nth_error_nth_default _ _ line []) in Hcells by exact Hline.
    assert (Hilen : (i < length (Seg.line_cells line))%nat)
      by (apply nth_error_Some; congruence).
    rewrite Hcells in Hilen.
    pose proof (cell_slice_length (row_cells c (reg_y update_region + Z.of_nat j))
                  (reg_x update_region)
                  (reg_x update_region + reg_width update_region)) as Hsl.
    apply contains_spec. lia.
  - intros x y A rA oA cA Hcont Hfront. apply contains_spec in Hcont.
    set (j := y - reg_y update_region). set (i := x - reg_x update_region).
    assert (Hj : 0 <= j < reg_height update_region) by (unfold j; lia).
    assert (Hi : 0 <= i < reg_width update_region) by (unfold i; lia).
    destruct (Hrows _ Hj) as [Hcells Hrow].
    assert (Hcell : nth_error (Seg.line_cells (nth (Z.to_nat j) out []))
                      (Z.to_nat i)
                    = widget_cell A rA x y).
    { rewrite Hcells, nth_error_cell_slice by lia.
      replace (reg_y update_region + j) with y by (unfold j; lia).
      replace (reg_x update_region + i) with x by (unfold i; lia).
      apply (row_cell c y x A rA oA cA Hren); [|exact Hfront].
      intros x' Hx'. apply Hcov; lia. }
    assert (Hsome : widget_cell A rA x y <> None).
    { apply (row_cell c y x A rA oA cA Hren); [|exact Hfront].
      intros x' Hx'. apply Hcov; lia. }
    destruct (widget_cell A rA x y) as [cell|] eqn:Hwc; [|contradiction].
    exists cell. split; [reflexivity|].
    apply written_cell.
    exists (Z.to_nat j), (Z.to_nat i), (nth (Z.to_nat j) out []).
    split; [unfold j; lia|]. split; [unfold i; lia|].
    split; [|exact Hcell].
    apply nth_error_nth'. apply Nat2Z.inj_lt. rewrite Hlen. lia.
Qed.

Lemma handle_update_shows_front_witness :
  exists patch,
    snd (fst (handle_update (mkScreen solid_root solid) wBack))
    = [MessageStop; WidgetCall (ClearRenderCache 1%nat); AppDisplay patch] /\
    In (1, 0, ("C"%char, Some (Style_of "c")))
      (terminal (layout_update_console patch) (7, 7)).
Proof.
  destruct (handle_update_shows_front (mkScreen solid_root solid) wBack
              (mkRegion 0 0 4 1) (mkRegion 0 0 4 1))
    as (patch & Heff & _ & _ & _ & Hterm).
  - vm_compute. reflexivity.
  - intros w rr Hin.
    destruct Hin as [Hin|[Hin|[Hin|[]]]]; inversion Hin; subst;
      repeat constructor.
  - reflexivity.
  - reflexivity.
  - reflexivity.
  - reflexivity.
  - intros x y Hx Hy. simpl in Hx.
    change (reg_y (intersection (mkRegion 0 0 4 1) (mkRegion 0 0 4 1))) with 0 in Hy.
    change (reg_height (intersection (mkRegion 0 0 4 1) (mkRegion 0 0 4 1)))
      with 1 in Hy.
    assert (y = 0) by lia. subst y.
    assert (Hcases : x = 0 \/ x = 1 \/ x = 2 \/ x = 3) by lia.
    destruct Hcases as [->|[->|[->| ->]]]; reflexivity.
  - exists patch. split; [exact Heff|].
    destruct (Hterm (7, 7)) as [_ Hfront].
    destruct (Hfront 1 0 wTop (mkRegion 1 0 2 1) [2; 0] (mkRegion 0 0 4 1))
      as (cell & Hcell & Hin).
    + reflexivity.
    + reflexivity.
    + vm_compute in Hcell. inversion Hcell; subst cell. exact Hin.
Defined.

(** *** What a render can raise *)

Lemma index_raises {A : Type} (l : list A) i e :
  Py.index l i = Raise e -> e = IndexError.
Proof.
  unfold Py.index.
  destruct ((_ <? 0) || (_ <=? _)); [intros H; inversion H; reflexivity|].
  destruct (nth_error l _); [discriminate|]. intros H. inversion H. reflexivity.
Qed.

Lemma index_lookup {A : Type} (l : list A) i a :
  Py.index l i = Ok a ->
  exists j : nat,
    l !! j = Some a /\
    forall (B : Type) (l' : list B) (b : B),
      length l' = length l ->
      (forall b', Py.index l' i = Ok b' -> l' !! j = Some b') /\
      list_assign l' i b = <[j := b]> l'.
Proof.
  unfold Py.index, list_assign.
  set (n := Z.of_nat (length l)).
  set (k := if i <? 0 then i + n else i).
  destruct ((k <? 0) || (n <=? k)) eqn:Hb; [discriminate|].
  destruct (nth_error l (Z.to_nat k)) as [a'|] eqn:Hn; [|discriminate].
  intros H. inversion H; subst a'. exists (Z.to_nat k). split.
  - rewrite <- nth_error_lookup. exact Hn.
  - intros B l' b Hlen. rewrite Hlen. fold n. fold k. rewrite Hb. split.
    + intros b'. destruct (nth_error l' (Z.to_nat k)) as [b''|] eqn:Hn';
        [|discriminate].
      intros H'. inversion H'; subst. rewrite <- nth_error_lookup. exact Hn'.
    + reflexivity.
Qed.

Lemma map_result_raises {A B : Type} (f : A -> result B) (P : exn -> Prop) l e :
  (forall a e', f a = Raise e' -> P e') ->
  map_result f l = Raise e -> P e.
Proof.
  intros Hf. induction l as [|a l IH]; [discriminate|].
  rewrite map_result_cons. destruct (f a) as [b|e'] eqn:Ha.
  - cbn. destruct (map_result f l) as [bs|e'']; [discriminate|].
    cbn. intros H. inversion H; subst. apply IH. reflexivity.
  - cbn. intros H. inversion H; subst. eapply Hf. exact Ha.
Qed.

Lemma fold_result_inv {A S : Type} (f : S -> A -> result S)
    (I : S -> Prop) (P : exn -> Prop) l :
  (forall s a, In a l -> I s ->
     match f s a with Ok s' => I s' | Raise e => P e end) ->
  forall s, I s ->
    match fold_result f l s with Ok s' => I s' | Raise e => P e end.
Proof.
  induction l as [|a l IH]; intros Hf s Hs; [exact Hs|].
  rewrite fold_result_cons.
  pose proof (Hf s a (or_introl eq_refl) Hs) as Ha.
  destruct (f s a) as [s'|e]; cbn; [|exact Ha].
  apply IH; [|exact Ha]. intros s0 a0 Hin. apply Hf. right. exact Hin.
Qed.

Lemma fromkeys_keys cs k : In k cs -> chop_get (fromkeys cs) k <> None.
Proof.
  unfold fromkeys.
  assert (H : forall cs (d : Chops),
             In k cs \/ chop_get d k <> None ->
             chop_get (fold_left (fun d cut => chop_set d cut None) cs d) k <> None).
  { clear cs. induction cs as [|c cs IH]; intros d Hk; simpl.
    - destruct Hk as [[]|Hk]. exact Hk.
    - apply IH. destruct Hk as [[->|Hk]|Hk]; [right|left; exact Hk|right].
      + rewrite chop_get_set, Z.eqb_refl. discriminate.
      + rewrite chop_get_set. destruct (c =? k); [discriminate|exact Hk]. }
  intros Hk. apply H. left. exact Hk.
Qed.

Lemma keys_ok_init cuts : keys_ok cuts (List.map fromkeys cuts).
Proof.
  unfold keys_ok. induction cuts as [|cs cuts IH]; simpl; constructor; auto.
  intros k Hk. apply fromkeys_keys. exact Hk.
Qed.

Lemma fill_cut_keys (cs : list Z) (d : Chops) p :
  (forall k, In k cs -> chop_get d k <> None) ->
  In (fst p) cs ->
  match fill_cut d p with
  | Ok d' => forall k, In k cs -> chop_get d' k <> None
  | Raise e => render_error e
  end.
Proof.
  intros Hd Hp. destruct p as [cut segments]. simpl in Hp. unfold fill_cut.
  pose proof (Hd cut Hp) as Hcut.
  destruct (chop_get d cut) as [[old|]|]; [exact Hd| |contradiction].
  intros k Hk. rewrite chop_get_set. destruct (cut =? k); [discriminate|].
  apply Hd. exact Hk.
Qed.

Lemma paint_line_keys cuts rr (chops : list Chops) yl :
  keys_ok cuts chops ->
  match paint_line cuts rr chops yl with
  | Ok chops' => keys_ok cuts chops'
  | Raise e => render_error e
  end.
Proof.
  intros Hok. destruct yl as [y line]. unfold paint_line.
  destruct (x_extents rr) as [first_cut last_cut].
  destruct (Py.index cuts y) as [cs|e] eqn:Hcs;
    [|left; eapply index_raises; exact Hcs].
  cbn [mbind result_bind].
  set (final_cuts := List.filter
                       (fun cut => (cut <=? last_cut) && (first_cut <=? cut)) cs).
  match goal with
  | |- context [mbind _ ?m] => destruct m as [cut_segments|e] eqn:Hsegs
  end.
  2:{ cbn. destruct (length final_cuts =? 2)%nat; [discriminate|].
      destruct (Seg.divide line _); inversion Hsegs. right. reflexivity. }
  cbn [mbind result_bind].
  destruct (Py.index chops y) as [d|e] eqn:Hd;
    [|left; eapply index_raises; exact Hd].
  cbn [mbind result_bind].
  destruct (index_lookup _ _ _ Hcs) as (j & Hj & Hother).
  assert (Hlen : length chops = length cuts)
    by (symmetry; eapply Forall2_length; exact Hok).
  destruct (Hother _ chops d Hlen) as [Hdj Hassign].
  specialize (Hdj d Hd).
  assert (Hrow : forall k, In k cs -> chop_get d k <> None).
  { unfold keys_ok in Hok. rewrite Forall2_lookup in Hok.
    specialize (Hok j). rewrite Hj, Hdj in Hok. inversion Hok; subst. assumption. }
  assert (Hstep : forall (s : Chops) a,
             In a (Py.zip final_cuts cut_segments) ->
             (forall k, In k cs -> chop_get s k <> None) ->
             match fill_cut s a with
             | Ok d' => forall k, In k cs -> chop_get d' k <> None
             | Raise e => render_error e
             end).
  { intros s [cut segments] Hin Hs. apply (fill_cut_keys cs s (cut, segments) Hs).
    simpl. unfold Py.zip in Hin. apply in_combine_l in Hin.
    apply filter_In in Hin. tauto. }
  pose proof (fold_result_inv fill_cut
                (fun d' : Chops => forall k, In k cs -> chop_get d' k <> None)
                render_error (Py.zip final_cuts cut_segments) Hstep d Hrow)
    as Hfold.
  destruct (fold_result fill_cut (Py.zip final_cuts cut_segments) d) as [d'|e];
    cbn [mbind result_bind]; [|exact Hfold].
  destruct (Hother _ chops d' Hlen) as [_ Hassign'].
  rewrite Hassign'. unfold keys_ok.
  rewrite <- (list_insert_id cuts j cs Hj).
  apply Forall2_insert; [exact Hok|exact Hfold].
Qed.

Lemma paint_render_keys cuts (chops : list Chops) r :
  (forall e, r = Raise e -> render_error e) ->
  keys_ok cuts chops ->
  match paint_render cuts chops r with
  | Ok chops' => keys_ok cuts chops'
  | Raise e => render_error e
  end.
Proof.
  intros Hr Hok. unfold paint_render.
  destruct r as [[[region clip] lines]|e]; cbn [mbind result_bind];
    [|apply Hr; reflexivity].
  apply fold_result_inv; [|exact Hok].
  intros s a _ Hs. apply paint_line_keys. exact Hs.
Qed.

Lemma get_renders_raise c e :
  In (Raise e) (_get_renders c) -> render_error e.
Proof.
  unfold _get_renders. rewrite <- list_elem_of_In, list_elem_of_omap.
  intros ([[[widget region] order] clip] & _ & Hr). left.
  unfold render_of in Hr.
  destruct (w_is_transparent widget); [discriminate|].
  destruct (contains_region clip region); [discriminate|].
  destruct (overlaps clip region); [|discriminate].
  inversion Hr as [Hm]. clear Hr.
  match type of Hm with
  | mbind _ ?m = _ => destruct m as [ls|e'] eqn:Hmap
  end; [discriminate|].
  cbn in Hm. inversion Hm; subst e'.
  apply (map_result_raises _ (fun e => e = IndexError) _ _
           (fun a e' => index_raises _ _ e') Hmap).
Qed.

(** X15: a render raises nothing but the [IndexError] of an index out of
    range and the [ValueError] of an unpacking: every cut that it
    writes to is a key of its row of chops, so no [KeyError] is raised.
    Both happen for regions outside the screen: the first when a
    clipped region reaches below the last row of the screen, the second
    when it lies beside the screen, where no cut falls within it. *)
Theorem render_raises :
  (forall c crop e, snd (render c crop) = Raise e -> render_error e) /\
  snd (render below_screen None) = Raise IndexError /\
  snd (render beside_screen None) = Raise ValueError.
Proof.
  split; [|split; reflexivity].
  intros c crop e. unfold render.
  destruct (cuts c) as [c1 cs]. cbn [snd].
  pose proof (fold_result_inv (paint_render cs) (keys_ok cs) render_error
                (_get_renders c1)) as Hfold.
  specialize (Hfold
                (fun s a Hin Hs =>
                   paint_render_keys cs s a
                     (fun e' He => get_renders_raise c1 e'
                                     (eq_ind a (fun r => In r (_get_renders c1))
                                        Hin _ He))
                     Hs)
                (List.map fromkeys cs) (keys_ok_init cs)).
  destruct (fold_result (paint_render cs) (_get_renders c1) (List.map fromkeys cs))
    as [chops|e']; cbn [mbind result_bind].
  - destruct (corners _) as [[[crop_x crop_y] crop_x2] crop_y2].
    destruct crop as [cr|]; [|discriminate].
    destruct (negb _); [|discriminate].
    intros H. left.
    apply (map_result_raises (width_view crop_x crop_x2)
             (fun e => e = IndexError) _ _) in H; [exact H|].
    intros line e0. unfold width_view. destruct line; [discriminate|].
    destruct (1 <? _)%nat; apply index_raises.
  - intros H. inversion H; subst. exact Hfold.
Qed.

(** *** What a widget contributes to a render *)

Lemma nth_firstn_skipn {A : Type} (l : list A) n m j d :
  (j < n)%nat -> nth j (firstn n (skipn m l)) d = nth (m + j) l d.
Proof.
  intros Hj. rewrite nth_firstn.
  destruct (Nat.ltb_spec j n); [|lia].
  rewrite nth_skipn. reflexivity.
Qed.

(** X13: for a widget that is not transparent, whose region has an area and
    whose lines fit its region, [_get_renders] yields nothing when the
    region cut to the clip is empty, and otherwise the part of the
    widget's lines that lies within the clip: lines that fit the clipped
    region and carry at every cell of it the cell of the widget's own
    lines for that screen position. *)
Theorem get_renders_crops widget region order clip :
  w_is_transparent widget = false ->
  region_bool region = true ->
  0 <= reg_width clip -> 0 <= reg_height clip ->
  lines_fit (w_get_lines widget) region = true ->
  let visible := intersection region clip in
  (region_bool visible = false ->
   render_of (widget, region, order, clip) = None) /\
  (region_bool visible = true ->
   exists lines' : Lines,
     render_of (widget, region, order, clip) = Some (Ok (region, clip, lines')) /\
     lines_fit lines' visible = true /\
     forall x y,
       contains visible x y = true ->
       nth_error (Seg.line_cells (nth (Z.to_nat (y - reg_y visible)) lines' []))
         (Z.to_nat (x - reg_x visible))
       = widget_cell widget region x y).
Proof.
  intros Hop Hne Hcw Hch Hfit visible.
  apply lines_fit_spec in Hfit. destruct Hfit as [Hrows Hcols].
  unfold render_of. rewrite Hop.
  destruct (contains_region clip region) eqn:Hin.
  - pose proof (intersection_in_clip _ _ Hin) as Heq. fold visible in Heq.
    split; [intros H; rewrite Heq in H; congruence|].
    intros _. exists (w_get_lines widget). split; [reflexivity|].
    rewrite Heq. split; [apply lines_fit_spec; auto|].
    intros x y _. reflexivity.
  - unfold overlaps. fold visible.
    split.
    + intros Hempty. rewrite Hempty. reflexivity.
    + intros Hvis. rewrite Hvis.
      destruct (intersection_crop region clip Hcw Hch Hne Hvis)
        as (Hdx & Hdw & Hdy & Hdh).
      fold visible in Hdx, Hdw, Hdy, Hdh. fold visible.
      assert (Hwh : 0 < reg_width visible /\ 0 < reg_height visible).
      { unfold region_bool in Hvis. apply andb_true_iff in Hvis.
        rewrite !Z.ltb_lt in Hvis. exact Hvis. }
      set (dx := reg_x visible - reg_x region) in *.
      set (dy := reg_y visible - reg_y region) in *.
      rewrite py_slice_valid by lia.
      replace (dy + reg_height visible - dy) with (reg_height visible) by lia.
      set (rows := firstn (Z.to_nat (reg_height visible))
                     (skipn (Z.to_nat dy) (w_get_lines widget))).
      assert (Hrows_fit : Forall (fun l => Seg.line_length l = reg_width region) rows).
      { apply Forall_firstn_skipn. exact Hcols. }
      assert (Hrows_len : length rows = Z.to_nat (reg_height visible)).
      { unfold rows. rewrite length_firstn, length_skipn. lia. }
      destruct (crop_lines rows dx (reg_width visible) (reg_width region)
                  Hdx (proj1 Hwh) Hdw Hrows_fit) as (lines' & Hmap & Hrel).
      exists lines'. rewrite Hmap. split; [reflexivity|].
      assert (Hlen' : length lines' = length rows)
        by (eapply Forall2_length; exact Hrel).
      assert (Hcells : forall j : nat,
                 (j < length rows)%nat ->
                 Seg.line_cells (nth j lines' [])
                 = cell_slice
                     (Seg.line_cells (nth (Z.to_nat dy + j) (w_get_lines widget) []))
                     dx (dx + reg_width visible)).
      { intros j Hj.
        rewrite (Forall2_nth_cells lines' rows _ j Hrel Hj).
        unfold rows. rewrite nth_firstn_skipn by lia. reflexivity. }
      split.
      * apply lines_fit_spec. split; [lia|].
        apply List.Forall_forall. intros l Hl.
        destruct (In_nth _ _ [] Hl) as (j & Hj & <-).
        assert (Hj' : (j < length rows)%nat) by (rewrite <- Hlen'; exact Hj).
        unfold Seg.line_length. rewrite Hcells by exact Hj'.
        rewrite cell_slice_length; [lia|lia|lia|].
        assert (Hin' : In (nth (Z.to_nat dy + j) (w_get_lines widget) [])
                         (w_get_lines widget)) by (apply nth_In; lia).
        rewrite List.Forall_forall in Hcols. specialize (Hcols _ Hin').
        unfold Seg.line_length in Hcols. lia.
      * intros x y Hc. apply contains_spec in Hc.
        rewrite Hcells by lia.
        rewrite nth_error_cell_slice by lia.
        unfold widget_cell.
        replace (Z.to_nat dy + Z.to_nat (y - reg_y visible))%nat
          with (Z.to_nat (y - reg_y region)) by (unfold dy; lia).
        replace (dx + (x - reg_x visible)) with (x - reg_x region)
          by (unfold dx; lia).
        reflexivity.
Qed.

Lemma get_renders_crops_witness :
  exists lines' : Lines,
    render_of (wWide, mkRegion 2 0 4 1, [0], mkRegion 0 0 4 1)
    = Some (Ok (mkRegion 2 0 4 1, mkRegion 0 0 4 1, lines')) /\
    lines_fit lines' (mkRegion 2 0 2 1) = true /\
    nth_error (Seg.line_cells (nth 0 lines' [])) 1
    = Some ("X"%char, Some (Style_of "w")).
Proof.
  destruct (get_renders_crops wWide (mkRegion 2 0 4 1) [0] (mkRegion 0 0 4 1))
    as [_ H].
  - reflexivity.
  - reflexivity.
  - simpl. lia.
  - simpl. lia.
  - reflexivity.
  - destruct (H eq_refl) as (lines' & Hr & Hfit & Hcell).
    exists lines'. split; [exact Hr|]. split; [exact Hfit|].
    apply (Hcell 3 0). reflexivity.
Defined.
